(** * SAMapping: the DMS coordinate parser of [sulfuric_acid_map.py]

    A shallow embedding of [parse_coordinates] (lines 7-82 of the script):
    Python text is a list of Unicode code points, [float] values are IEEE 754
    binary64 numbers as specified by the Standard Library's [SpecFloat], the
    [re] patterns are terms of a small regular-expression type executed by a
    greedy backtracking matcher. The standard output is threaded through the
    call: [print] writes the text and then the line feed to it, and the
    output can refuse a text with an exception (a text that its encoding
    cannot encode), which the handler of [parse_coordinates] catches and
    reports with a [print] of its own, which can fail in the same way.

    Around it: the column lookup and the coordinate loop of
    [process_data_file] (lines 119-127 and 139-149), and the marker and
    filter functions of the page script that [create_html_map] writes
    (lines 424-567). Reading the file, the second loop of
    [process_data_file] (which reads the lists back from the [DataFrame]),
    the JSON serialisation and [main] are input and output through libraries
    and are not embedded. *)

From Stdlib Require Import ZArith List Bool Lia String Ascii QArith Qabs Qpower Lqa.
From Stdlib Require Import DecimalString.
From Stdlib Require Import Floats.SpecFloat.
Import ListNotations.

Local Open Scope Z_scope.

(** ** Text *)

(** A Python [str] is a sequence of code points. *)
Definition char := Z.
Definition str := list char.

Fixpoint str_eqb (a b : str) : bool :=
  match a, b with
  | [], [] => true
  | x :: a', y :: b' => (x =? y) && str_eqb a' b'
  | _, _ => false
  end.

(** Source literals are written as UTF-8 text and decoded to code points. *)
Fixpoint utf8_decode (bs : list Z) : str :=
  match bs with
  | [] => []
  | b0 :: t0 =>
      if b0 <? 0x80 then b0 :: utf8_decode t0
      else match t0 with
      | [] => [b0]
      | b1 :: t1 =>
          if b0 <? 0xE0 then ((b0 - 0xC0) * 64 + (b1 - 0x80)) :: utf8_decode t1
          else match t1 with
          | [] => [b0]
          | b2 :: t2 =>
              if b0 <? 0xF0
              then ((b0 - 0xE0) * 4096 + (b1 - 0x80) * 64 + (b2 - 0x80)) :: utf8_decode t2
              else match t2 with
              | [] => [b0]
              | b3 :: t3 =>
                  ((b0 - 0xF0) * 262144 + (b1 - 0x80) * 4096
                   + (b2 - 0x80) * 64 + (b3 - 0x80)) :: utf8_decode t3
              end
          end
      end
  end.

Definition u (s : string) : str :=
  utf8_decode (map (fun a => Z.of_nat (nat_of_ascii a)) (list_ascii_of_string s)).

(** The code points the parser names. *)
Definition c_dquote : char := 34.      (* the ASCII double quote *)
Definition c_squote : char := 39.      (* ' *)
Definition c_comma : char := 44.       (* , *)
Definition c_dot : char := 46.         (* . *)
Definition c_degree : char := 0xB0.    (* DEGREE SIGN *)
Definition c_ordinal : char := 0xBA.   (* MASCULINE ORDINAL INDICATOR *)
Definition c_prime : char := 0x2032.   (* PRIME *)
Definition c_dprime : char := 0x2033.  (* DOUBLE PRIME *)
Definition c_long_s : char := 0x17F.   (* LATIN SMALL LETTER LONG S *)

(** *** Unicode tables used by [re] and [str]

    [Py_UNICODE_ISSPACE]: the code points matched by [\s] and removed by
    [str.strip()]. *)
Definition is_space (c : char) : bool :=
  ((0x09 <=? c) && (c <=? 0x0D)) || ((0x1C <=? c) && (c <=? 0x20))
  || (c =? 0x85) || (c =? 0xA0) || (c =? 0x1680)
  || ((0x2000 <=? c) && (c <=? 0x200A))
  || (c =? 0x2028) || (c =? 0x2029) || (c =? 0x202F) || (c =? 0x205F)
  || (c =? 0x3000).

(** First code points of the runs of ten decimal digits (general category Nd,
    Unicode 15). [\d] matches exactly the code points with a decimal value,
    and [float] reads each of them as that value. *)
Definition decimal_runs : list Z :=
  [ 0x30; 0x660; 0x6F0; 0x7C0; 0x966; 0x9E6; 0xA66; 0xAE6; 0xB66; 0xBE6;
    0xC66; 0xCE6; 0xD66; 0xDE6; 0xE50; 0xED0; 0xF20; 0x1040; 0x1090; 0x17E0;
    0x1810; 0x1946; 0x19D0; 0x1A80; 0x1A90; 0x1B50; 0x1BB0; 0x1C40; 0x1C50;
    0xA620; 0xA8D0; 0xA900; 0xA9D0; 0xA9F0; 0xAA50; 0xABF0; 0xFF10; 0x104A0;
    0x10D30; 0x11066; 0x110F0; 0x11136; 0x111D0; 0x112F0; 0x11450; 0x114D0;
    0x11650; 0x116C0; 0x11730; 0x118E0; 0x11950; 0x11C50; 0x11D50; 0x11DA0;
    0x11F50; 0x16A60; 0x16AC0; 0x16B50;
    0x1D7CE; 0x1D7D8; 0x1D7E2; 0x1D7EC; 0x1D7F6;
    0x1E140; 0x1E2F0; 0x1E4F0; 0x1E950; 0x1FBF0 ].

Fixpoint decimal_in (runs : list Z) (c : char) : option Z :=
  match runs with
  | [] => None
  | r :: runs' =>
      if (r <=? c) && (c <=? r + 9) then Some (c - r) else decimal_in runs' c
  end.

(** [Py_UNICODE_TODECIMAL] *)
Definition decimal (c : char) : option Z := decimal_in decimal_runs c.

(** [Py_UNICODE_ISDECIMAL] *)
Definition is_decimal (c : char) : bool :=
  match decimal c with Some _ => true | None => false end.

(** Simple lower-case mapping, as [re] applies it to the subject text under
    [re.IGNORECASE]. Only the ASCII capitals are mapped here: no other code
    point lower-cases to a member of a character set of this program. *)
Definition sre_lower (c : char) : char :=
  if (65 <=? c) && (c <=? 90) then c + 32 else c.

(** [sre_compile._equivalences] restricted to the classes that contain an
    ASCII letter: lower-case code points that [re.IGNORECASE] treats as equal
    although [sre_lower] does not relate them. *)
Definition sre_equivalences : list (char * char) :=
  [ (0x69, 0x131) (* i, dotless i *) ; (0x73, c_long_s) (* s, long s *) ].

(** Upper-case mapping of one code point, on the letters that the hemisphere
    class can capture (ASCII letters and the long s, whose capital is [S]). *)
Definition upper_char (c : char) : char :=
  if (97 <=? c) && (c <=? 122) then c - 32
  else if c =? c_long_s then 83
  else c.

(** [str.upper()] *)
Definition py_upper (s : str) : str := map upper_char s.

Fixpoint lstrip (s : str) : str :=
  match s with
  | c :: s' => if is_space c then lstrip s' else s
  | [] => []
  end.

(** [str.strip()] *)
Definition strip (s : str) : str := rev (lstrip (rev (lstrip s))).

Fixpoint starts_with (p s : str) : bool :=
  match p, s with
  | [], _ => true
  | x :: p', y :: s' => (x =? y) && starts_with p' s'
  | _ :: _, [] => false
  end.

(** [p in s] on text: [p] occurs in [s] as a contiguous run. *)
Fixpoint contains (p s : str) : bool :=
  starts_with p s || match s with [] => false | _ :: s' => contains p s' end.

(** ** Regular expressions

    The fragment of [re] syntax that the three patterns use. Repetition is
    only ever applied to a single character class. *)
Inductive atom :=
| ADigit                      (* \d *)
| ASpace                      (* \s *)
| ASet (cs : list char).      (* [...] or one literal character *)

Inductive regex :=
| RAtom (a : atom)
| RStar (a : atom)            (* a*, greedy *)
| RPlus (a : atom)            (* a+, greedy *)
| ROpt (r : regex)            (* r?, greedy *)
| RSeq (r1 r2 : regex)
| RGroup (i : nat) (r : regex).   (* capturing group number i *)

Definition mem_char (c : char) (cs : list char) : bool :=
  existsb (Z.eqb c) cs.

(** A set compiled under [re.IGNORECASE]: every member is lower-cased and the
    equivalents of the lower-case form are added. *)
Definition fold_set (cs : list char) : list char :=
  flat_map (fun c =>
    let lo := sre_lower c in
    lo :: flat_map (fun p =>
            (if fst p =? lo then [snd p] else [])
            ++ (if snd p =? lo then [fst p] else [])) sre_equivalences) cs.

(** One character against one class; [ic] is the [re.IGNORECASE] flag. *)
Definition atom_match (ic : bool) (a : atom) (c : char) : bool :=
  match a with
  | ADigit => is_decimal c
  | ASpace => is_space c
  | ASet cs => if ic then mem_char (sre_lower c) (fold_set cs) else mem_char c cs
  end.

(** The captured groups of a match, most recent binding first. *)
Definition groups := list (nat * str).

Fixpoint group (g : groups) (i : nat) : option str :=
  match g with
  | [] => None
  | (j, x) :: g' => if Nat.eqb i j then Some x else group g' i
  end.

Section Matcher.
Variable ic : bool.
Context {A : Type}.

(** Greedy repetition of a class: take as many characters as possible and
    give them back one at a time while the rest of the pattern fails. The
    continuation receives the text consumed and the text that remains. *)
Fixpoint star_match (a : atom) (s : str) (k : str -> str -> option A)
  : option A :=
  match s with
  | c :: s' =>
      if atom_match ic a c then
        match star_match a s' (fun taken rest => k (c :: taken) rest) with
        | Some r => Some r
        | None => k [] s
        end
      else k [] s
  | [] => k [] []
  end.

(** Backtracking matcher in continuation-passing style: [k] is the rest of
    the pattern; the first alternative that lets [k] succeed wins. *)
Fixpoint rmatch (r : regex) (s : str) (g : groups)
    (k : str -> str -> groups -> option A) : option A :=
  match r with
  | RAtom a =>
      match s with
      | c :: s' => if atom_match ic a c then k [c] s' g else None
      | [] => None
      end
  | RStar a => star_match a s (fun taken rest => k taken rest g)
  | RPlus a =>
      match s with
      | c :: s' =>
          if atom_match ic a c
          then star_match a s' (fun taken rest => k (c :: taken) rest g)
          else None
      | [] => None
      end
  | ROpt r1 =>
      match rmatch r1 s g k with
      | Some x => Some x
      | None => k [] s g
      end
  | RSeq r1 r2 =>
      rmatch r1 s g (fun t1 s1 g1 =>
        rmatch r2 s1 g1 (fun t2 s2 g2 => k (t1 ++ t2) s2 g2))
  | RGroup i r1 =>
      rmatch r1 s g (fun t s' g' => k t s' ((i, t) :: g'))
  end.
End Matcher.

(** [pattern.match] at the start of [s]: the groups of the first match. *)
Definition match_here (ic : bool) (r : regex) (s : str) : option groups :=
  rmatch ic r s [] (fun _ _ g => Some g).

(** [re.search(r, s, flags)]: the leftmost start position that matches. *)
Fixpoint search (ic : bool) (r : regex) (s : str) : option groups :=
  match match_here ic r s with
  | Some g => Some g
  | None => match s with [] => None | _ :: s' => search ic r s' end
  end.

(** ** Floating point

    Python's [float] is IEEE 754 binary64; every operation rounds the exact
    result to nearest, ties to even. *)
Definition prec : Z := 53.
Definition emax : Z := 1024.
Definition float := spec_float.

Definition fadd : float -> float -> float := SFadd prec emax.
Definition fdiv : float -> float -> float := SFdiv prec emax.
Definition fneg : float -> float := SFopp.

(** The nearest float to the non-negative rational [n / d]. *)
Definition float_of_ratio (n : Z) (d : positive) : float :=
  match n with
  | Zpos p => SFdiv prec emax (S754_finite false p 0) (S754_finite false d 0)
  | _ => S754_zero false
  end.

(** An [int] operand of float arithmetic is converted to [float] first. *)
Definition float_of_int (n : Z) : float := binary_normalize prec emax n 0 false.

(** ** Exceptions *)
Inductive exn :=
| ValueError (msg : str)
| TypeError (msg : str)
| AttributeError (msg : str)
| UnicodeEncodeError (msg : str).

(** [str(e)] *)
Definition exn_text (e : exn) : str :=
  match e with
  | ValueError m | TypeError m | AttributeError m | UnicodeEncodeError m => m
  end.

Inductive res (A : Type) :=
| Ok (a : A)
| Raised (e : exn).
Arguments Ok {A} a.
Arguments Raised {A} e.

Definition bind {A B} (c : res A) (k : A -> res B) : res B :=
  match c with
  | Ok a => k a
  | Raised e => Raised e
  end.

Notation "x <- c ;; k" := (bind c (fun x => k))
  (at level 61, c at next level, right associativity).

(** ** [float(text)]

    Leading decimal digits of [s], accumulated in base ten: the value, the
    number of digits read and the text that is left. *)
Fixpoint read_digits (s : str) (acc : Z) (count : nat) : Z * nat * str :=
  match s with
  | c :: s' =>
      match decimal c with
      | Some d => read_digits s' (10 * acc + d) (S count)
      | None => (acc, count, s)
      end
  | [] => (acc, count, [])
  end.

(** [float(s)] on point-decimal text (digits, optionally a point and more
    digits): the nearest float to the number written. That is every text a
    numeric group of the patterns can hold; all other text is reported as not
    a number (Python also reads signs, exponents, blanks, [inf] and [nan]). *)
Definition py_float (s : str) : res float :=
  let bad := Raised (ValueError (u "could not convert string to float: " ++ s)) in
  let '(n, ni, rest) := read_digits s 0 0%nat in
  match rest with
  | [] => if Nat.eqb ni 0 then bad else Ok (float_of_ratio n 1)
  | c :: frac =>
      if c =? c_dot then
        let '(n', nf, rest') := read_digits frac n 0%nat in
        match rest' with
        | [] => if Nat.eqb (ni + nf) 0 then bad
                else Ok (float_of_ratio n' (Z.to_pos (10 ^ Z.of_nat nf)))
        | _ :: _ => bad
        end
      else bad
  end.

(** ** Values and output *)

(** The values a spreadsheet cell can hand to the parser. *)
Inductive pyval :=
| PyNone
| PyBool (b : bool)
| PyInt (n : Z)
| PyFloat (f : float)
| PyStr (s : str).

(** Truth value of an object, as [not] tests it. *)
Definition truthy (v : pyval) : bool :=
  match v with
  | PyNone => false
  | PyBool b => b
  | PyInt n => negb (n =? 0)
  | PyFloat (S754_zero _) => false
  | PyFloat _ => true
  | PyStr s => match s with [] => false | _ :: _ => true end
  end.

(** [isinstance(v, str)] *)
Definition isinstance_str (v : pyval) : bool :=
  match v with PyStr _ => true | _ => false end.

(** The returned 2-tuple: each component is a [float] or [None]. *)
Definition coords := (option float * option float)%type.

(** What a call does: it returns a value or lets an exception escape. *)
Inductive outcome :=
| Return (v : coords)
| Escapes (e : exn).

(** Standard output, [sys.stdout] as the program sees it. [refuses text] is
    the exception that [write(text)] raises, when it raises: the encoding of
    the stream cannot represent a character of the text, the stream is
    closed. [written] is the text written so far. *)
Record world := {
  refuses : str -> option exn;
  written : str
}.

(** The output after [text] was written. *)
Definition append_text (text : str) (w : world) : world :=
  {| refuses := refuses w; written := written w ++ text |}.

(** [sys.stdout.write(text)] *)
Definition write (text : str) (w : world) : res unit * world :=
  match refuses w text with
  | Some e => (Raised e, w)
  | None => (Ok tt, append_text text w)
  end.

(** [print(line)]: the text is written, then the line feed. *)
Definition print (line : str) (w : world) : res unit * world :=
  match write line w with
  | (Ok _, w') => write [10] w'
  | (Raised e, w') => (Raised e, w')
  end.

(** A standard output that takes every text, with nothing written yet. *)
Definition open_output : world := {| refuses := fun _ => None; written := [] |}.

(** *** An output with a strict encoder

    The encoder of the stream represents some characters and raises
    [UnicodeEncodeError] on the first stretch of characters that it cannot
    represent. *)
Definition hex_digit (d : Z) : char := if d <? 10 then 48 + d else 87 + d.

(** The last [width] hexadecimal digits of [n], in lower case. *)
Fixpoint hex_text (width : nat) (n : Z) : str :=
  match width with
  | O => []
  | S k => hex_text k (n / 16) ++ [hex_digit (n mod 16)]
  end.

Definition decimal_text (n : nat) : str := u (NilZero.string_of_uint (Nat.to_uint n)).

(** How many characters at the start of the text satisfy [P]. *)
Fixpoint run_length (P : char -> bool) (text : str) : nat :=
  match text with
  | c :: rest => if P c then S (run_length P rest) else O
  | [] => O
  end.

(** The first stretch of the text that cannot be encoded: where it starts,
    its first character and its length. *)
Fixpoint unencodable (encodes : char -> bool) (text : str) (pos : nat)
  : option (nat * char * nat) :=
  match text with
  | [] => None
  | c :: rest =>
      if encodes c then unencodable encodes rest (S pos)
      else Some (pos, c, S (run_length (fun x => negb (encodes x)) rest))
  end.

(** [str(e)] of the [UnicodeEncodeError] that the codec [name] raises. *)
Definition encode_error_text (name reason : str) (pos : nat) (c : char) (len : nat) : str :=
  u "'" ++ name ++ u "' codec can't encode " ++
  (if Nat.eqb len 1 then
     u "character '" ++ [92] ++
     (if c <=? 0xff then [120] ++ hex_text 2 c
      else if c <=? 0xffff then [117] ++ hex_text 4 c
      else [85] ++ hex_text 8 c) ++
     u "' in position " ++ decimal_text pos
   else
     u "characters in position " ++ decimal_text pos ++ u "-" ++
     decimal_text (pos + len - 1)) ++
  u ": " ++ reason.

Definition strict_output (name reason : str) (encodes : char -> bool) : world :=
  {| refuses := fun text =>
       match unencodable encodes text 0 with
       | Some (pos, c, len) =>
           Some (UnicodeEncodeError (encode_error_text name reason pos c len))
       | None => None
       end;
     written := [] |}.

(** Standard output encoded as UTF-8, the default: every character but the
    surrogates U+D800 to U+DFFF. *)
Definition utf8_output : world :=
  strict_output (u "utf-8") (u "surrogates not allowed")
                (fun c => negb ((0xD800 <=? c) && (c <=? 0xDFFF))).

(** ** The patterns

    In the comments below [\x22] stands for the ASCII double quote. *)

Declare Scope regex_scope.
Delimit Scope regex_scope with re.
Infix "+++" := RSeq (at level 60, right associativity) : regex_scope.

Definition degree_mark := RAtom (ASet [c_degree; c_ordinal]).     (* [°º] *)
Definition minute_mark := RAtom (ASet [c_squote; c_prime]).       (* [\'′] *)
Definition second_mark := RAtom (ASet [c_dquote; c_dprime]).      (* [\x22″] *)
Definition NSEW := ASet [78; 83; 69; 87].                         (* [NSEW] *)
Definition NS := ASet [78; 83].                                   (* [NS] *)
Definition EW := ASet [69; 87].                                   (* [EW] *)
Definition digits := RPlus ADigit.                                (* \d+ *)
Definition seconds :=                                             (* \d+(?:\.\d+)? *)
  (digits +++ ROpt (RAtom (ASet [c_dot]) +++ digits))%re.
Definition blanks := RStar ASpace.                                (* \s* *)

(** (\d+)[°º]\s*(\d+)[\'′]\s*(\d+(?:\.\d+)?)[\x22″]?\s*([NSEW]),\s*
    (\d+)[°º]\s*(\d+)[\'′]\s*(\d+(?:\.\d+)?)[\x22″]?\s*([NSEW]) *)
Definition pattern_comma : regex :=
  (RGroup 1 digits +++ degree_mark +++ blanks +++
   RGroup 2 digits +++ minute_mark +++ blanks +++
   RGroup 3 seconds +++ ROpt second_mark +++ blanks +++
   RGroup 4 (RAtom NSEW) +++ RAtom (ASet [c_comma]) +++ blanks +++
   RGroup 5 digits +++ degree_mark +++ blanks +++
   RGroup 6 digits +++ minute_mark +++ blanks +++
   RGroup 7 seconds +++ ROpt second_mark +++ blanks +++
   RGroup 8 (RAtom NSEW))%re.

(** (\d+)[°º]\s*(\d+)[\'′]\s*(\d+(?:\.\d+)?)[\x22″]?\s*([NSEW])\s+
    (\d+)[°º]\s*(\d+)[\'′]\s*(\d+(?:\.\d+)?)[\x22″]?\s*([NSEW]) *)
Definition pattern_space : regex :=
  (RGroup 1 digits +++ degree_mark +++ blanks +++
   RGroup 2 digits +++ minute_mark +++ blanks +++
   RGroup 3 seconds +++ ROpt second_mark +++ blanks +++
   RGroup 4 (RAtom NSEW) +++ RPlus ASpace +++
   RGroup 5 digits +++ degree_mark +++ blanks +++
   RGroup 6 digits +++ minute_mark +++ blanks +++
   RGroup 7 seconds +++ ROpt second_mark +++ blanks +++
   RGroup 8 (RAtom NSEW))%re.

Definition patterns : list regex := [pattern_comma; pattern_space].

(** (\d+)[°º](\d+)[\'′](\d+)[\x22″]?([NS])\s+(\d+)[°º](\d+)[\'′](\d+)[\x22″]?([EW]) *)
Definition simplified_pattern : regex :=
  (RGroup 1 digits +++ degree_mark +++
   RGroup 2 digits +++ minute_mark +++
   RGroup 3 digits +++ ROpt second_mark +++
   RGroup 4 (RAtom NS) +++ RPlus ASpace +++
   RGroup 5 digits +++ degree_mark +++
   RGroup 6 digits +++ minute_mark +++
   RGroup 7 digits +++ ROpt second_mark +++
   RGroup 8 (RAtom EW))%re.

(** The text of the special case, line 51. *)
Definition special_case : str :=
  u "33° 46' 36" ++ [c_dquote] ++ u " N, 118° 17' 0" ++ [c_dquote] ++ u " W".

(** ** [parse_coordinates] *)

(** [float(match.group(i))] *)
Definition float_group (m : groups) (i : nat) : res float :=
  match group m i with
  | Some x => py_float x
  | None => Raised (TypeError (u "float() argument must be a string or a real number, not 'NoneType'"))
  end.

(** [match.group(i).upper()] *)
Definition upper_group (m : groups) (i : nat) : res str :=
  match group m i with
  | Some x => Ok (py_upper x)
  | None => Raised (AttributeError (u "'NoneType' object has no attribute 'upper'"))
  end.

(** Lines 29-48 and again 58-76: the eight groups to signed decimal degrees. *)
Definition to_decimal_degrees (m : groups) : res coords :=
  lat_deg <- float_group m 1 ;;
  lat_min0 <- float_group m 2 ;;
  let lat_min := fdiv lat_min0 (float_of_int 60) in
  lat_sec0 <- float_group m 3 ;;
  let lat_sec := fdiv lat_sec0 (float_of_int 3600) in
  lat_dir <- upper_group m 4 ;;
  lon_deg <- float_group m 5 ;;
  lon_min0 <- float_group m 6 ;;
  let lon_min := fdiv lon_min0 (float_of_int 60) in
  lon_sec0 <- float_group m 7 ;;
  let lon_sec := fdiv lon_sec0 (float_of_int 3600) in
  lon_dir <- upper_group m 8 ;;
  let latitude := fadd (fadd lat_deg lat_min) lat_sec in
  let latitude := if str_eqb lat_dir [83] then fneg latitude else latitude in
  let longitude := fadd (fadd lon_deg lon_min) lon_sec in
  let longitude := if str_eqb lon_dir [87] then fneg longitude else longitude in
  Ok (Some latitude, Some longitude).

(** The loop of lines 25-48: [Some] when a pattern matched and the function
    returned from inside the loop, [None] when the loop ran to its end. *)
Fixpoint try_patterns (ps : list regex) (cleaned_str : str) : res (option coords) :=
  match ps with
  | [] => Ok None
  | pattern :: ps' =>
      match search true pattern cleaned_str with
      | Some m => v <- to_decimal_degrees m ;; Ok (Some v)
      | None => try_patterns ps' cleaned_str
      end
  end.

(** The body of the [try] statement, lines 13-79. *)
Definition try_body (coord_str : str) (w : world) : res coords * world :=
  let cleaned_str := strip coord_str in
  match try_patterns patterns cleaned_str with
  | Raised e => (Raised e, w)
  | Ok (Some v) => (Ok v, w)
  | Ok None =>
      if contains special_case cleaned_str then
        (Ok (Some (float_of_ratio 3377 100),
             Some (fneg (float_of_ratio 118283333 1000000))), w)
      else
        match search true simplified_pattern cleaned_str with
        | Some m => (to_decimal_degrees m, w)
        | None =>
            match print (u "Could not parse coordinates: " ++ coord_str) w with
            | (Ok _, w') => (Ok (None, None), w')
            | (Raised e, w') => (Raised e, w')
            end
        end
  end.

(** Lines 80-82: the handler prints and returns the absent pair; an
    exception that its own [print] raises leaves the function. *)
Definition handler (coord_str : str) (e : exn) (w : world) : outcome * world :=
  match print (u "Error processing coordinates: " ++ coord_str ++ u " - " ++ exn_text e) w with
  | (Ok _, w') => (Return (None, None), w')
  | (Raised e', w') => (Escapes e', w')
  end.

Definition parse_coordinates (coord_str : pyval) (w : world) : outcome * world :=
  if negb (truthy coord_str) || negb (isinstance_str coord_str) then
    (Return (None, None), w)
  else
    match coord_str with
    | PyStr s =>
        match try_body s w with
        | (Ok v, w') => (Return v, w')
        | (Raised e, w') => handler s e w'
        end
    | _ => (Return (None, None), w)
    end.

(** The outcome of a call on a standard output that takes every text. On
    any other output the call has this outcome or lets an exception of
    [print] escape (lemma [parse_coordinates_value]). *)
Definition result_of (coord_str : pyval) : outcome :=
  fst (parse_coordinates coord_str open_output).

(** ** The parser of grammars (1) and (2) alone

    The spec's reduced reading: only the comma-separated and the
    space-separated pattern are tried; text that neither matches is reported
    and the absent pair returned. *)
Definition try_body_reduced (coord_str : str) (w : world) : res coords * world :=
  let cleaned_str := strip coord_str in
  match try_patterns patterns cleaned_str with
  | Raised e => (Raised e, w)
  | Ok (Some v) => (Ok v, w)
  | Ok None =>
      match print (u "Could not parse coordinates: " ++ coord_str) w with
      | (Ok _, w') => (Ok (None, None), w')
      | (Raised e, w') => (Raised e, w')
      end
  end.

Definition parse_coordinates_reduced (coord_str : pyval) (w : world) : outcome * world :=
  if negb (truthy coord_str) || negb (isinstance_str coord_str) then
    (Return (None, None), w)
  else
    match coord_str with
    | PyStr s =>
        match try_body_reduced s w with
        | (Ok v, w') => (Return v, w')
        | (Raised e, w') => handler s e w'
        end
    | _ => (Return (None, None), w)
    end.

(** ** What a pattern can match

    [accepts ic r s rest]: the pattern [r] matches a prefix of [s] and leaves
    [rest], whatever the order in which the matcher tries the alternatives. *)
Fixpoint accepts (ic : bool) (r : regex) (s rest : str) : Prop :=
  match r with
  | RAtom a => exists c, s = c :: rest /\ atom_match ic a c = true
  | RStar a => exists t, s = t ++ rest /\ forallb (atom_match ic a) t = true
  | RPlus a =>
      exists c t, s = c :: t ++ rest /\ atom_match ic a c = true
                  /\ forallb (atom_match ic a) t = true
  | ROpt r1 => s = rest \/ accepts ic r1 s rest
  | RSeq r1 r2 => exists mid, accepts ic r1 s mid /\ accepts ic r2 mid rest
  | RGroup _ r1 => accepts ic r1 s rest
  end.

(** ** Rewriting the input text *)

(** The typographic variant of an ASCII unit mark: the degree sign becomes the
    ordinal indicator, the apostrophe the prime, the double quote the double
    prime. *)
Definition typographic (c : char) : char :=
  if c =? c_degree then c_ordinal
  else if c =? c_squote then c_prime
  else if c =? c_dquote then c_dprime
  else c.

(** The opposite-case variant of a hemisphere letter. *)
Definition opposite_case (c : char) : char :=
  if mem_char c [78; 83; 69; 87] then c + 32
  else if mem_char c [110; 115; 101; 119] then c - 32
  else c.

(** Apply [f] at the positions that [mask] selects. *)
Fixpoint substitute (f : char -> char) (mask : list bool) (s : str) : str :=
  match s, mask with
  | c :: s', b :: mask' => (if b then f c else c) :: substitute f mask' s'
  | _, _ => s
  end.

(** Relations lifted to optional values and to results. *)
Definition option_rel {A B} (P : A -> B -> Prop) (x : option A) (y : option B) : Prop :=
  match x, y with
  | Some a, Some b => P a b
  | None, None => True
  | _, _ => False
  end.

Definition res_rel {A B} (P : A -> B -> Prop) (x : res A) (y : res B) : Prop :=
  match x, y with
  | Ok a, Ok b => P a b
  | Raised _, Raised _ => True
  | _, _ => False
  end.

(** A character class, and every class of a pattern, cannot tell related
    characters apart. *)
Definition atom_respects (R : char -> char -> Prop) (a : atom) : Prop :=
  forall c c', R c c' -> atom_match true a c = atom_match true a c'.

Fixpoint regex_respects (R : char -> char -> Prop) (r : regex) : Prop :=
  match r with
  | RAtom a | RStar a | RPlus a => atom_respects R a
  | ROpt r1 | RGroup _ r1 => regex_respects R r1
  | RSeq r1 r2 => regex_respects R r1 /\ regex_respects R r2
  end.

Definition groups_rel (R : char -> char -> Prop) : groups -> groups -> Prop :=
  Forall2 (fun p q => fst p = fst q /\ Forall2 R (snd p) (snd q)).

(** The character classes that occur in a pattern. *)
Fixpoint atoms_of (r : regex) : list atom :=
  match r with
  | RAtom a | RStar a | RPlus a => [a]
  | ROpt r1 | RGroup _ r1 => atoms_of r1
  | RSeq r1 r2 => atoms_of r1 ++ atoms_of r2
  end.

Definition same_decimal (c c' : char) : bool :=
  match decimal c, decimal c' with
  | Some d, Some d' => d =? d'
  | None, None => true
  | _, _ => false
  end.

(** Two characters that the parser treats alike: the same digit value, both
    blank or neither, both the decimal point or neither, both an [S] (a [W])
    after upper-casing or neither, and members of the same classes of the
    patterns. *)
Definition same_class (c c' : char) : bool :=
  same_decimal c c'
  && Bool.eqb (is_space c) (is_space c')
  && Bool.eqb (c =? c_dot) (c' =? c_dot)
  && Bool.eqb (upper_char c =? 83) (upper_char c' =? 83)
  && Bool.eqb (upper_char c =? 87) (upper_char c' =? 87)
  && forallb (fun a => Bool.eqb (atom_match true a c) (atom_match true a c'))
       (flat_map atoms_of patterns).

Definition alike (c c' : char) : Prop := same_class c c' = true.

(** ** Reading the results *)

(** The rational number a finite float stands for (0 for the others). *)
Definition F2Q (f : float) : Q :=
  match f with
  | S754_finite s m e =>
      (if s then -1 else 1) * inject_Z (Zpos m) * Qpower 2 e
  | _ => 0
  end%Q.

(** Both components present, or both absent. A call that an exception
    leaves returns no pair. *)
Definition both_or_neither (o : outcome) : Prop :=
  match o with
  | Return (Some _, Some _) | Return (None, None) => True
  | Return _ => False
  | Escapes _ => True
  end.

(** Two calls return the same value: the outcomes are equal, or the value is
    the absent pair and one call or both did not return because its [print]
    raised. *)
Definition agrees (o o' : outcome) : Prop :=
  match o, o' with
  | Return v, Return v' => v = v'
  | Return (None, None), Escapes _ | Escapes _, Return (None, None) => True
  | Escapes _, Escapes _ => True
  | _, _ => False
  end.

(** The could-not-parse text of line 78, and whether [print] succeeds on a
    text. *)
Definition no_match_text (coord_str : str) : str :=
  u "Could not parse coordinates: " ++ coord_str.

Definition prints (w : world) (text : str) : bool :=
  match refuses w text, refuses w [10] with
  | None, None => true
  | _, _ => false
  end.

(** The output after [text] and a line feed were written. *)
Definition printed (text : str) (w : world) : world := append_text (text ++ [10]) w.

(** Lines 78-82 for a text in which no pattern matched: the could-not-parse
    text is printed and the absent pair returned; when that [print] raises,
    the handler runs. *)
Definition no_match (coord_str : str) (w : world) : outcome * world :=
  match print (no_match_text coord_str) w with
  | (Ok _, w') => (Return (None, None), w')
  | (Raised e, w') => handler coord_str e w'
  end.

(** The standard output after earlier calls of the parser, one for each of
    the inputs, whether they returned or raised. *)
Definition after_calls (inputs : list pyval) (w : world) : world :=
  fold_left (fun w' v => snd (parse_coordinates v w')) inputs w.

(** No grammar of the parser applies to the cleaned text. *)
Definition matches_no_grammar (cleaned_str : str) : bool :=
  match search true pattern_comma cleaned_str,
        search true pattern_space cleaned_str,
        search true simplified_pattern cleaned_str with
  | None, None, None => negb (contains special_case cleaned_str)
  | _, _, _ => false
  end.

(** Sample inputs of the spec. *)
Definition sample_space_upper : str :=
  u "40°50'55" ++ [c_dquote] ++ u "N 84°04'51" ++ [c_dquote] ++ u "W".
Definition sample_space_lower : str :=
  u "40°50'55" ++ [c_dquote] ++ u "n 84°04'51" ++ [c_dquote] ++ u "w".
Definition sample_south_west_lower : str :=
  u "40°50'55" ++ [c_dquote] ++ u "s 84°04'51" ++ [c_dquote] ++ u "w".
Definition sample_east_north : str :=
  u "51° 30' 26" ++ [c_dquote] ++ u " E, 0° 7' 39" ++ [c_dquote] ++ u " N".
Definition sample_garbage : str := u "not a coordinate".

(** ** Well-formed pair texts

    One degrees-minutes-seconds group as it is written: the numerals, the
    unit marks, the blanks between them and the hemisphere letter. *)
Record dms_text := {
  dt_degrees : str;
  dt_degree_mark : char;
  dt_gap1 : str;
  dt_minutes : str;
  dt_minute_mark : char;
  dt_gap2 : str;
  dt_seconds : str;                  (* whole seconds *)
  dt_fraction : option str;          (* digits after the point, if any *)
  dt_second_mark : option char;      (* the second mark may be left out *)
  dt_gap3 : str;
  dt_hemisphere : char
}.

Definition fraction_text (d : dms_text) : str :=
  match dt_fraction d with Some f => c_dot :: f | None => [] end.

Definition second_mark_text (d : dms_text) : str :=
  match dt_second_mark d with Some q => [q] | None => [] end.

(** The group written out, followed by [rest]. *)
Definition render (d : dms_text) (rest : str) : str :=
  dt_degrees d ++ dt_degree_mark d :: dt_gap1 d ++
  dt_minutes d ++ dt_minute_mark d :: dt_gap2 d ++
  dt_seconds d ++ fraction_text d ++ second_mark_text d ++ dt_gap3 d ++
  dt_hemisphere d :: rest.

(** [D1 M1 S1 H1, D2 M2 S2 H2] and [D1 M1 S1 H1 D2 M2 S2 H2] *)
Definition comma_pair (a : dms_text) (gap : str) (b : dms_text) : str :=
  render a (c_comma :: gap ++ render b []).
Definition space_pair (a : dms_text) (gap : str) (b : dms_text) : str :=
  render a (gap ++ render b []).

(** An unsigned numeral: one or more decimal digits. *)
Definition is_numeral (x : str) : bool :=
  match x with [] => false | _ :: _ => forallb is_decimal x end.

Definition all_blank (x : str) : bool := forallb is_space x.

(** The letters N, S, E, W in either case. *)
Definition hemisphere_letters : list char := [78; 83; 69; 87; 110; 115; 101; 119].

Definition well_formed (d : dms_text) : bool :=
  is_numeral (dt_degrees d)
  && mem_char (dt_degree_mark d) [c_degree; c_ordinal]
  && all_blank (dt_gap1 d)
  && is_numeral (dt_minutes d)
  && mem_char (dt_minute_mark d) [c_squote; c_prime]
  && all_blank (dt_gap2 d)
  && is_numeral (dt_seconds d)
  && match dt_fraction d with Some f => is_numeral f | None => true end
  && match dt_second_mark d with
     | Some q => mem_char q [c_dquote; c_dprime]
     | None => true
     end
  && all_blank (dt_gap3 d)
  && mem_char (dt_hemisphere d) hemisphere_letters.

(** The number a run of digits denotes, continuing from [acc]. *)
Definition digits_value (acc : Z) (x : str) : Z :=
  fold_left (fun n c => 10 * n + match decimal c with Some d => d | None => 0 end) x acc.

(** The exact quantities of a group. *)
Definition degrees_of (d : dms_text) : Z := digits_value 0 (dt_degrees d).
Definition minutes_of (d : dms_text) : Z := digits_value 0 (dt_minutes d).
Definition seconds_num (d : dms_text) : Z :=
  match dt_fraction d with
  | Some f => digits_value (digits_value 0 (dt_seconds d)) f
  | None => digits_value 0 (dt_seconds d)
  end.
Definition seconds_den (d : dms_text) : positive :=
  match dt_fraction d with
  | Some f => Z.to_pos (10 ^ Z.of_nat (List.length f))
  | None => 1%positive
  end.
Definition seconds_of (d : dms_text) : Q := seconds_num d # seconds_den d.

(** degrees + minutes/60 + seconds/3600, exactly *)
Definition decimal_degrees (d : dms_text) : Q :=
  (inject_Z (degrees_of d) + inject_Z (minutes_of d) / 60 + seconds_of d / 3600)%Q.

(** -1 when the letter upper-cases to [negative], +1 otherwise. *)
Definition sign_of (negative : char) (d : dms_text) : Q :=
  if upper_char (dt_hemisphere d) =? negative then (-1)%Q else 1%Q.

(** The same quantities as the program computes them. *)
Definition dms_float (d : dms_text) : float :=
  fadd (fadd (float_of_ratio (degrees_of d) 1)
             (fdiv (float_of_ratio (minutes_of d) 1) (float_of_int 60)))
       (fdiv (float_of_ratio (seconds_num d) (seconds_den d)) (float_of_int 3600)).

Definition signed_float (negative : char) (d : dms_text) : float :=
  if upper_char (dt_hemisphere d) =? negative then fneg (dms_float d) else dms_float d.

(** The groups a match of either pattern on a pair captures. *)
Definition pair_groups (a b : dms_text) : groups :=
  [ (8%nat, [dt_hemisphere b]); (7%nat, dt_seconds b ++ fraction_text b);
    (6%nat, dt_minutes b); (5%nat, dt_degrees b);
    (4%nat, [dt_hemisphere a]); (3%nat, dt_seconds a ++ fraction_text a);
    (2%nat, dt_minutes a); (1%nat, dt_degrees a) ].

(** The text goes on with a character outside the class, or ends. *)
Definition stops (a : atom) (s : str) : bool :=
  match s with
  | c :: _ => negb (atom_match true a c)
  | [] => true
  end.

(** Every decimal digit, every blank. *)
Definition all_decimals : list char :=
  flat_map (fun r => map (Z.add r) [0; 1; 2; 3; 4; 5; 6; 7; 8; 9]) decimal_runs.

Definition all_spaces : list char :=
  [ 0x09; 0x0A; 0x0B; 0x0C; 0x0D; 0x1C; 0x1D; 0x1E; 0x1F; 0x20; 0x85; 0xA0;
    0x1680; 0x2000; 0x2001; 0x2002; 0x2003; 0x2004; 0x2005; 0x2006; 0x2007;
    0x2008; 0x2009; 0x200A; 0x2028; 0x2029; 0x202F; 0x205F; 0x3000 ].

(** ** The rounding-error model *)

Definition pow2 (e : Z) : Q := Qpower 2 e.

(** Relative and absolute error units: 2^-52 and the smallest subnormal. *)
Definition u_rel : Q := 1 # 4503599627370496.
Definition eta : Q := pow2 (-1074).

(** A float that is zero or positive and finite. *)
Definition nonneg_finite (f : float) : Prop :=
  match f with
  | S754_zero false | S754_finite false _ _ => True
  | _ => False
  end.

(** [f] is the float computed for the exact non-negative quantity [x]. *)
Definition approximates (x : Q) (f : float) : Prop :=
  nonneg_finite f /\ (Qabs (F2Q f - x) <= 8 * (u_rel * x + eta))%Q.

(** The magnitudes for which the tolerance is established: degrees, minutes
    and seconds of at most 10^8. *)
Definition magnitude_limit : Z := 100000000.

Definition within_limit (d : dms_text) : bool :=
  (degrees_of d <=? magnitude_limit)%Z
  && (minutes_of d <=? magnitude_limit)%Z
  && (seconds_num d <=? magnitude_limit * Zpos (seconds_den d))%Z.

Definition tolerance : Q := 1 # 1000000.

(** The call on the comma-separated pair returns two numbers, each within
    the tolerance of the signed conversion formula. *)
Definition meets_formula (a : dms_text) (gap : str) (b : dms_text) : Prop :=
  exists lat lon,
    result_of (PyStr (comma_pair a gap b)) = Return (Some lat, Some lon) /\
    (Qabs (F2Q lat - sign_of 83%Z a * decimal_degrees a) <= tolerance)%Q /\
    (Qabs (F2Q lon - sign_of 87%Z b * decimal_degrees b) <= tolerance)%Q.

(** Sample groups. *)
Definition dms_sample (d m s : string) (h : char) : dms_text :=
  {| dt_degrees := u d; dt_degree_mark := c_degree; dt_gap1 := [32];
     dt_minutes := u m; dt_minute_mark := c_squote; dt_gap2 := [32];
     dt_seconds := u s; dt_fraction := None; dt_second_mark := Some c_dquote;
     dt_gap3 := [32]; dt_hemisphere := h |}.

Definition sample_huge_north : dms_text := dms_sample "100000000000000001" "0" "0" 78.
Definition sample_zero_east : dms_text := dms_sample "0" "0" "0" 69.
Definition sample_richmond_north : dms_text := dms_sample "37" "18" "3" 78.
Definition sample_richmond_west : dms_text := dms_sample "77" "16" "14" 87.
Definition sample_london_east : dms_text := dms_sample "51" "30" "26" 69.
Definition sample_london_north : dms_text := dms_sample "0" "7" "39" 78.

(** ** Comparing two patterns at one start position

    [transfers T T']: whenever the matcher succeeds with [T] at the start of a
    text it succeeds with [T'] there, with the same captured groups.
    [blocked a T]: [T] cannot match a text that begins with a character of
    class [a]; [not_empty T]: [T] does not match at the end of the text. *)
Definition found : str -> str -> groups -> option groups := fun _ _ g => Some g.

Definition transfers (T T' : regex) : Prop :=
  forall s g v, rmatch true T s g found = Some v -> rmatch true T' s g found = Some v.

Definition blocked (a : atom) (T : regex) : Prop :=
  forall c s g, atom_match true a c = true -> rmatch true T (c :: s) g found = None.

Definition not_empty (T : regex) : Prop :=
  forall g, rmatch true T [] g found = None.

(** ** What a match captures

    [captures ic r t g g']: the pattern [r] can consume exactly the text [t],
    turning the groups [g] into [g']. *)
Fixpoint captures (ic : bool) (r : regex) (t : str) (g g' : groups) : Prop :=
  match r with
  | RAtom a => (exists c, t = [c] /\ atom_match ic a c = true) /\ g' = g
  | RStar a => forallb (atom_match ic a) t = true /\ g' = g
  | RPlus a => t <> [] /\ forallb (atom_match ic a) t = true /\ g' = g
  | ROpt r1 => (t = [] /\ g' = g) \/ captures ic r1 t g g'
  | RSeq r1 r2 =>
      exists t1 t2 g1,
        t = t1 ++ t2 /\ captures ic r1 t1 g g1 /\ captures ic r2 t2 g1 g'
  | RGroup i r1 => exists g1, captures ic r1 t g g1 /\ g' = (i, t) :: g1
  end.

(** A pattern without capturing groups. *)
Fixpoint no_group (r : regex) : bool :=
  match r with
  | RAtom _ | RStar _ | RPlus _ => true
  | ROpt r1 => no_group r1
  | RSeq r1 r2 => no_group r1 && no_group r2
  | RGroup _ _ => false
  end.

(** The class of the first character a pattern must consume, and of the last
    one, where the pattern fixes them. *)
Fixpoint first_atom (r : regex) : option atom :=
  match r with
  | RAtom a | RPlus a => Some a
  | RSeq r1 _ | RGroup _ r1 => first_atom r1
  | RStar _ | ROpt _ => None
  end.

Fixpoint last_atom (r : regex) : option atom :=
  match r with
  | RAtom a | RPlus a => Some a
  | RSeq _ r1 | RGroup _ r1 => last_atom r1
  | RStar _ | ROpt _ => None
  end.

(** The text of a seconds group: a numeral, or a numeral, a point and a
    numeral. *)
Definition seconds_text (s : str) : Prop :=
  exists x, is_numeral x = true
            /\ (s = x \/ exists f, is_numeral f = true /\ s = x ++ c_dot :: f).

(** The eight groups of a match of one of the three patterns. *)
Definition dms_groups (m : groups) : Prop :=
  exists d1 m1 s1 h1 d2 m2 s2 h2,
    m = [(8%nat, [h2]); (7%nat, s2); (6%nat, m2); (5%nat, d2);
         (4%nat, [h1]); (3%nat, s1); (2%nat, m1); (1%nat, d1)]
    /\ is_numeral d1 = true /\ is_numeral m1 = true /\ seconds_text s1
    /\ is_numeral d2 = true /\ is_numeral m2 = true /\ seconds_text s2.

(** Trailing blanks removed, the second half of [strip]. *)
Definition rstrip (s : str) : str := rev (lstrip (rev s)).

(** No character of the text is a decimal digit. *)
Definition digit_free (x : str) : bool := forallb (fun c => negb (is_decimal c)) x.

(** One of the two patterns of the loop matches somewhere in the text. *)
Definition parses (cleaned_str : str) : Prop :=
  exists p, In p patterns /\ search true p cleaned_str <> None.

(** ** [process_data_file]: the column lookup and the coordinate loop

    Lines 119-127 and 139-149. The labels of the columns are taken in the
    order of the table; a label is any scalar (a header cell of a sheet can
    hold a number). The loop runs over the cells of the coordinates column,
    one per row; a cell that is missing is [None] or a NaN. *)

(** [pd.notna(cell)] on a scalar. *)
Definition notna (v : pyval) : bool :=
  match v with
  | PyNone => false
  | PyFloat S754_nan => false
  | _ => true
  end.

(** [type(v).__name__] *)
Definition type_name (v : pyval) : str :=
  match v with
  | PyNone => u "NoneType"
  | PyBool _ => u "bool"
  | PyInt _ => u "int"
  | PyFloat _ => u "float"
  | PyStr _ => u "str"
  end.

(** [x in xs] for a text and a list of texts. *)
Definition mem_str (x : str) (xs : list str) : bool := existsb (str_eqb x) xs.

(** The roles a column can play and the lower-case labels of each, lines
    119-127. *)
Inductive role :=
| Company | Coordinates | PlantType | Address | City | State | Country
| GasSource | Capacity.

Definition synonyms (r : role) : list str :=
  match r with
  | Company => [u "owner"; u "company"; u "producer"]
  | Coordinates => [u "coordinates"; u "coords"; u "location"]
  | PlantType => [u "type of plant"; u "plant type"; u "planttype"]
  | Address => [u "address"; u "addr"]
  | City => [u "city"; u "town"]
  | State => [u "state"; u "province"]
  | Country => [u "country"; u "nation"]
  | GasSource => [u "gas source"; u "gas_source"; u "source"]
  | Capacity => [u "plant capacity"; u "capacity"]
  end.

(** The nine variables of lines 119-127. *)
Record key_columns := {
  company_col : option str;
  coords_col : option str;
  planttype_col : option str;
  address_col : option str;
  city_col : option str;
  state_col : option str;
  country_col : option str;
  gassource_col : option str;
  capacity_col : option str
}.

Definition column_of (k : key_columns) (r : role) : option str :=
  match r with
  | Company => company_col k
  | Coordinates => coords_col k
  | PlantType => planttype_col k
  | Address => address_col k
  | City => city_col k
  | State => state_col k
  | Country => country_col k
  | GasSource => gassource_col k
  | Capacity => capacity_col k
  end.

(** [not col] for a looked-up label: [None] and the empty text are false. *)
Definition present (col : option str) : bool :=
  match col with
  | Some s => truthy (PyStr s)
  | None => false
  end.

(** The loop of lines 142-149 over the cells [row[coords_col]], with the two
    lists it appends to. *)
Fixpoint coordinate_loop (coords_col : option str) (cells : list pyval)
    (latitudes longitudes : list (option float)) (w : world)
  : res (list (option float) * list (option float)) * world :=
  match cells with
  | [] => (Ok (latitudes, longitudes), w)
  | cell :: rest =>
      if present coords_col && notna cell then
        match parse_coordinates cell w with
        | (Return (lat, lon), w') =>
            coordinate_loop coords_col rest (latitudes ++ [lat]) (longitudes ++ [lon]) w'
        | (Escapes e, w') => (Raised e, w')
        end
      else
        coordinate_loop coords_col rest (latitudes ++ [None]) (longitudes ++ [None]) w
  end.

(** What [col.lower()] raises on a label that is not text. *)
Definition no_lower (col : pyval) : exn :=
  AttributeError (u "'" ++ type_name col ++ u "' object has no attribute 'lower'").

Section Columns.

(** [str.lower()], the Unicode lower-casing of a text. *)
Variable py_lower : str -> str.

(** The label does not lower-case to one of the names. *)
Definition misses (names : list str) (x : str) : bool :=
  negb (mem_str (py_lower x) names).

(** [next((col for col in columns if col.lower() in names), None)] *)
Fixpoint find_column (names : list str) (columns : list pyval) : res (option str) :=
  match columns with
  | [] => Ok None
  | PyStr s :: rest =>
      if mem_str (py_lower s) names then Ok (Some s) else find_column names rest
  | col :: _ => Raised (no_lower col)
  end.

(** Lines 119-127. *)
Definition find_key_columns (columns : list pyval) : res key_columns :=
  company <- find_column (synonyms Company) columns ;;
  coords <- find_column (synonyms Coordinates) columns ;;
  planttype <- find_column (synonyms PlantType) columns ;;
  address <- find_column (synonyms Address) columns ;;
  city <- find_column (synonyms City) columns ;;
  state <- find_column (synonyms State) columns ;;
  country <- find_column (synonyms Country) columns ;;
  gassource <- find_column (synonyms GasSource) columns ;;
  capacity <- find_column (synonyms Capacity) columns ;;
  Ok {| company_col := company; coords_col := coords; planttype_col := planttype;
        address_col := address; city_col := city; state_col := state;
        country_col := country; gassource_col := gassource;
        capacity_col := capacity |}.

End Columns.

(** The pair that one cell of the coordinates column contributes. *)
Definition cell_pair (cell : pyval) : coords :=
  if notna cell then
    match result_of cell with
    | Return v => v
    | Escapes _ => (None, None)
    end
  else (None, None).

(** The texts among the cells that are not empty and hold no pair. *)
Definition unparsed (cells : list pyval) : list str :=
  flat_map (fun cell =>
    match cell with
    | PyStr (c :: s) =>
        match result_of cell with
        | Return (Some _, Some _) => []
        | _ => [c :: s]
        end
    | _ => []
    end) cells.

(** Cells of a coordinates column: a pair, a missing cell, other text. *)
Definition sample_cells : list pyval :=
  [PyStr sample_space_upper; PyNone; PyStr sample_garbage].

(** A lower-casing of the ASCII letters, character by character. *)
Definition ascii_lower (s : str) : str := map sre_lower s.

(** ** The script of the page that [create_html_map] writes

    Lines 424-567 of the template: [createMarker] and [addAllMarkers]. A
    producer is one object of [producerData] as [process_data_file] builds
    it: every field is text, but [latitude] and [longitude], which are a
    number or [null]. Text is the sequence of its code units. The calls
    into the map library are taken to succeed; the popup that is bound to a
    marker is left out. *)
Record producer := {
  company : str;
  address : str;
  city : str;
  state : str;
  country : str;
  coordinates : str;
  latitude : option float;
  longitude : option float;
  plantType : str;
  gasSource : str;
  capacity : str
}.

(** [!x] for a number or [null]: true for [null], zero and NaN. *)
Definition js_not (x : option float) : bool :=
  match x with
  | None => true
  | Some (S754_zero _) => true
  | Some S754_nan => true
  | Some _ => false
  end.

(** [isNaN(x)] for a number or [null]. *)
Definition js_isNaN (x : option float) : bool :=
  match x with
  | Some S754_nan => true
  | _ => false
  end.

(** [(s || \x22\x22)] for a text. *)
Definition or_empty (s : str) : str :=
  match s with
  | [] => []
  | _ :: _ => s
  end.

(** [s.includes(needle)] *)
Definition includes (s needle : str) : bool := contains needle s.

(** The keys of [icons] and of [stats.types]; the keys of
    [stats.countries]. *)
Inductive plant_kind := Sulfur | Metallurgical | Regeneration | OtherKind.
Inductive country_kind := Usa | Canada | Mexico | OtherCountry.

Definition plant_kind_eqb (a b : plant_kind) : bool :=
  match a, b with
  | Sulfur, Sulfur | Metallurgical, Metallurgical
  | Regeneration, Regeneration | OtherKind, OtherKind => true
  | _, _ => false
  end.

Definition country_kind_eqb (a b : country_kind) : bool :=
  match a, b with
  | Usa, Usa | Canada, Canada | Mexico, Mexico | OtherCountry, OtherCountry => true
  | _, _ => false
  end.

(** What [L.marker] is called with: the position and the options. *)
Record marker := {
  position : option float * option float;
  icon : plant_kind;
  alt : str;
  marker_plantType : plant_kind;
  marker_country : str
}.

(** The counters of [stats]. *)
Record stats := {
  types : plant_kind -> nat;
  countries : country_kind -> nat
}.

Definition no_stats : stats := {| types := fun _ => 0%nat; countries := fun _ => 0%nat |}.

(** [stats.types[k]++; stats.countries[c]++] *)
Definition count_in (st : stats) (k : plant_kind) (c : country_kind) : stats :=
  {| types := fun k' => if plant_kind_eqb k k' then S (types st k') else types st k';
     countries := fun c' =>
       if country_kind_eqb c c' then S (countries st c') else countries st c' |}.

(** The check boxes and the search field of the page. *)
Record controls := {
  filter_sulfur : bool;
  filter_metallurgical : bool;
  filter_regeneration : bool;
  filter_other : bool;
  country_usa : bool;
  country_canada : bool;
  country_mexico : bool;
  search_input : str
}.

(** What [addAllMarkers] leaves on the page: the markers of the cluster
    group, the counters handed to [updateStats] and the producers handed to
    [updatePlantList]. *)
Record page := {
  layers : list marker;
  shown_stats : stats;
  plant_list : list producer
}.

Section Page.

(** [String.prototype.toLowerCase] *)
Variable toLowerCase : str -> str.

(** Lines 424-462. *)
Definition createMarker (p : producer) : option marker :=
  if js_not (latitude p) || js_not (longitude p)
     || js_isNaN (latitude p) || js_isNaN (longitude p) then None
  else
    let plantType := toLowerCase (plantType p) in
    let iconType :=
      if includes plantType (u "sulfur") then Sulfur
      else if includes plantType (u "metallurgical") then Metallurgical
      else if includes plantType (u "regeneration") || includes plantType (u "regenerat")
      then Regeneration
      else OtherKind in
    Some {| position := (latitude p, longitude p);
            icon := iconType;
            alt := company p;
            marker_plantType := iconType;
            marker_country := toLowerCase (country p) |}.

(** The callback of [producerData.filter], lines 487-547: whether the
    producer is kept, and the counters afterwards. *)
Definition keeps (ui : controls) (st : stats) (p : producer) : bool * stats :=
  if js_not (latitude p) || js_not (longitude p)
     || js_isNaN (latitude p) || js_isNaN (longitude p) then (false, st)
  else
    let plantType := toLowerCase (or_empty (plantType p)) in
    let '(typeMatch, typeCategory) :=
      if includes plantType (u "sulfur") then (filter_sulfur ui, Sulfur)
      else if includes plantType (u "metallurgical") then
        (filter_metallurgical ui, Metallurgical)
      else if includes plantType (u "regeneration") || includes plantType (u "regenerat")
      then (filter_regeneration ui, Regeneration)
      else (filter_other ui, OtherKind) in
    let country_lower := toLowerCase (or_empty (country p)) in
    let '(countryMatch, countryCategory) :=
      if includes country_lower (u "usa") || includes country_lower (u "united states")
      then (country_usa ui, Usa)
      else if includes country_lower (u "canada") then (country_canada ui, Canada)
      else if includes country_lower (u "mexico") then (country_mexico ui, Mexico)
      else (true, OtherCountry) in
    let searchText := toLowerCase (search_input ui) in
    let searchMatch :=
      str_eqb searchText []
      || includes (toLowerCase (or_empty (company p))) searchText
      || includes (toLowerCase (or_empty (city p))) searchText
      || includes (toLowerCase (or_empty (state p))) searchText
      || includes (toLowerCase (or_empty (country p))) searchText in
    if typeMatch && countryMatch && searchMatch then
      (true, count_in st typeCategory countryCategory)
    else (false, st).

(** [producerData.filter(...)] with the counters the callback updates. *)
Fixpoint filter_producers (ui : controls) (data : list producer) (st : stats)
  : list producer * stats :=
  match data with
  | [] => ([], st)
  | p :: rest =>
      let '(kept, st1) := keeps ui st p in
      let '(out, st2) := filter_producers ui rest st1 in
      (if kept then p :: out else out, st2)
  end.

(** Lines 465-567. *)
Definition addAllMarkers (ui : controls) (producerData : list producer) : page :=
  let '(filteredData, st) := filter_producers ui producerData no_stats in
  let markers :=
    flat_map (fun p => match createMarker p with Some m => [m] | None => [] end)
             filteredData in
  {| layers := markers; shown_stats := st; plant_list := filteredData |}.

End Page.

(** The producer has no position a marker can be put at. *)
Definition no_position (p : producer) : bool :=
  js_not (latitude p) || js_not (longitude p)
  || js_isNaN (latitude p) || js_isNaN (longitude p).

(** Every check box is ticked and the search field is empty. *)
Definition unfiltered (ui : controls) : bool :=
  filter_sulfur ui && filter_metallurgical ui && filter_regeneration ui
  && filter_other ui && country_usa ui && country_canada ui && country_mexico ui
  && str_eqb (search_input ui) [].

(** The [Total] line of [updateStats], line 576, and the same sum over the
    countries. *)
Definition types_total (st : stats) : nat :=
  (types st Sulfur + types st Metallurgical + types st Regeneration
   + types st OtherKind)%nat.

Definition countries_total (st : stats) : nat :=
  (countries st Usa + countries st Canada + countries st Mexico
   + countries st OtherCountry)%nat.

(** The markers that carry the icon of a kind. *)
Definition with_icon (k : plant_kind) (ms : list marker) : list marker :=
  filter (fun m => plant_kind_eqb (icon m) k) ms.

(** The markers that [addAllMarkers] creates for the producers it kept. *)
Definition markers_of (toLowerCase : str -> str) (ps : list producer) : list marker :=
  flat_map (fun p => match createMarker toLowerCase p with Some m => [m] | None => [] end)
           ps.

(** The position is a number other than zero and NaN on both axes. *)
Definition usable (pos : option float * option float) : bool :=
  negb (js_not (fst pos)) && negb (js_not (snd pos)).

Definition all_boxes_ticked : controls :=
  {| filter_sulfur := true; filter_metallurgical := true; filter_regeneration := true;
     filter_other := true; country_usa := true; country_canada := true;
     country_mexico := true; search_input := [] |}.

Definition sample_producer (name kind land : string) (lat lon : option float) : producer :=
  {| company := u name; address := u "Not available"; city := u "Not available";
     state := u "Not available"; country := u land; coordinates := u "Not available";
     latitude := lat; longitude := lon; plantType := u kind;
     gasSource := u "Not specified"; capacity := u "Not specified" |}.

Definition sample_producers : list producer :=
  [ sample_producer "Acme" "Sulfur Burner" "USA"
      (Some (float_of_ratio 3377 100)) (Some (fneg (float_of_ratio 118283333 1000000)));
    sample_producer "Bolt" "Metallurgical" "Canada"
      (Some (S754_zero false)) (Some (fneg (float_of_ratio 80 1)));
    sample_producer "Cup" "Not specified" "Chile" None None ].

(** A float that is zero, positive and finite, or the positive infinity:
    neither negative nor a NaN. *)
Definition nonneg (f : float) : bool :=
  match f with
  | S754_zero false | S754_finite false _ _ | S754_infinity false => true
  | _ => false
  end.

Definition is_nan (f : float) : bool :=
  match f with
  | S754_nan => true
  | _ => false
  end.


(** The text holds one of the marks. *)
Definition has_mark (marks : list char) (s : str) : bool :=
  existsb (fun c => mem_char c marks) s.

(** * Properties *)

(** ** The matcher finds a match exactly when one exists *)

Section MatcherComplete.
Variable ic : bool.
Context {A : Type}.

Lemma star_match_complete (a : atom) (t rest : str) (k : str -> str -> option A) :
  forallb (atom_match ic a) t = true ->
  (forall t', k t' rest <> None) ->
  star_match ic a (t ++ rest) k <> None.
Proof.
  revert k. induction t as [|c t IH]; intros k Ht Hk; simpl.
  - destruct rest as [|c r]; simpl; [apply Hk|].
    destruct (atom_match ic a c); [|apply Hk].
    destruct (star_match ic a r _); [discriminate | apply Hk].
  - simpl in Ht. apply andb_prop in Ht as [Hc Ht]. rewrite Hc.
    specialize (IH (fun taken rest0 => k (c :: taken) rest0) Ht).
    destruct (star_match ic a (t ++ rest) _); [discriminate|].
    exfalso. apply IH; [|reflexivity]. intros t'. apply Hk.
Qed.

Lemma star_match_sound (a : atom) (s : str) (k : str -> str -> option A) :
  star_match ic a s k <> None ->
  exists t rest, s = t ++ rest /\ forallb (atom_match ic a) t = true
                 /\ k t rest <> None.
Proof.
  revert k. induction s as [|c s IH]; intros k H; simpl in H.
  - exists [], []. auto.
  - destruct (atom_match ic a c) eqn:Hc.
    + destruct (star_match ic a s (fun taken rest => k (c :: taken) rest)) eqn:E.
      * destruct (IH (fun taken rest => k (c :: taken) rest)) as (t & rest & -> & Ht & Hk).
        { rewrite E. discriminate. }
        exists (c :: t), rest. simpl. rewrite Hc, Ht. auto.
      * exists [], (c :: s). auto.
    + exists [], (c :: s). auto.
Qed.

Lemma rmatch_complete (r : regex) :
  forall (s rest : str) (g : groups) (k : str -> str -> groups -> option A),
    accepts ic r s rest ->
    (forall t g', k t rest g' <> None) ->
    rmatch ic r s g k <> None.
Proof.
  induction r as [a|a|a|r IH|r1 IH1 r2 IH2|i r IH]; intros s rest g k Hacc Hk; simpl in *.
  - destruct Hacc as (c & -> & Hc). rewrite Hc. apply Hk.
  - destruct Hacc as (t & -> & Ht). apply star_match_complete; auto.
  - destruct Hacc as (c & t & -> & Hc & Ht). rewrite Hc.
    apply star_match_complete; auto.
  - destruct (rmatch ic r s g k) eqn:E; [discriminate|].
    destruct Hacc as [->|Hacc]; [apply Hk|].
    exfalso. apply (IH s rest g k Hacc Hk E).
  - destruct Hacc as (mid & H1 & H2).
    apply (IH1 s mid); auto. intros t g'. apply (IH2 mid rest); auto.
  - apply (IH s rest); auto.
Qed.

Lemma rmatch_sound (r : regex) :
  forall (s : str) (g : groups) (k : str -> str -> groups -> option A),
    rmatch ic r s g k <> None ->
    exists rest t g', accepts ic r s rest /\ k t rest g' <> None.
Proof.
  induction r as [a|a|a|r IH|r1 IH1 r2 IH2|i r IH]; intros s g k H; simpl in *.
  - destruct s as [|c s]; [congruence|].
    destruct (atom_match ic a c) eqn:Hc; [|congruence].
    exists s, [c], g. eauto.
  - apply star_match_sound in H as (t & rest & -> & Ht & Hk).
    exists rest, t, g. eauto.
  - destruct s as [|c s]; [congruence|].
    destruct (atom_match ic a c) eqn:Hc; [|congruence].
    apply star_match_sound in H as (t & rest & -> & Ht & Hk).
    exists rest, (c :: t), g. split; [|assumption]. exists c, t. auto.
  - destruct (rmatch ic r s g k) eqn:E.
    + destruct (IH s g k) as (rest & t & g' & Hacc & Hk); [congruence|].
      exists rest, t, g'. auto.
    + exists s, [], g. auto.
  - apply IH1 in H as (mid & t1 & g1 & H1 & H).
    apply IH2 in H as (rest & t2 & g2 & H2 & H).
    exists rest, (t1 ++ t2), g2. eauto.
  - apply IH in H as (rest & t & g' & Hacc & Hk).
    exists rest, t, ((i, t) :: g'). auto.
Qed.
End MatcherComplete.

Lemma match_here_accepts (ic : bool) (r : regex) (s : str) :
  match_here ic r s <> None <-> exists rest, accepts ic r s rest.
Proof.
  unfold match_here. split.
  - intros H. apply rmatch_sound in H as (rest & _ & _ & H & _). eauto.
  - intros (rest & H). apply (rmatch_complete ic r s rest); [assumption|discriminate].
Qed.

Lemma search_found (ic : bool) (r : regex) (s : str) :
  search ic r s <> None <->
  exists pre suf, s = pre ++ suf /\ match_here ic r suf <> None.
Proof.
  induction s as [|c s IH]; simpl.
  - destruct (match_here ic r []) eqn:E.
    + split; [|discriminate]. intros _. exists [], []. rewrite E. split; [reflexivity|discriminate].
    + split; [congruence|]. intros (pre & suf & Hs & H).
      symmetry in Hs. apply app_eq_nil in Hs as [_ ->]. congruence.
  - destruct (match_here ic r (c :: s)) eqn:E.
    + split; [|discriminate]. intros _. exists [], (c :: s). rewrite E. split; [reflexivity|discriminate].
    + rewrite IH. split.
      * intros (pre & suf & -> & H). exists (c :: pre), suf. auto.
      * intros (pre & suf & Hs & H). destruct pre as [|c' pre]; simpl in Hs.
        -- subst suf. congruence.
        -- injection Hs as -> ->. eauto.
Qed.

(** ** The branches after the loop are never taken *)

Lemma starts_with_split (p s : str) :
  starts_with p s = true -> exists post, s = p ++ post.
Proof.
  revert s. induction p as [|x p IH]; intros s H; simpl in *.
  - exists s. reflexivity.
  - destruct s as [|y s]; [discriminate|].
    apply andb_prop in H as [Hxy H]. apply Z.eqb_eq in Hxy as ->.
    destruct (IH s H) as (post & ->). exists post. reflexivity.
Qed.

Lemma contains_split (p s : str) :
  contains p s = true -> exists pre post, s = pre ++ p ++ post.
Proof.
  induction s as [|c s IH]; simpl; intros H.
  - rewrite orb_false_r in H. apply starts_with_split in H as (post & H).
    exists [], post. assumption.
  - apply orb_prop in H as [H|H].
    + apply starts_with_split in H as (post & H). exists [], post. assumption.
    + destruct (IH H) as (pre & post & ->). exists (c :: pre), post. reflexivity.
Qed.

(** The special-case text is itself a comma-separated pair. *)
Lemma special_case_is_comma_pair (post : str) :
  match_here true pattern_comma (special_case ++ post) <> None.
Proof. vm_compute. discriminate. Qed.

Lemma contains_special_case_found (s : str) :
  contains special_case s = true -> search true pattern_comma s <> None.
Proof.
  intros H. apply contains_split in H as (pre & post & ->).
  apply search_found. exists pre, (special_case ++ post).
  split; [reflexivity | apply special_case_is_comma_pair].
Qed.

Lemma accepts_seq ic r1 r2 s mid rest :
  accepts ic r1 s mid -> accepts ic r2 mid rest -> accepts ic (RSeq r1 r2) s rest.
Proof. intros H1 H2. exists mid. auto. Qed.

Lemma accepts_star_none ic a s : accepts ic (RStar a) s s.
Proof. exists []. auto. Qed.

Lemma accepts_seconds ic s rest :
  accepts ic digits s rest -> accepts ic seconds s rest.
Proof. intros H. exists rest. split; [assumption | left; reflexivity]. Qed.

Lemma NS_is_NSEW c : atom_match true NS c = true -> atom_match true NSEW c = true.
Proof.
  unfold atom_match, NS, NSEW, mem_char. simpl. intros H.
  repeat (apply orb_prop in H as [H|H]; [rewrite H; rewrite ?orb_true_r; reflexivity|]).
  discriminate.
Qed.

Lemma EW_is_NSEW c : atom_match true EW c = true -> atom_match true NSEW c = true.
Proof.
  unfold atom_match, EW, NSEW, mem_char. simpl. intros H.
  repeat (apply orb_prop in H as [H|H]; [rewrite H; rewrite ?orb_true_r; reflexivity|]).
  discriminate.
Qed.

(** Every text the strict pattern matches is matched by the space-separated
    pattern, over the same stretch of text. *)
Lemma simplified_accepted_by_space (s rest : str) :
  accepts true simplified_pattern s rest -> accepts true pattern_space s rest.
Proof.
  unfold simplified_pattern, pattern_space.
  intros (m1 & D1 & m2 & G1 & m3 & D2 & m4 & G2 & m5 & D3 & m6 & Q1 & m7
          & (h1 & -> & H1) & m8 & W & m9 & D4 & m10 & G3 & m11 & D5 & m12 & G4
          & m13 & D6 & m14 & Q2 & (h2 & -> & H2)).
  repeat first
    [ eapply accepts_seq; [eassumption|]
    | eapply accepts_seq; [apply accepts_star_none|]
    | eapply accepts_seq; [apply accepts_seconds; eassumption|] ].
  - eapply accepts_seq.
    + exists h1. split; [reflexivity | apply NS_is_NSEW, H1].
    + repeat first
        [ eapply accepts_seq; [eassumption|]
        | eapply accepts_seq; [apply accepts_star_none|]
        | eapply accepts_seq; [apply accepts_seconds; eassumption|] ].
      exists h2. split; [reflexivity | apply EW_is_NSEW, H2].
Qed.

Lemma simplified_found_by_space (s : str) :
  search true simplified_pattern s <> None -> search true pattern_space s <> None.
Proof.
  rewrite !search_found. intros (pre & suf & -> & H).
  exists pre, suf. split; [reflexivity|].
  apply match_here_accepts in H as (rest & H).
  apply match_here_accepts. exists rest. apply simplified_accepted_by_space, H.
Qed.

Lemma try_patterns_none (s : str) :
  try_patterns patterns s = Ok None ->
  search true pattern_comma s = None /\ search true pattern_space s = None.
Proof.
  unfold patterns. simpl.
  destruct (search true pattern_comma s).
  - destruct (to_decimal_degrees g); discriminate.
  - destruct (search true pattern_space s); [|auto].
    destruct (to_decimal_degrees g); discriminate.
Qed.

Lemma try_body_reduced_eq (s : str) (w : world) :
  try_body s w = try_body_reduced s w.
Proof.
  unfold try_body, try_body_reduced.
  destruct (try_patterns patterns (strip s)) as [[v|]|e] eqn:E; try reflexivity.
  apply try_patterns_none in E as [E1 E2].
  destruct (contains special_case (strip s)) eqn:C.
  - apply contains_special_case_found in C. congruence.
  - destruct (search true simplified_pattern (strip s)) eqn:S; [|reflexivity].
    exfalso. apply (simplified_found_by_space (strip s)); [congruence | assumption].
Qed.

Lemma parse_coordinates_reduced_eq (v : pyval) (w : world) :
  parse_coordinates v w = parse_coordinates_reduced v w.
Proof.
  unfold parse_coordinates, parse_coordinates_reduced.
  destruct v; try reflexivity. rewrite try_body_reduced_eq. reflexivity.
Qed.

(** ** Texts that the parser cannot tell apart

    When two texts are related character by character through a relation
    that no character class, digit value or letter test of the parser
    distinguishes, they parse to the same value. *)

Lemma Forall2_rev {A B} (P : A -> B -> Prop) (l : list A) (l' : list B) :
  Forall2 P l l' -> Forall2 P (rev l) (rev l').
Proof.
  induction 1; simpl; [constructor|].
  apply Forall2_app; [assumption | repeat constructor; assumption].
Qed.

Section Indistinguishable.
Variable R : char -> char -> Prop.
Hypothesis R_decimal : forall c c', R c c' -> decimal c = decimal c'.
Hypothesis R_space : forall c c', R c c' -> is_space c = is_space c'.
Hypothesis R_dot : forall c c', R c c' -> (c =? c_dot) = (c' =? c_dot).
Hypothesis R_south : forall c c', R c c' -> (upper_char c =? 83) = (upper_char c' =? 83).
Hypothesis R_west : forall c c', R c c' -> (upper_char c =? 87) = (upper_char c' =? 87).
Hypothesis R_patterns : Forall (regex_respects R) patterns.

Lemma star_match_rel {A B} (P : A -> B -> Prop) (a : atom) (s s' : str)
    (k : str -> str -> option A) (k' : str -> str -> option B) :
  atom_respects R a ->
  Forall2 R s s' ->
  (forall t t' r r', Forall2 R t t' -> Forall2 R r r' ->
                     option_rel P (k t r) (k' t' r')) ->
  option_rel P (star_match true a s k) (star_match true a s' k').
Proof.
  intros Ha Hs. revert k k'.
  induction Hs as [|c c' s s' Hc Hs IH]; intros k k' Hk; simpl.
  - apply Hk; constructor.
  - rewrite <- (Ha c c' Hc).
    assert (Hback : option_rel P (k [] (c :: s)) (k' [] (c' :: s')))
      by (apply Hk; constructor; assumption).
    destruct (atom_match true a c); [|exact Hback].
    specialize (IH (fun taken rest => k (c :: taken) rest)
                   (fun taken rest => k' (c' :: taken) rest)).
    simpl in IH.
    assert (Hgo : option_rel P
              (star_match true a s (fun taken rest => k (c :: taken) rest))
              (star_match true a s' (fun taken rest => k' (c' :: taken) rest))).
    { apply IH. intros t t' r r' Ht Hr. apply Hk; [constructor|]; assumption. }
    destruct (star_match true a s _), (star_match true a s' _);
      simpl in Hgo; try contradiction; [exact Hgo | exact Hback].
Qed.

Lemma rmatch_rel {A B} (P : A -> B -> Prop) (r : regex) :
  regex_respects R r ->
  forall (s s' : str) (g g' : groups)
         (k : str -> str -> groups -> option A)
         (k' : str -> str -> groups -> option B),
    Forall2 R s s' -> groups_rel R g g' ->
    (forall t t' r0 r0' h h', Forall2 R t t' -> Forall2 R r0 r0' ->
       groups_rel R h h' -> option_rel P (k t r0 h) (k' t' r0' h')) ->
    option_rel P (rmatch true r s g k) (rmatch true r s' g' k').
Proof.
  induction r as [a|a|a|r IH|r1 IH1 r2 IH2|i r IH];
    intros Hr s s' g g' k k' Hs Hg Hk; simpl in *.
  - destruct Hs as [|c c' s s' Hc Hs]; simpl; [exact I|].
    rewrite <- (Hr c c' Hc). destruct (atom_match true a c); [|exact I].
    apply Hk; [repeat constructor| |]; assumption.
  - apply star_match_rel; auto.
  - destruct Hs as [|c c' s s' Hc Hs]; simpl; [exact I|].
    rewrite <- (Hr c c' Hc). destruct (atom_match true a c); [|exact I].
    apply star_match_rel; [assumption | assumption |].
    intros t t' r r' Ht Hr'. apply Hk; [constructor| |]; assumption.
  - pose proof (IH Hr s s' g g' k k' Hs Hg Hk) as Hgo.
    destruct (rmatch true r s g k), (rmatch true r s' g' k');
      simpl in Hgo; try contradiction; [exact Hgo|].
    apply Hk; [constructor| |]; assumption.
  - destruct Hr as [Hr1 Hr2]. apply IH1; auto.
    intros t1 t1' m m' h h' Ht1 Hm Hh. apply IH2; auto.
    intros t2 t2' n n' h2 h2' Ht2 Hn Hh2. apply Hk; auto.
    apply Forall2_app; assumption.
  - apply IH; auto. intros t t' m m' h h' Ht Hm Hh. apply Hk; auto.
    constructor; [split; [reflexivity | assumption] | assumption].
Qed.

Lemma search_rel (r : regex) (s s' : str) :
  regex_respects R r -> Forall2 R s s' ->
  option_rel (groups_rel R) (search true r s) (search true r s').
Proof.
  intros Hr Hs.
  assert (Hhere : forall t t', Forall2 R t t' ->
            option_rel (groups_rel R) (match_here true r t) (match_here true r t')).
  { intros t t' Ht. unfold match_here.
    apply rmatch_rel; [assumption | assumption | constructor | intros; assumption]. }
  induction Hs as [|c c' s s' Hc Hs IH]; simpl.
  - pose proof (Hhere [] [] (Forall2_nil R)) as H.
    destruct (match_here true r []), (match_here true r []) ; simpl in H; auto.
  - pose proof (Hhere (c :: s) (c' :: s') (Forall2_cons c c' Hc Hs)) as H.
    destruct (match_here true r (c :: s)), (match_here true r (c' :: s'));
      simpl in H; try contradiction; [exact H | exact IH].
Qed.

Lemma group_rel (m m' : groups) (i : nat) :
  groups_rel R m m' -> option_rel (Forall2 R) (group m i) (group m' i).
Proof.
  induction 1 as [|[j x] [j' x'] m m' [Hj Hx] Hm IH]; simpl in *; [exact I|].
  subst j'. destruct (Nat.eqb i j); [exact Hx | exact IH].
Qed.

Lemma read_digits_rel (s s' : str) :
  Forall2 R s s' -> forall acc count,
    fst (read_digits s acc count) = fst (read_digits s' acc count) /\
    Forall2 R (snd (read_digits s acc count)) (snd (read_digits s' acc count)).
Proof.
  induction 1 as [|c c' s s' Hc Hs IH]; intros acc count; simpl.
  - split; [reflexivity | constructor].
  - rewrite <- (R_decimal c c' Hc). destruct (decimal c); [apply IH|].
    simpl. split; [reflexivity | constructor; assumption].
Qed.

Lemma py_float_rel (s s' : str) :
  Forall2 R s s' -> res_rel eq (py_float s) (py_float s').
Proof.
  intros Hs. unfold py_float.
  destruct (read_digits_rel s s' Hs 0 0%nat) as [E1 E2].
  destruct (read_digits s 0 0%nat) as [[n ni] rest].
  destruct (read_digits s' 0 0%nat) as [[n' ni'] rest'].
  simpl in E1, E2. injection E1 as -> ->.
  destruct E2 as [|c c' frac frac' Hc Hfrac].
  - destruct (Nat.eqb ni' 0); simpl; auto.
  - rewrite <- (R_dot c c' Hc). destruct (c =? c_dot); simpl; auto.
    destruct (read_digits_rel frac frac' Hfrac n' 0%nat) as [F1 F2].
    destruct (read_digits frac n' 0%nat) as [[a nf] r].
    destruct (read_digits frac' n' 0%nat) as [[a' nf'] r'].
    simpl in F1, F2. injection F1 as -> ->.
    destruct F2; simpl; auto. destruct (Nat.eqb (ni' + nf') 0); simpl; auto.
Qed.

Lemma float_group_rel (m m' : groups) (i : nat) :
  groups_rel R m m' -> res_rel eq (float_group m i) (float_group m' i).
Proof.
  intros Hm. unfold float_group. pose proof (group_rel m m' i Hm) as H.
  destruct (group m i), (group m' i); simpl in H; try contradiction.
  - apply py_float_rel, H.
  - exact I.
Qed.

Lemma upper_is_rel (x x' : str) (l : char) :
  l = 83 \/ l = 87 -> Forall2 R x x' ->
  str_eqb (py_upper x) [l] = str_eqb (py_upper x') [l].
Proof.
  intros Hl Hx. destruct Hx as [|c c' x x' Hc Hx]; [reflexivity|].
  simpl. destruct Hx; simpl.
  - destruct Hl as [-> | ->]; [rewrite (R_south c c' Hc) | rewrite (R_west c c' Hc)];
      reflexivity.
  - rewrite !andb_false_r. reflexivity.
Qed.

Lemma upper_group_rel (m m' : groups) (i : nat) :
  groups_rel R m m' ->
  res_rel (fun d d' => forall l, l = 83 \/ l = 87 -> str_eqb d [l] = str_eqb d' [l])
          (upper_group m i) (upper_group m' i).
Proof.
  intros Hm. unfold upper_group. pose proof (group_rel m m' i Hm) as H.
  destruct (group m i), (group m' i); simpl in H; try contradiction; simpl; auto.
  intros l Hl. apply upper_is_rel; assumption.
Qed.

Lemma bind_rel {A A' B B'} (P : A -> A' -> Prop) (Q : B -> B' -> Prop)
    (c : res A) (c' : res A') (k : A -> res B) (k' : A' -> res B') :
  res_rel P c c' ->
  (forall a a', P a a' -> res_rel Q (k a) (k' a')) ->
  res_rel Q (bind c k) (bind c' k').
Proof.
  intros Hc Hk. destruct c, c'; simpl in *; try contradiction; auto.
Qed.

Lemma to_decimal_degrees_rel (m m' : groups) :
  groups_rel R m m' ->
  res_rel eq (to_decimal_degrees m) (to_decimal_degrees m').
Proof.
  intros Hm. unfold to_decimal_degrees.
  repeat first
    [ apply (bind_rel eq eq); [apply float_group_rel, Hm | intros ? ? <-]
    | eapply bind_rel; [apply upper_group_rel, Hm | intros ? ? ?] ].
  simpl.
  rewrite (H 83), (H0 87) by auto. reflexivity.
Qed.

Lemma try_patterns_rel (ps : list regex) (s s' : str) :
  Forall (regex_respects R) ps -> Forall2 R s s' ->
  res_rel eq (try_patterns ps s) (try_patterns ps s').
Proof.
  intros Hps Hs. induction Hps as [|p ps Hp Hps IH]; simpl; [reflexivity|].
  pose proof (search_rel p s s' Hp Hs) as H.
  destruct (search true p s), (search true p s'); simpl in H; try contradiction.
  - apply (bind_rel eq eq); [apply to_decimal_degrees_rel, H|].
    intros ? ? <-. reflexivity.
  - exact IH.
Qed.

Lemma lstrip_rel (s s' : str) : Forall2 R s s' -> Forall2 R (lstrip s) (lstrip s').
Proof.
  induction 1 as [|c c' s s' Hc Hs IH]; simpl; [constructor|].
  rewrite <- (R_space c c' Hc). destruct (is_space c); [exact IH|].
  constructor; assumption.
Qed.

Lemma strip_rel (s s' : str) : Forall2 R s s' -> Forall2 R (strip s) (strip s').
Proof.
  intros H. unfold strip. apply Forall2_rev, lstrip_rel, Forall2_rev, lstrip_rel, H.
Qed.

(** Related texts are cleaned to related texts and run through the loop to
    the same result. *)
Lemma try_patterns_strip_rel (s s' : str) :
  Forall2 R s s' ->
  res_rel eq (try_patterns patterns (strip s)) (try_patterns patterns (strip s')).
Proof.
  intros Hs. apply try_patterns_rel; [exact R_patterns | apply strip_rel, Hs].
Qed.
End Indistinguishable.

(** ** Characters of the same class *)

Lemma same_decimal_eq (c c' : char) : same_decimal c c' = true -> decimal c = decimal c'.
Proof.
  unfold same_decimal. destruct (decimal c), (decimal c'); try discriminate; auto.
  intros H. apply Z.eqb_eq in H. congruence.
Qed.

Lemma same_class_refl (c : char) : same_class c c = true.
Proof.
  unfold same_class, same_decimal. rewrite !Bool.eqb_reflx, !andb_true_r.
  apply andb_true_intro. split.
  - destruct (decimal c); [apply Z.eqb_refl | reflexivity].
  - apply forallb_forall. intros a _. apply Bool.eqb_reflx.
Qed.

Lemma regex_respects_atoms (R : char -> char -> Prop) (r : regex) :
  (forall a, In a (atoms_of r) -> atom_respects R a) -> regex_respects R r.
Proof.
  induction r as [a|a|a|r IH|r1 IH1 r2 IH2|i r IH]; simpl; intros H; auto.
  split; [apply IH1 | apply IH2]; intros a Ha; apply H, in_or_app; auto.
Qed.

Lemma alike_patterns : Forall (regex_respects alike) patterns.
Proof.
  apply Forall_forall. intros p Hp. apply regex_respects_atoms.
  intros a Ha c c' Hc. unfold alike, same_class in Hc.
  apply andb_prop in Hc as [_ Hc].
  rewrite forallb_forall in Hc. apply Bool.eqb_prop, Hc.
  apply in_flat_map. exists p. auto.
Qed.

(** Texts that are alike character by character run through the loop to the
    same result. *)
Lemma alike_try_patterns (s s' : str) :
  Forall2 alike s s' ->
  res_rel eq (try_patterns patterns (strip s)) (try_patterns patterns (strip s')).
Proof.
  apply (try_patterns_strip_rel alike); try apply alike_patterns;
    intros c c' Hc; unfold alike, same_class in Hc;
    repeat (apply andb_prop in Hc as [Hc ?]);
    try (apply Bool.eqb_prop; assumption).
  apply same_decimal_eq; assumption.
Qed.

Lemma substitute_alike (f : char -> char) (mask : list bool) (s : str) :
  (forall c, alike c (f c)) -> Forall2 alike s (substitute f mask s).
Proof.
  intros Hf. revert mask. induction s as [|c s IH]; intros mask.
  - destruct mask; constructor.
  - destruct mask as [|b mask]; simpl.
    + constructor; [apply same_class_refl|].
      specialize (IH []). destruct s; exact IH.
    + constructor; [|apply IH]. destruct b; [apply Hf | apply same_class_refl].
Qed.

Lemma typographic_alike (c : char) : alike c (typographic c).
Proof.
  unfold alike, typographic.
  destruct (c =? c_degree) eqn:E1; [apply Z.eqb_eq in E1; subst c; reflexivity|].
  destruct (c =? c_squote) eqn:E2; [apply Z.eqb_eq in E2; subst c; reflexivity|].
  destruct (c =? c_dquote) eqn:E3; [apply Z.eqb_eq in E3; subst c; reflexivity|].
  apply same_class_refl.
Qed.

Lemma opposite_case_alike (c : char) : alike c (opposite_case c).
Proof.
  unfold alike, opposite_case, mem_char. simpl existsb.
  repeat match goal with
  | |- context [c =? ?n] =>
      let E := fresh "E" in
      destruct (c =? n) eqn:E; [apply Z.eqb_eq in E; subst c; reflexivity|]
  end.
  apply same_class_refl.
Qed.

(** ** Character classes by enumeration *)

Lemma decimal_enum (c : char) : is_decimal c = true -> In c all_decimals.
Proof.
  unfold is_decimal, decimal, all_decimals.
  induction decimal_runs as [|r runs IH]; simpl; [discriminate|].
  destruct ((r <=? c) && (c <=? r + 9)) eqn:E; intros H.
  - apply andb_prop in E as [E1 E2]. apply Z.leb_le in E1, E2.
    assert (Hc : c = r + 0 \/ c = r + 1 \/ c = r + 2 \/ c = r + 3 \/ c = r + 4 \/
                 c = r + 5 \/ c = r + 6 \/ c = r + 7 \/ c = r + 8 \/ c = r + 9) by lia.
    intuition auto.
  - do 10 right. apply IH, H.
Qed.

Lemma space_enum (c : char) : is_space c = true -> In c all_spaces.
Proof.
  unfold is_space, all_spaces. intros H.
  rewrite !orb_true_iff, !andb_true_iff, !Z.leb_le, !Z.eqb_eq in H.
  simpl. lia.
Qed.

Lemma hemisphere_enum (c : char) :
  atom_match true NSEW c = true -> In c (c_long_s :: hemisphere_letters).
Proof.
  unfold atom_match, NSEW, mem_char.
  replace (fold_set [78; 83; 69; 87]) with [110; 115; c_long_s; 101; 119]
    by (vm_compute; reflexivity).
  unfold sre_lower, hemisphere_letters, c_long_s. intros H.
  destruct ((65 <=? c) && (c <=? 90)) eqn:E; simpl in H;
    rewrite !orb_true_iff, !Z.eqb_eq in H; simpl; lia.
Qed.

Lemma class_check (P : char -> bool) (l : list char) (c : char) :
  forallb P l = true -> In c l -> P c = true.
Proof. intros H. apply forallb_forall, H. Qed.

Lemma mem_char_In (c : char) (l : list char) : mem_char c l = true -> In c l.
Proof.
  unfold mem_char. intros H. apply existsb_exists in H as (x & Hx & E).
  apply Z.eqb_eq in E. subst x. exact Hx.
Qed.

(** [by_enum H]: a test on [c] holds because it holds for every member of
    the class that [H] puts [c] in. *)
Ltac by_enum H :=
  first [ apply decimal_enum in H | apply space_enum in H
        | apply hemisphere_enum in H | apply mem_char_In in H ];
  match type of H with
  | In ?c ?l =>
      match goal with
      | |- ?b = true =>
          let P := eval pattern c in b in
          match P with
          | ?f _ => apply (class_check f l c); [vm_compute; reflexivity | exact H]
          end
      end
  end.

(** ** Running the matcher over a text of known shape *)

Lemma rmatch_seq {A} ic r1 r2 s g (k : str -> str -> groups -> option A) :
  rmatch ic (RSeq r1 r2) s g k =
  rmatch ic r1 s g (fun t1 s1 g1 =>
    rmatch ic r2 s1 g1 (fun t2 s2 g2 => k (t1 ++ t2) s2 g2)).
Proof. reflexivity. Qed.

Lemma rmatch_group {A} ic i r s g (k : str -> str -> groups -> option A) :
  rmatch ic (RGroup i r) s g k = rmatch ic r s g (fun t s' g' => k t s' ((i, t) :: g')).
Proof. reflexivity. Qed.

Lemma star_match_run {A} (a : atom) (t rest : str) (k : str -> str -> option A) (v : A) :
  forallb (atom_match true a) t = true -> stops a rest = true ->
  k t rest = Some v -> star_match true a (t ++ rest) k = Some v.
Proof.
  revert k. induction t as [|c t IH]; intros k Ht Hs Hk; simpl.
  - destruct rest as [|c r]; simpl; [exact Hk|].
    simpl in Hs. apply negb_true_iff in Hs. rewrite Hs. exact Hk.
  - simpl in Ht. apply andb_prop in Ht as [Hc Ht]. rewrite Hc.
    rewrite (IH (fun taken rest0 => k (c :: taken) rest0)); auto.
Qed.

Lemma rmatch_blanks_run {A} (t rest : str) g (k : str -> str -> groups -> option A) v :
  all_blank t = true -> stops ASpace rest = true ->
  k t rest g = Some v -> rmatch true blanks (t ++ rest) g k = Some v.
Proof. intros Ht Hs Hk. simpl. apply star_match_run; assumption. Qed.

Lemma rmatch_plus_run {A} (a : atom) (t rest : str) g
    (k : str -> str -> groups -> option A) v :
  t <> [] -> forallb (atom_match true a) t = true -> stops a rest = true ->
  k t rest g = Some v -> rmatch true (RPlus a) (t ++ rest) g k = Some v.
Proof.
  intros Hne Ht Hs Hk. destruct t as [|c t]; [congruence|]. simpl in *.
  apply andb_prop in Ht as [Hc Ht]. rewrite Hc.
  apply star_match_run; assumption.
Qed.

Lemma rmatch_digits_run {A} (x rest : str) g (k : str -> str -> groups -> option A) v :
  is_numeral x = true -> stops ADigit rest = true ->
  k x rest g = Some v -> rmatch true digits (x ++ rest) g k = Some v.
Proof.
  intros Hx Hs Hk. apply rmatch_plus_run; try assumption.
  - destruct x; [discriminate | congruence].
  - destruct x; [discriminate | exact Hx].
Qed.

Lemma rmatch_atom_hit {A} (a : atom) (c : char) (rest : str) g
    (k : str -> str -> groups -> option A) v :
  atom_match true a c = true -> k [c] rest g = Some v ->
  rmatch true (RAtom a) (c :: rest) g k = Some v.
Proof. intros Hc Hk. simpl. rewrite Hc. exact Hk. Qed.

Lemma rmatch_atom_miss {A} (a : atom) (s : str) g (k : str -> str -> groups -> option A) :
  stops a s = true -> rmatch true (RAtom a) s g k = None.
Proof.
  intros Hs. destruct s as [|c s]; simpl; [reflexivity|].
  simpl in Hs. apply negb_true_iff in Hs. rewrite Hs. reflexivity.
Qed.

Lemma rmatch_opt_hit {A} (r : regex) (s : str) g (k : str -> str -> groups -> option A) v :
  rmatch true r s g k = Some v -> rmatch true (ROpt r) s g k = Some v.
Proof. intros H. simpl. rewrite H. reflexivity. Qed.

Lemma rmatch_opt_miss {A} (r : regex) (s : str) g (k : str -> str -> groups -> option A) v :
  rmatch true r s g k = None -> k [] s g = Some v ->
  rmatch true (ROpt r) s g k = Some v.
Proof. intros H Hk. simpl. rewrite H. exact Hk. Qed.

Lemma stops_numeral (a : atom) (x s : str) :
  is_numeral x = true ->
  forallb (fun c => negb (atom_match true a c)) all_decimals = true ->
  stops a (x ++ s) = true.
Proof.
  intros Hx Ha. destruct x as [|c x]; [discriminate|]. simpl in Hx.
  apply andb_prop in Hx as [Hc _]. apply decimal_enum in Hc.
  exact (class_check _ _ c Ha Hc).
Qed.

Lemma stops_blank (a : atom) (t s : str) :
  all_blank t = true ->
  forallb (fun c => negb (atom_match true a c)) all_spaces = true ->
  stops a s = true -> stops a (t ++ s) = true.
Proof.
  intros Ht Ha Hs. destruct t as [|c t]; [exact Hs|]. simpl in Ht.
  apply andb_prop in Ht as [Hc _]. apply space_enum in Hc.
  exact (class_check _ _ c Ha Hc).
Qed.

Lemma stops_member (a : atom) (c : char) (l : list char) (s : str) :
  mem_char c l = true ->
  forallb (fun c => negb (atom_match true a c)) l = true ->
  stops a (c :: s) = true.
Proof.
  intros Hc Ha. apply mem_char_In in Hc. exact (class_check _ _ c Ha Hc).
Qed.

Lemma hemisphere_letter_NSEW (h : char) :
  mem_char h hemisphere_letters = true -> atom_match true NSEW h = true.
Proof. intros H. by_enum H. Qed.

Ltac solve_stops :=
  cbn [app];
  first
    [ reflexivity
    | eapply stops_member; [eassumption | reflexivity]
    | apply stops_numeral; [assumption | reflexivity]
    | apply stops_blank;
        [ assumption | reflexivity
        | eapply stops_member; [eassumption | reflexivity] ] ].

Ltac member_hit H :=
  let H' := fresh in pose proof H as H'; by_enum H'.

Lemma rmatch_dms_body {A} (i j l : nat) (tl : regex) (d : dms_text) (rest : str)
    (g : groups) (K : str -> groups -> option A) (v : A) :
  well_formed d = true ->
  rmatch true tl (dt_hemisphere d :: rest)
    ((l, dt_seconds d ++ fraction_text d) :: (j, dt_minutes d)
       :: (i, dt_degrees d) :: g)
    (fun _ s2 g2 => K s2 g2) = Some v ->
  rmatch true
    (RGroup i digits +++ degree_mark +++ blanks +++
     RGroup j digits +++ minute_mark +++ blanks +++
     RGroup l seconds +++ ROpt second_mark +++ blanks +++ tl)%re
    (render d rest) g (fun _ s2 g2 => K s2 g2) = Some v.
Proof.
  destruct d as [D dm g1 M mm g2 S F Q g3 H].
  unfold well_formed, render, fraction_text, second_mark_text.
  cbn [dt_degrees dt_degree_mark dt_gap1 dt_minutes dt_minute_mark dt_gap2
       dt_seconds dt_fraction dt_second_mark dt_gap3 dt_hemisphere].
  rewrite !andb_true_iff.
  intros [[[[[[[[[[HD Hdm] Hg1] HM] Hmm] Hg2] HS] HF] HQ] Hg3] HH] Htl.
  rewrite rmatch_seq, rmatch_group.
  apply rmatch_digits_run; [exact HD | solve_stops |].
  rewrite rmatch_seq. apply rmatch_atom_hit; [member_hit Hdm|].
  rewrite rmatch_seq. apply rmatch_blanks_run; [exact Hg1 | solve_stops |].
  rewrite rmatch_seq, rmatch_group.
  apply rmatch_digits_run; [exact HM | solve_stops |].
  rewrite rmatch_seq. apply rmatch_atom_hit; [member_hit Hmm|].
  rewrite rmatch_seq. apply rmatch_blanks_run; [exact Hg2 | solve_stops |].
  rewrite rmatch_seq, rmatch_group. unfold seconds. rewrite rmatch_seq.
  destruct F as [f|], Q as [q|];
    (apply rmatch_digits_run; [exact HS | solve_stops |]).
  - cbn [app]. apply rmatch_opt_hit. rewrite rmatch_seq.
    apply rmatch_atom_hit; [reflexivity|].
    apply rmatch_digits_run; [exact HF | solve_stops |].
    rewrite rmatch_seq. apply rmatch_opt_hit, rmatch_atom_hit; [member_hit HQ|].
    rewrite rmatch_seq. apply rmatch_blanks_run; [exact Hg3 | solve_stops |].
    exact Htl.
  - cbn [app]. apply rmatch_opt_hit. rewrite rmatch_seq.
    apply rmatch_atom_hit; [reflexivity|].
    apply rmatch_digits_run; [exact HF | solve_stops |].
    rewrite rmatch_seq.
    apply rmatch_opt_miss; [apply rmatch_atom_miss; solve_stops|].
    rewrite rmatch_seq. apply rmatch_blanks_run; [exact Hg3 | solve_stops |].
    exact Htl.
  - cbn [app].
    apply rmatch_opt_miss; [rewrite rmatch_seq; apply rmatch_atom_miss; solve_stops|].
    rewrite rmatch_seq. apply rmatch_opt_hit, rmatch_atom_hit; [member_hit HQ|].
    rewrite rmatch_seq. apply rmatch_blanks_run; [exact Hg3 | solve_stops |].
    exact Htl.
  - cbn [app].
    apply rmatch_opt_miss; [rewrite rmatch_seq; apply rmatch_atom_miss; solve_stops|].
    rewrite rmatch_seq.
    apply rmatch_opt_miss; [apply rmatch_atom_miss; solve_stops|].
    rewrite rmatch_seq. apply rmatch_blanks_run; [exact Hg3 | solve_stops |].
    exact Htl.
Qed.

Lemma search_here (ic : bool) (r : regex) (s : str) (m : groups) :
  match_here ic r s = Some m -> search ic r s = Some m.
Proof. intros H. destruct s; simpl; rewrite H; reflexivity. Qed.

Lemma match_here_comma_pair (a : dms_text) (gap : str) (b : dms_text) :
  well_formed a = true -> all_blank gap = true -> well_formed b = true ->
  match_here true pattern_comma (comma_pair a gap b) = Some (pair_groups a b).
Proof.
  intros Ha Hgap Hb. unfold match_here, pattern_comma, comma_pair.
  apply (rmatch_dms_body 1 2 3 _ a _ [] (fun _ g => Some g)); [exact Ha|].
  pose proof Ha as Ha'. pose proof Hb as Hb'.
  unfold well_formed in Ha', Hb'. rewrite !andb_true_iff in Ha', Hb'.
  destruct Ha' as [_ HHa]. destruct Hb' as [[[[[[[[[[HDb _] _] _] _] _] _] _] _] _] HHb].
  rewrite rmatch_seq, rmatch_group.
  apply rmatch_atom_hit; [apply hemisphere_letter_NSEW, HHa|].
  rewrite rmatch_seq. apply rmatch_atom_hit; [reflexivity|].
  rewrite rmatch_seq.
  apply rmatch_blanks_run;
    [exact Hgap | unfold render; apply stops_numeral; [exact HDb | reflexivity] |].
  apply (rmatch_dms_body 5 6 7 _ b [] _ (fun _ g => Some g)); [exact Hb|].
  rewrite rmatch_group.
  apply rmatch_atom_hit; [apply hemisphere_letter_NSEW, HHb | reflexivity].
Qed.

Lemma match_here_space_pair (a : dms_text) (gap : str) (b : dms_text) :
  well_formed a = true -> all_blank gap = true -> gap <> [] -> well_formed b = true ->
  match_here true pattern_space (space_pair a gap b) = Some (pair_groups a b).
Proof.
  intros Ha Hgap Hne Hb. unfold match_here, pattern_space, space_pair.
  apply (rmatch_dms_body 1 2 3 _ a _ [] (fun _ g => Some g)); [exact Ha|].
  pose proof Ha as Ha'. pose proof Hb as Hb'.
  unfold well_formed in Ha', Hb'. rewrite !andb_true_iff in Ha', Hb'.
  destruct Ha' as [_ HHa]. destruct Hb' as [[[[[[[[[[HDb _] _] _] _] _] _] _] _] _] HHb].
  rewrite rmatch_seq, rmatch_group.
  apply rmatch_atom_hit; [apply hemisphere_letter_NSEW, HHa|].
  rewrite rmatch_seq.
  apply rmatch_plus_run;
    [exact Hne | exact Hgap
    | unfold render; apply stops_numeral; [exact HDb | reflexivity] |].
  apply (rmatch_dms_body 5 6 7 _ b [] _ (fun _ g => Some g)); [exact Hb|].
  rewrite rmatch_group.
  apply rmatch_atom_hit; [apply hemisphere_letter_NSEW, HHb | reflexivity].
Qed.

(** ** [float] of the captured numerals *)

Lemma read_digits_run (x rest : str) (acc : Z) (n : nat) :
  forallb is_decimal x = true ->
  read_digits (x ++ rest) acc n = read_digits rest (digits_value acc x) (n + List.length x).
Proof.
  revert acc n. induction x as [|c x IH]; intros acc n Hx; simpl.
  - rewrite Nat.add_0_r. reflexivity.
  - simpl in Hx. apply andb_prop in Hx as [Hc Hx]. unfold is_decimal in Hc.
    destruct (decimal c) as [d|]; [|discriminate].
    rewrite IH by exact Hx. rewrite Nat.add_succ_r. reflexivity.
Qed.

Lemma is_numeral_digits (x : str) :
  is_numeral x = true -> forallb is_decimal x = true /\ List.length x <> 0%nat.
Proof. destruct x; [discriminate|]. intros H. split; [exact H | discriminate]. Qed.

Lemma py_float_numeral (x : str) :
  is_numeral x = true -> py_float x = Ok (float_of_ratio (digits_value 0 x) 1).
Proof.
  intros Hx. apply is_numeral_digits in Hx as [Hx Hlen]. unfold py_float.
  rewrite <- (app_nil_r x) at 1. rewrite read_digits_run by exact Hx. simpl.
  destruct (List.length x); [congruence | reflexivity].
Qed.

Lemma py_float_fraction (x f : str) :
  is_numeral x = true -> is_numeral f = true ->
  py_float (x ++ c_dot :: f) =
  Ok (float_of_ratio (digits_value (digits_value 0 x) f)
                     (Z.to_pos (10 ^ Z.of_nat (List.length f)))).
Proof.
  intros Hx Hf. apply is_numeral_digits in Hx as [Hx _].
  apply is_numeral_digits in Hf as [Hf Hlen]. unfold py_float.
  rewrite read_digits_run by exact Hx. cbn [read_digits].
  replace (decimal c_dot) with (@None Z) by reflexivity.
  rewrite Z.eqb_refl.
  rewrite <- (app_nil_r f) at 1. rewrite read_digits_run by exact Hf.
  cbn [read_digits]. simpl Nat.add.
  destruct (List.length f); [congruence|].
  rewrite Nat.add_succ_r. reflexivity.
Qed.

Lemma to_decimal_degrees_pair (a b : dms_text) :
  well_formed a = true -> well_formed b = true ->
  to_decimal_degrees (pair_groups a b) =
  Ok (Some (signed_float 83 a), Some (signed_float 87 b)).
Proof.
  intros Ha Hb. unfold well_formed in Ha, Hb. rewrite !andb_true_iff in Ha, Hb.
  destruct Ha as [[[[[[[[[[HDa _] _] HMa] _] _] HSa] HFa] _] _] _].
  destruct Hb as [[[[[[[[[[HDb _] _] HMb] _] _] HSb] HFb] _] _] _].
  assert (Hsec : forall d, is_numeral (dt_seconds d) = true ->
            match dt_fraction d with Some f => is_numeral f | None => true end = true ->
            py_float (dt_seconds d ++ fraction_text d) =
            Ok (float_of_ratio (seconds_num d) (seconds_den d))).
  { intros d HS HF. unfold fraction_text, seconds_num, seconds_den.
    destruct (dt_fraction d) as [f|].
    - apply py_float_fraction; assumption.
    - rewrite app_nil_r. apply py_float_numeral, HS. }
  unfold to_decimal_degrees, float_group, upper_group, pair_groups.
  cbn [group Nat.eqb bind].
  repeat (first [rewrite py_float_numeral by assumption | rewrite Hsec by assumption];
          cbn [bind]).
  cbn [bind py_upper map str_eqb].
  unfold signed_float, dms_float, degrees_of, minutes_of.
  rewrite !andb_true_r. reflexivity.
Qed.

(** ** The whole call on a well-formed pair *)

Lemma lstrip_stops (s : str) : stops ASpace s = true -> lstrip s = s.
Proof.
  destruct s as [|c s]; [reflexivity|]. simpl. intros H.
  apply negb_true_iff in H. rewrite H. reflexivity.
Qed.

Lemma strip_id (t : str) (h : char) :
  stops ASpace (t ++ [h]) = true -> is_space h = false -> strip (t ++ [h]) = t ++ [h].
Proof.
  intros Hs Hh. unfold strip. rewrite (lstrip_stops _ Hs).
  rewrite rev_app_distr. cbn [rev app]. cbn [lstrip]. rewrite Hh.
  cbn [rev]. rewrite rev_involutive. reflexivity.
Qed.

Lemma render_last (d : dms_text) (rest : str) :
  exists t, forall rest, render d rest = t ++ dt_hemisphere d :: rest.
Proof.
  exists (dt_degrees d ++ dt_degree_mark d :: dt_gap1 d ++
          dt_minutes d ++ dt_minute_mark d :: dt_gap2 d ++
          dt_seconds d ++ fraction_text d ++ second_mark_text d ++ dt_gap3 d).
  intros rest'. unfold render.
  repeat (rewrite <- app_assoc; cbn [app]). reflexivity.
Qed.

Lemma strip_pair (a b : dms_text) (mid : str) :
  well_formed a = true -> well_formed b = true ->
  strip (render a (mid ++ render b [])) = render a (mid ++ render b []).
Proof.
  intros Ha Hb.
  destruct (render_last a []) as (ta & Hta). destruct (render_last b []) as (tb & Htb).
  assert (Hstop : stops ASpace (render a (mid ++ render b [])) = true).
  { unfold render at 1. apply stops_numeral; [|reflexivity].
    unfold well_formed in Ha. rewrite !andb_true_iff in Ha. apply Ha. }
  revert Hstop. rewrite Hta, Htb.
  replace (ta ++ dt_hemisphere a :: mid ++ tb ++ [dt_hemisphere b])
    with ((ta ++ dt_hemisphere a :: mid ++ tb) ++ [dt_hemisphere b])
    by (repeat (rewrite <- app_assoc; cbn [app]); reflexivity).
  intros Hstop. apply strip_id; [exact Hstop|].
  unfold well_formed in Hb. rewrite !andb_true_iff in Hb. destruct Hb as [_ HH].
  apply negb_true_iff. by_enum HH.
Qed.

Lemma parse_coordinates_found (s : str) (w : world) (v : coords) :
  s <> [] -> try_patterns patterns (strip s) = Ok (Some v) ->
  parse_coordinates (PyStr s) w = (Return v, w).
Proof.
  intros Hs H. destruct s as [|c s]; [congruence|].
  unfold parse_coordinates. cbn [truthy isinstance_str negb orb].
  unfold try_body. rewrite H. reflexivity.
Qed.

Lemma render_not_empty (d : dms_text) (rest : str) :
  well_formed d = true -> render d rest <> [].
Proof.
  intros Hd. unfold well_formed in Hd. rewrite !andb_true_iff in Hd.
  destruct Hd as [[[[[[[[[[HD _] _] _] _] _] _] _] _] _] _].
  unfold render. destruct (dt_degrees d); [discriminate HD | discriminate].
Qed.

Lemma parse_comma_pair (a : dms_text) (gap : str) (b : dms_text) (w : world) :
  well_formed a = true -> all_blank gap = true -> well_formed b = true ->
  parse_coordinates (PyStr (comma_pair a gap b)) w =
  (Return (Some (signed_float 83 a), Some (signed_float 87 b)), w).
Proof.
  intros Ha Hgap Hb. apply parse_coordinates_found.
  - apply render_not_empty, Ha.
  - unfold comma_pair.
    change (c_comma :: gap ++ render b []) with ((c_comma :: gap) ++ render b []).
    rewrite strip_pair by assumption. cbn [app]. fold (comma_pair a gap b).
    unfold patterns. cbn [try_patterns].
    rewrite (search_here _ _ _ _ (match_here_comma_pair a gap b Ha Hgap Hb)).
    rewrite to_decimal_degrees_pair by assumption. reflexivity.
Qed.

(** A text without a comma is not a comma-separated pair. *)
Lemma accepts_suffix (ic : bool) (r : regex) (s rest : str) :
  accepts ic r s rest -> exists t, s = t ++ rest.
Proof.
  revert s rest. induction r as [a|a|a|r IH|r1 IH1 r2 IH2|i r IH]; intros s rest H; simpl in H.
  - destruct H as (c & -> & _). exists [c]. reflexivity.
  - destruct H as (t & -> & _). exists t. reflexivity.
  - destruct H as (c & t & -> & _). exists (c :: t). reflexivity.
  - destruct H as [-> | H]; [exists []; reflexivity | apply IH, H].
  - destruct H as (mid & H1 & H2).
    apply IH1 in H1 as (t1 & ->). apply IH2 in H2 as (t2 & ->).
    exists (t1 ++ t2). rewrite app_assoc. reflexivity.
  - apply IH, H.
Qed.

Lemma accepts_comma_has_comma (s rest : str) :
  accepts true pattern_comma s rest -> In c_comma s.
Proof.
  unfold pattern_comma.
  intros (m1 & A1 & m2 & A2 & m3 & A3 & m4 & A4 & m5 & A5 & m6 & A6 & m7 & A7
          & m8 & A8 & m9 & A9 & m10 & A10 & m11 & (c & -> & Hc) & _).
  assert (c = c_comma) as ->.
  { apply mem_char_In in Hc. revert Hc. unfold sre_lower.
    replace (fold_set [c_comma]) with [c_comma] by reflexivity.
    unfold c_comma. destruct ((65 <=? c) && (c <=? 90)) eqn:E; simpl; [|lia].
    apply andb_prop in E as [E1 E2]. apply Z.leb_le in E1, E2. lia. }
  repeat match goal with
  | H : accepts true _ _ _ |- _ => apply accepts_suffix in H as (? & ->)
  end.
  repeat (apply in_or_app; right). left. reflexivity.
Qed.

Lemma search_comma_needs_comma (s : str) :
  ~ In c_comma s -> search true pattern_comma s = None.
Proof.
  intros Hno. destruct (search true pattern_comma s) eqn:E; [|reflexivity].
  exfalso. apply Hno.
  assert (H : search true pattern_comma s <> None) by congruence.
  apply search_found in H as (pre & suf & -> & H).
  apply match_here_accepts in H as (rest & H).
  apply in_or_app. right. apply (accepts_comma_has_comma _ _ H).
Qed.

Lemma numeral_no_comma (x : str) : forallb is_decimal x = true -> ~ In c_comma x.
Proof.
  intros Hx Hin. rewrite forallb_forall in Hx. apply Hx in Hin. discriminate Hin.
Qed.

Lemma blank_no_comma (x : str) : all_blank x = true -> ~ In c_comma x.
Proof.
  intros Hx Hin. unfold all_blank in Hx. rewrite forallb_forall in Hx.
  apply Hx in Hin. discriminate Hin.
Qed.

Lemma render_no_comma (d : dms_text) (rest : str) :
  well_formed d = true -> ~ In c_comma rest -> ~ In c_comma (render d rest).
Proof.
  destruct d as [D dm g1 M mm g2 S F Q g3 H].
  unfold well_formed, render, fraction_text, second_mark_text.
  cbn [dt_degrees dt_degree_mark dt_gap1 dt_minutes dt_minute_mark dt_gap2
       dt_seconds dt_fraction dt_second_mark dt_gap3 dt_hemisphere].
  rewrite !andb_true_iff.
  intros [[[[[[[[[[HD Hdm] Hg1] HM] Hmm] Hg2] HS] HF] HQ] Hg3] HH] Hrest Hin.
  apply is_numeral_digits in HD as [HD _], HM as [HM _], HS as [HS _].
  assert (HF' : ~ In c_comma (match F with Some f => c_dot :: f | None => [] end)).
  { destruct F as [f|]; [|intros []]. apply is_numeral_digits in HF as [HF _].
    intros [E|E]; [discriminate E | exact (numeral_no_comma f HF E)]. }
  assert (HQ' : ~ In c_comma (match Q with Some q => [q] | None => [] end)).
  { destruct Q as [q|]; [|intros []]. intros [E|[]]. subst q. discriminate HQ. }
  repeat match goal with
  | H : In _ (_ ++ _) |- _ => apply in_app_or in H as [H|H]
  | H : In _ (_ :: _) |- _ => destruct H as [H|H]
  end;
  try (subst; discriminate);
  first [ exact (numeral_no_comma _ HD Hin) | exact (numeral_no_comma _ HM Hin)
        | exact (numeral_no_comma _ HS Hin) | exact (blank_no_comma _ Hg1 Hin)
        | exact (blank_no_comma _ Hg2 Hin) | exact (blank_no_comma _ Hg3 Hin)
        | exact (HF' Hin) | exact (HQ' Hin) | exact (Hrest Hin) ].
Qed.

Lemma parse_space_pair (a : dms_text) (gap : str) (b : dms_text) (w : world) :
  well_formed a = true -> all_blank gap = true -> gap <> [] -> well_formed b = true ->
  parse_coordinates (PyStr (space_pair a gap b)) w =
  (Return (Some (signed_float 83 a), Some (signed_float 87 b)), w).
Proof.
  intros Ha Hgap Hne Hb. apply parse_coordinates_found.
  - apply render_not_empty, Ha.
  - unfold space_pair. rewrite strip_pair by assumption. fold (space_pair a gap b).
    unfold patterns. cbn [try_patterns].
    rewrite search_comma_needs_comma.
    + rewrite (search_here _ _ _ _ (match_here_space_pair a gap b Ha Hgap Hne Hb)).
      rewrite to_decimal_degrees_pair by assumption. reflexivity.
    + unfold space_pair. apply render_no_comma; [exact Ha|]. intros Hin.
      apply in_app_or in Hin as [Hin|Hin].
      * exact (blank_no_comma _ Hgap Hin).
      * revert Hin. apply render_no_comma; [exact Hb | intros []].
Qed.

(** ** Accuracy of the float operations

    The standard rounding-error model: an operation whose exact result is
    [x >= 0] returns a float within a relative error and an absolute error of
    [x], as long as it does not overflow. The constants are not the tightest
    ones; they only use that rounding moves the mantissa by at most one. *)

Lemma digits2_pos_bounds (p : positive) :
  2 ^ (Zpos (digits2_pos p) - 1) <= Zpos p < 2 ^ Zpos (digits2_pos p).
Proof.
  induction p as [p IH|p IH|]; cbn [digits2_pos].
  - rewrite Pos2Z.inj_succ.
    replace (Z.succ (Zpos (digits2_pos p)) - 1) with (Z.succ (Zpos (digits2_pos p) - 1)) by lia.
    rewrite !Z.pow_succ_r by lia. lia.
  - rewrite Pos2Z.inj_succ.
    replace (Z.succ (Zpos (digits2_pos p)) - 1) with (Z.succ (Zpos (digits2_pos p) - 1)) by lia.
    rewrite !Z.pow_succ_r by lia. lia.
  - simpl. lia.
Qed.

Lemma Zdigits2_bounds (m : Z) :
  0 < m -> 2 ^ (Zdigits2 m - 1) <= m < 2 ^ Zdigits2 m.
Proof. destruct m as [|p|p]; try lia. intros _. apply digits2_pos_bounds. Qed.

Lemma Zdigits2_nonneg (m : Z) : 0 <= Zdigits2 m.
Proof. destruct m; simpl; lia. Qed.

Lemma shr_1_half (mrs : shr_record) :
  0 <= shr_m mrs -> shr_m (shr_1 mrs) = shr_m mrs / 2.
Proof.
  destruct mrs as [m r s]. cbn [shr_m]. intros Hm.
  destruct m as [|[p|p|]|p]; cbn [shr_1 shr_m]; try lia; try reflexivity.
  - apply (Z.div_unique (Z.pos p~1) 2 (Z.pos p) 1); lia.
  - apply (Z.div_unique (Z.pos p~0) 2 (Z.pos p) 0); lia.
Qed.

Lemma iter_shr_1 (p : positive) :
  forall mrs, 0 <= shr_m mrs ->
    shr_m (iter_pos shr_1 p mrs) = shr_m mrs / 2 ^ Zpos p.
Proof.
  assert (Hstep : forall mrs, 0 <= shr_m mrs -> 0 <= shr_m (shr_1 mrs)).
  { intros mrs H. rewrite shr_1_half by exact H. apply Z.div_pos; lia. }
  induction p as [p IH|p IH|]; intros mrs Hm; cbn [iter_pos].
  - assert (H1 : 0 <= shr_m (iter_pos shr_1 p (shr_1 mrs))).
    { rewrite IH by auto. apply Z.div_pos; [auto | apply Z.pow_pos_nonneg; lia]. }
    rewrite IH by exact H1. rewrite IH by auto. rewrite shr_1_half by exact Hm.
    rewrite !Z.div_div by (try apply Z.pow_pos_nonneg; lia).
    f_equal. replace (Z.pos p~1) with (1 + Z.pos p + Z.pos p) by lia.
    rewrite !Z.pow_add_r by lia. lia.
  - assert (H1 : 0 <= shr_m (iter_pos shr_1 p mrs)).
    { rewrite IH by auto. apply Z.div_pos; [auto | apply Z.pow_pos_nonneg; lia]. }
    rewrite IH by exact H1. rewrite IH by auto.
    rewrite !Z.div_div by (try apply Z.pow_pos_nonneg; lia).
    f_equal. replace (Z.pos p~0) with (Z.pos p + Z.pos p) by lia.
    rewrite !Z.pow_add_r by lia. lia.
  - rewrite shr_1_half by exact Hm. reflexivity.
Qed.

Lemma shr_record_of_loc_m (m : Z) (l : location) : shr_m (shr_record_of_loc m l) = m.
Proof. destruct l as [|[]]; reflexivity. Qed.

(** The first step of rounding: the mantissa is truncated to the exponent
    [max e (fexp (digits m + e))]. *)
Lemma shr_fexp_spec (m e : Z) (l : location) :
  0 <= m ->
  let e' := Z.max e (fexp prec emax (Zdigits2 m + e)) in
  snd (shr_fexp prec emax m e l) = e' /\
  shr_m (fst (shr_fexp prec emax m e l)) = m / 2 ^ (e' - e).
Proof.
  intros Hm e'. unfold shr_fexp, shr.
  destruct (fexp prec emax (Zdigits2 m + e) - e) as [|p|p] eqn:E; cbn [fst snd].
  - rewrite shr_record_of_loc_m. replace (e' - e) with 0 by lia.
    rewrite Z.div_1_r. split; [lia | reflexivity].
  - rewrite iter_shr_1 by (rewrite shr_record_of_loc_m; exact Hm).
    rewrite shr_record_of_loc_m. replace (e' - e) with (Zpos p) by lia.
    split; [lia | reflexivity].
  - rewrite shr_record_of_loc_m. replace (e' - e) with 0 by lia.
    rewrite Z.div_1_r. split; [lia | reflexivity].
Qed.

Lemma round_nearest_even_bounds (m : Z) (l : location) :
  m <= round_nearest_even m l <= m + 1.
Proof.
  unfold round_nearest_even. destruct l as [|[]]; try lia.
  destruct (Z.even m); lia.
Qed.

Section Accuracy.
Local Open Scope Q_scope.

Lemma pow2_pos (e : Z) : 0 < pow2 e.
Proof. apply Qpower_0_lt. reflexivity. Qed.

Lemma pow2_add (a b : Z) : pow2 (a + b) == pow2 a * pow2 b.
Proof. apply Qpower_plus. discriminate. Qed.

Lemma pow2_le (a b : Z) : (a <= b)%Z -> pow2 a <= pow2 b.
Proof. intros H. apply Qpower_le_compat_l; [exact H | discriminate]. Qed.

Lemma pow2_Z (n : Z) : (0 <= n)%Z -> pow2 n == inject_Z (2 ^ n).
Proof. intros H. unfold pow2. rewrite Zpower_Qpower by exact H. reflexivity. Qed.

Lemma u_rel_pow2 : pow2 (-52) == u_rel.
Proof. reflexivity. Qed.

Lemma eta_pos : 0 < eta.
Proof. apply pow2_pos. Qed.

(** Truncating a mantissa to a coarser exponent keeps the value within one
    unit of the new exponent. *)
Lemma shift_bracket (m e e' : Z) :
  (0 <= m)%Z -> (e <= e')%Z ->
  inject_Z (m / 2 ^ (e' - e)) * pow2 e' <= inject_Z m * pow2 e /\
  inject_Z (m + 1) * pow2 e <= inject_Z (m / 2 ^ (e' - e) + 1) * pow2 e'.
Proof.
  intros Hm He.
  assert (HP : (0 < 2 ^ (e' - e))%Z) by (apply Z.pow_pos_nonneg; lia).
  assert (He' : pow2 e' == inject_Z (2 ^ (e' - e)) * pow2 e).
  { replace e' with ((e' - e) + e)%Z at 1 by lia.
    rewrite pow2_add, pow2_Z by lia. reflexivity. }
  pose proof (Z.mul_div_le m (2 ^ (e' - e)) HP) as H1.
  pose proof (Z.mul_succ_div_gt m (2 ^ (e' - e)) HP) as H2.
  pose proof (pow2_pos e) as Hpe.
  rewrite He', !Qmult_assoc, <- !inject_Z_mult. split.
  - apply Qmult_le_compat_r; [|apply Qlt_le_weak, Hpe].
    rewrite <- Zle_Qle. lia.
  - apply Qmult_le_compat_r; [|apply Qlt_le_weak, Hpe].
    rewrite <- Zle_Qle. lia.
Qed.

(** The unit of the exponent chosen for a mantissa is small against the
    value the mantissa stands for. *)
Lemma fexp_bound (m e : Z) (y : Q) :
  (0 < m)%Z -> inject_Z m * pow2 e <= y ->
  pow2 (fexp prec emax (Zdigits2 m + e)) <= u_rel * y + eta.
Proof.
  intros Hm Hy.
  pose proof (pow2_pos e) as Hpe. pose proof eta_pos as Heta.
  assert (Hy0 : 0 <= y).
  { apply Qle_trans with (inject_Z m * pow2 e); [|exact Hy].
    apply Qmult_le_0_compat; [|apply Qlt_le_weak, Hpe].
    change 0 with (inject_Z 0). rewrite <- Zle_Qle. lia. }
  assert (Hu : 0 <= u_rel * y) by (apply Qmult_le_0_compat; [discriminate | exact Hy0]).
  unfold fexp, emin, prec, emax.
  destruct (Z.max_spec (Zdigits2 m + e - 53) (3 - 1024 - 53)) as [[_ ->]|[_ ->]].
  - change (pow2 (3 - 1024 - 53)) with eta. lra.
  - pose proof (Zdigits2_bounds m Hm) as [Hd Hdb].
    assert (Hdpos : (0 <= Zdigits2 m - 1)%Z).
    { destruct (Z_lt_le_dec (Zdigits2 m - 1) 0) as [Hneg|]; [|assumption].
      exfalso. assert (H0 : Zdigits2 m = 0%Z) by (pose proof (Zdigits2_nonneg m); lia).
      rewrite H0 in Hdb. simpl in Hdb. lia. }
    replace (Zdigits2 m + e - 53)%Z with (-52 + ((Zdigits2 m - 1) + e))%Z by lia.
    rewrite !pow2_add, u_rel_pow2, pow2_Z by exact Hdpos.
    apply Qle_trans with (u_rel * y); [|lra].
    apply Qmult_le_l; [reflexivity|].
    apply Qle_trans with (inject_Z m * pow2 e); [|exact Hy].
    apply Qmult_le_compat_r; [|apply Qlt_le_weak, Hpe].
    rewrite <- Zle_Qle. exact Hd.
Qed.

Lemma fexp_unit_bound (m e : Z) (y : Q) :
  (0 <= m)%Z -> inject_Z m * pow2 e <= y ->
  pow2 (Z.max e (fexp prec emax (Zdigits2 m + e))) <= pow2 e + u_rel * y + eta.
Proof.
  intros Hm Hy.
  pose proof (pow2_pos e) as Hpe. pose proof eta_pos as Heta.
  assert (Hy0 : 0 <= y).
  { apply Qle_trans with (inject_Z m * pow2 e); [|exact Hy].
    apply Qmult_le_0_compat; [|apply Qlt_le_weak, Hpe].
    change 0 with (inject_Z 0). rewrite <- Zle_Qle. exact Hm. }
  assert (Hu : 0 <= u_rel * y) by (apply Qmult_le_0_compat; [discriminate | exact Hy0]).
  destruct (Z.max_spec e (fexp prec emax (Zdigits2 m + e))) as [[_ ->]|[_ ->]]; [|lra].
  destruct (Z.eq_dec m 0) as [->|Hm0].
  - unfold fexp, emin, prec, emax. simpl Zdigits2.
    destruct (Z.max_spec (0 + e - 53) (3 - 1024 - 53)) as [[_ ->]|[_ ->]].
    + change (pow2 (3 - 1024 - 53)) with eta. lra.
    + apply Qle_trans with (pow2 e); [apply pow2_le; lia | lra].
  - apply Qle_trans with (u_rel * y + eta); [|lra].
    apply fexp_bound; [lia | exact Hy].
Qed.

Lemma inject_Z_succ_mult (m : Z) (p : Q) : inject_Z (m + 1) * p == inject_Z m * p + p.
Proof. rewrite inject_Z_plus. change (inject_Z 1) with 1. ring. Qed.

(** The generic rounding lemma: a mantissa-exponent pair that brackets [x]
    is rounded to a float within four units of [x]. *)
Lemma binary_round_aux_error (mx ex : Z) (lx : location) (x : Q) :
  (0 <= mx)%Z ->
  inject_Z mx * pow2 ex <= x -> x <= inject_Z (mx + 1) * pow2 ex ->
  pow2 ex + u_rel * x + eta < pow2 900 ->
  nonneg_finite (binary_round_aux prec emax false mx ex lx) /\
  Qabs (F2Q (binary_round_aux prec emax false mx ex lx) - x)
    <= 4 * (pow2 ex + u_rel * x + eta).
Proof.
  intros Hmx Hlo Hhi HE. unfold binary_round_aux.
  destruct (shr_fexp_spec mx ex lx Hmx) as [He1 Hm1].
  destruct (shr_fexp prec emax mx ex lx) as [mrs1 e1]. cbn [fst snd] in He1, Hm1.
  rewrite <- He1 in Hm1.
  set (m1 := shr_m mrs1) in *.
  pose proof (round_nearest_even_bounds m1 (loc_of_shr_record mrs1)) as Hm2.
  set (m2 := round_nearest_even m1 (loc_of_shr_record mrs1)) in *.
  assert (Hm1pos : (0 <= m1)%Z).
  { rewrite Hm1. apply Z.div_pos; [exact Hmx | apply Z.pow_pos_nonneg; lia]. }
  assert (Hm2pos : (0 <= m2)%Z) by lia.
  destruct (shr_fexp_spec m2 e1 loc_Exact Hm2pos) as [He3 Hm3].
  destruct (shr_fexp prec emax m2 e1 loc_Exact) as [mrs3 e3]. cbn [fst snd] in He3, Hm3.
  rewrite <- He3 in Hm3.
  set (m3 := shr_m mrs3) in *.
  assert (Hm3pos : (0 <= m3)%Z).
  { rewrite Hm3. apply Z.div_pos; [exact Hm2pos | apply Z.pow_pos_nonneg; lia]. }
  destruct (shift_bracket mx ex e1 Hmx ltac:(lia)) as [B1 B2]. rewrite <- Hm1 in B1, B2.
  destruct (shift_bracket m2 e1 e3 Hm2pos ltac:(lia)) as [B3 B4]. rewrite <- Hm3 in B3, B4.
  rewrite (inject_Z_succ_mult mx), (inject_Z_succ_mult m1) in B2.
  rewrite (inject_Z_succ_mult m2), (inject_Z_succ_mult m3) in B4.
  rewrite (inject_Z_succ_mult mx) in Hhi.
  pose proof (pow2_pos ex) as Pex. pose proof (pow2_pos e1) as P1. pose proof (pow2_pos e3) as P3.
  pose proof eta_pos as Heta.
  pose proof (fexp_unit_bound mx ex x Hmx Hlo) as U1. rewrite <- He1 in U1.
  assert (A12 : inject_Z m1 * pow2 e1 <= inject_Z m2 * pow2 e1).
  { apply Qmult_le_compat_r; [rewrite <- Zle_Qle; lia | apply Qlt_le_weak, P1]. }
  assert (A21 : inject_Z m2 * pow2 e1 <= inject_Z m1 * pow2 e1 + pow2 e1).
  { rewrite <- inject_Z_succ_mult.
    apply Qmult_le_compat_r; [rewrite <- Zle_Qle; lia | apply Qlt_le_weak, P1]. }
  assert (A2x : inject_Z m2 * pow2 e1 <= x + pow2 e1) by lra.
  pose proof (fexp_unit_bound m2 e1 (x + pow2 e1) Hm2pos A2x) as U3. rewrite <- He3 in U3.
  assert (Hx0 : 0 <= x).
  { apply Qle_trans with (inject_Z mx * pow2 ex); [|exact Hlo].
    apply Qmult_le_0_compat; [|apply Qlt_le_weak, Pex].
    change 0 with (inject_Z 0). rewrite <- Zle_Qle. exact Hmx. }
  set (E := pow2 ex + u_rel * x + eta) in *.
  assert (HP3 : pow2 e3 <= 3 * E) by (unfold E in *; unfold u_rel in *; lra).
  assert (Herr : - (4 * E) <= inject_Z m3 * pow2 e3 - x <= 4 * E)
    by (unfold E in *; unfold u_rel in *; lra).
  assert (He3max : (e3 <= 971)%Z).
  { destruct (Z_le_gt_dec e3 971) as [|Hbig]; [assumption|exfalso].
    assert (H972 : pow2 972 <= pow2 e3) by (apply pow2_le; lia).
    assert (H902 : pow2 902 <= pow2 972) by (apply pow2_le; lia).
    assert (H4 : pow2 902 == 4 * pow2 900).
    { change 902%Z with (2 + 900)%Z. rewrite pow2_add. reflexivity. }
    unfold E in *. lra. }
  destruct m3 as [|p|p] eqn:Em3; [| |lia].
  - split; [exact I|]. apply Qabs_Qle_condition. cbn [F2Q].
    rewrite Qmult_0_l in Herr. exact Herr.
  - replace (e3 <=? emax - prec)%Z with true
      by (symmetry; apply Z.leb_le; unfold emax, prec; lia).
    split; [exact I|]. apply Qabs_Qle_condition. cbn [F2Q].
    fold (pow2 e3). rewrite Qmult_1_l. exact Herr.
Qed.

(** *** Division *)

Lemma div_bracket (a b q r : Z) (e : Z) :
  (0 < b)%Z -> (a = b * q + r)%Z -> (0 <= r < b)%Z ->
  inject_Z q * pow2 e <= inject_Z a * pow2 e / inject_Z b /\
  inject_Z a * pow2 e / inject_Z b <= inject_Z (q + 1) * pow2 e.
Proof.
  intros Hb Ha Hr. pose proof (pow2_pos e) as Hpe.
  assert (HbQ : 0 < inject_Z b) by (change 0 with (inject_Z 0); rewrite <- Zlt_Qlt; exact Hb).
  split.
  - apply Qle_shift_div_l; [exact HbQ|].
    rewrite <- Qmult_assoc, (Qmult_comm (pow2 e)), Qmult_assoc, <- inject_Z_mult.
    apply Qmult_le_compat_r; [rewrite <- Zle_Qle; nia | apply Qlt_le_weak, Hpe].
  - apply Qle_shift_div_r; [exact HbQ|].
    rewrite <- Qmult_assoc, (Qmult_comm (pow2 e)), Qmult_assoc, <- inject_Z_mult.
    apply Qmult_le_compat_r; [rewrite <- Zle_Qle; nia | apply Qlt_le_weak, Hpe].
Qed.

Lemma inject_Z_pos (p : positive) : 0 < inject_Z (Zpos p).
Proof. change 0 with (inject_Z 0). rewrite <- Zlt_Qlt. lia. Qed.

Lemma digits_pow2_bounds (m : positive) :
  pow2 (Zdigits2 (Zpos m) - 1) <= inject_Z (Zpos m) /\
  inject_Z (Zpos m) <= pow2 (Zdigits2 (Zpos m)).
Proof.
  pose proof (Zdigits2_bounds (Zpos m) ltac:(lia)) as [H1 H2].
  assert (Hd : (0 <= Zdigits2 (Zpos m) - 1)%Z).
  { destruct (Z_lt_le_dec (Zdigits2 (Zpos m) - 1) 0) as [Hneg|]; [|assumption].
    exfalso. assert (H0 : Zdigits2 (Zpos m) = 0%Z)
      by (pose proof (Zdigits2_nonneg (Zpos m)); lia).
    rewrite H0 in H2. simpl in H2. lia. }
  rewrite !pow2_Z by lia. rewrite <- !Zle_Qle. lia.
Qed.

Lemma quotient_lower (m1 m2 : positive) (e1 e2 : Z) :
  pow2 (Zdigits2 (Zpos m1) - 1 + e1 - (Zdigits2 (Zpos m2) + e2))
  <= inject_Z (Zpos m1) * pow2 e1 / (inject_Z (Zpos m2) * pow2 e2).
Proof.
  pose proof (digits_pow2_bounds m1) as [L1 _].
  pose proof (digits_pow2_bounds m2) as [_ U2].
  pose proof (pow2_pos e1) as P1. pose proof (pow2_pos e2) as P2.
  pose proof (inject_Z_pos m2) as M2.
  set (d1 := Zdigits2 (Zpos m1)) in *. set (d2 := Zdigits2 (Zpos m2)) in *.
  pose proof (pow2_pos (d1 - 1 + e1 - (d2 + e2))) as Pq.
  apply Qle_shift_div_l.
  - apply Qmult_lt_0_compat; assumption.
  - apply Qle_trans with (pow2 (d1 - 1 + e1 - (d2 + e2)) * (pow2 d2 * pow2 e2)).
    + apply Qmult_le_l; [exact Pq|].
      apply Qmult_le_compat_r; [exact U2 | apply Qlt_le_weak, P2].
    + rewrite <- !pow2_add.
      replace (d1 - 1 + e1 - (d2 + e2) + (d2 + e2))%Z with ((d1 - 1) + e1)%Z by lia.
      rewrite pow2_add.
      apply Qmult_le_compat_r; [exact L1 | apply Qlt_le_weak, P1].
Qed.

Lemma SFdiv_error (m1 : positive) (e1 : Z) (m2 : positive) (e2 : Z) :
  2 * (u_rel * (inject_Z (Zpos m1) * pow2 e1 / (inject_Z (Zpos m2) * pow2 e2)) + eta)
    < pow2 900 ->
  approximates (inject_Z (Zpos m1) * pow2 e1 / (inject_Z (Zpos m2) * pow2 e2))
    (SFdiv prec emax (S754_finite false m1 e1) (S754_finite false m2 e2)).
Proof.
  set (x := inject_Z (Zpos m1) * pow2 e1 / (inject_Z (Zpos m2) * pow2 e2)).
  intros Hbig. unfold approximates, SFdiv, SFdiv_core_binary. cbn [xorb].
  set (d1 := Zdigits2 (Zpos m1)). set (d2 := Zdigits2 (Zpos m2)).
  set (e' := Z.min (fexp prec emax (d1 + e1 - (d2 + e2))) (e1 - e2)).
  set (s := (e1 - e2 - e')%Z).
  assert (Hs : (0 <= s)%Z) by (unfold s, e'; lia).
  set (m' := match s with
             | 0%Z => Zpos m1
             | Zpos _ => Z.shiftl (Zpos m1) s
             | Zneg _ => 0%Z
             end).
  assert (Hm' : m' = (Zpos m1 * 2 ^ s)%Z).
  { unfold m'. destruct s as [|p|p] eqn:Es; [simpl; lia | | lia].
    rewrite Z.shiftl_mul_pow2 by lia. reflexivity. }
  pose proof (Z_div_mod m' (Zpos m2) ltac:(lia)) as Hdiv.
  destruct (Z.div_eucl m' (Zpos m2)) as [q r]. destruct Hdiv as [Hq Hr].
  assert (Hq0 : (0 <= q)%Z) by nia.
  pose proof (pow2_pos e1) as P1. pose proof (pow2_pos e2) as P2.
  pose proof (pow2_pos e') as Pe'. pose proof (inject_Z_pos m2) as M2.
  pose proof eta_pos as Heta.
  assert (Hx : x == inject_Z m' * pow2 e' / inject_Z (Zpos m2)).
  { unfold x. rewrite Hm', inject_Z_mult, <- pow2_Z by exact Hs.
    assert (E1 : pow2 e1 == pow2 s * pow2 e' * pow2 e2).
    { rewrite <- !pow2_add. replace (s + e' + e2)%Z with e1 by (unfold s; lia). reflexivity. }
    rewrite E1. field. split; intro H0; rewrite H0 in *; lra. }
  destruct (div_bracket m' (Zpos m2) q r e' ltac:(lia) Hq Hr) as [B1 B2].
  rewrite <- Hx in B1, B2.
  assert (Hx0 : 0 <= x) by (apply Qle_trans with (inject_Z q * pow2 e'); [|exact B1];
    apply Qmult_le_0_compat; [change 0 with (inject_Z 0); rewrite <- Zle_Qle; exact Hq0
                             | apply Qlt_le_weak, Pe']).
  assert (Hunit : pow2 e' <= u_rel * x + eta).
  { apply Qle_trans with (pow2 (fexp prec emax (d1 + e1 - (d2 + e2))));
      [apply pow2_le; unfold e'; lia|].
    unfold fexp, emin, prec, emax.
    destruct (Z.max_spec (d1 + e1 - (d2 + e2) - 53) (3 - 1024 - 53)) as [[_ ->]|[_ ->]].
    - change (pow2 (3 - 1024 - 53)) with eta.
      assert (0 <= u_rel * x) by (apply Qmult_le_0_compat; [discriminate | exact Hx0]).
      lra.
    - replace (d1 + e1 - (d2 + e2) - 53)%Z with (-52 + (d1 - 1 + e1 - (d2 + e2)))%Z by lia.
      rewrite pow2_add, u_rel_pow2.
      apply Qle_trans with (u_rel * x); [|lra].
      apply Qmult_le_l; [reflexivity | apply quotient_lower]. }
  destruct (binary_round_aux_error q e' (new_location (Zpos m2) r) x Hq0 B1 B2) as [Hfin Herr].
  - unfold u_rel in *. lra.
  - split; [exact Hfin|].
    eapply Qle_trans; [exact Herr|]. unfold u_rel in *. lra.
Qed.

(** *** Rounding an exact value, addition *)

Lemma iter_xO (m d : positive) : Zpos (Pos.iter xO m d) = (Zpos m * 2 ^ Zpos d)%Z.
Proof.
  induction d as [|d IH] using Pos.peano_ind.
  - simpl. lia.
  - rewrite Pos.iter_succ, Pos2Z.inj_xO, IH, Pos2Z.inj_succ, Z.pow_succ_r by lia. lia.
Qed.

Lemma shl_align_spec (m : positive) (e t : Z) :
  snd (shl_align m e t) = Z.min e t /\
  Zpos (fst (shl_align m e t)) = (Zpos m * 2 ^ (e - Z.min e t))%Z.
Proof.
  unfold shl_align. destruct (t - e)%Z as [|d|d] eqn:E; cbn [fst snd].
  - replace (e - Z.min e t)%Z with 0%Z by lia. split; lia.
  - replace (e - Z.min e t)%Z with 0%Z by lia. split; lia.
  - rewrite iter_xO. replace (e - Z.min e t)%Z with (Zpos d) by lia. split; lia.
Qed.

Lemma approximates_eq (x y : Q) (f : float) :
  x == y -> approximates x f -> approximates y f.
Proof. intros E [H1 H2]. split; [exact H1|]. rewrite <- E. exact H2. Qed.

Lemma F2Q_finite (m : positive) (e : Z) :
  F2Q (S754_finite false m e) == inject_Z (Zpos m) * pow2 e.
Proof. cbn [F2Q]. fold (pow2 e). ring. Qed.

Lemma binary_round_error (p : positive) (e : Z) :
  2 * (u_rel * (inject_Z (Zpos p) * pow2 e) + eta) < pow2 900 ->
  approximates (inject_Z (Zpos p) * pow2 e) (binary_round prec emax false p e).
Proof.
  set (x := inject_Z (Zpos p) * pow2 e). intros Hbig.
  unfold approximates, binary_round.
  change (Zpos (digits2_pos p)) with (Zdigits2 (Zpos p)).
  set (fe := fexp prec emax (Zdigits2 (Zpos p) + e)).
  destruct (shl_align_spec p e fe) as [Hez Hmz].
  destruct (shl_align p e fe) as [mz ez]. cbn [fst snd] in Hez, Hmz.
  pose proof (pow2_pos e) as Pe. pose proof (pow2_pos ez) as Pez.
  pose proof eta_pos as Heta. pose proof (inject_Z_pos p) as Pp.
  assert (Hx : x == inject_Z (Zpos mz) * pow2 ez).
  { unfold x. rewrite Hmz, inject_Z_mult, <- pow2_Z by lia.
    rewrite <- Qmult_assoc, <- pow2_add.
    replace (e - Z.min e fe + ez)%Z with e by lia. reflexivity. }
  assert (Hx0 : 0 < x) by (apply Qmult_lt_0_compat; assumption).
  assert (Hunit : pow2 ez <= u_rel * x + eta).
  { apply Qle_trans with (pow2 fe); [apply pow2_le; lia|].
    apply fexp_bound; [lia | apply Qle_refl]. }
  destruct (binary_round_aux_error (Zpos mz) ez loc_Exact x ltac:(lia)) as [Hfin Herr].
  - rewrite Hx. apply Qle_refl.
  - rewrite inject_Z_succ_mult, <- Hx. lra.
  - unfold u_rel in *. lra.
  - split; [exact Hfin|].
    eapply Qle_trans; [exact Herr|]. unfold u_rel in *. lra.
Qed.

Lemma nonneg_finite_F2Q (f : float) : nonneg_finite f -> 0 <= F2Q f.
Proof.
  destruct f as [[]|[]| |[] m e]; try contradiction; intros _.
  - apply Qle_refl.
  - rewrite F2Q_finite. apply Qlt_le_weak, Qmult_lt_0_compat;
      [apply inject_Z_pos | apply pow2_pos].
Qed.

Lemma approximates_exact (f : float) : nonneg_finite f -> approximates (F2Q f) f.
Proof.
  intros Hf. split; [exact Hf|].
  pose proof (nonneg_finite_F2Q f Hf) as H0. pose proof eta_pos as Heta.
  apply Qabs_Qle_condition. unfold u_rel. lra.
Qed.

Lemma fadd_error (f1 f2 : float) :
  nonneg_finite f1 -> nonneg_finite f2 ->
  2 * (u_rel * (F2Q f1 + F2Q f2) + eta) < pow2 900 ->
  approximates (F2Q f1 + F2Q f2) (fadd f1 f2).
Proof.
  intros H1 H2 Hbig.
  destruct f1 as [[]|[]| |[] m1 e1]; try contradiction;
  destruct f2 as [[]|[]| |[] m2 e2]; try contradiction.
  - apply (approximates_eq (F2Q (S754_zero false))); [cbn [F2Q]; ring|].
    apply approximates_exact. exact I.
  - apply (approximates_eq (F2Q (S754_finite false m2 e2))); [cbn [F2Q]; ring|].
    apply approximates_exact. exact I.
  - apply (approximates_eq (F2Q (S754_finite false m1 e1))); [cbn [F2Q]; ring|].
    apply approximates_exact. exact I.
  - unfold fadd, SFadd. cbn [cond_Zopp].
    destruct (shl_align_spec m1 e1 (Z.min e1 e2)) as [_ Ha].
    destruct (shl_align_spec m2 e2 (Z.min e1 e2)) as [_ Hb].
    set (a := fst (shl_align m1 e1 (Z.min e1 e2))) in *.
    set (b := fst (shl_align m2 e2 (Z.min e1 e2))) in *.
    set (ez := Z.min e1 e2) in *.
    change (Zpos a + Zpos b)%Z with (Zpos (a + b)). cbn [binary_normalize].
    assert (Hx : inject_Z (Zpos (a + b)) * pow2 ez
                 == F2Q (S754_finite false m1 e1) + F2Q (S754_finite false m2 e2)).
    { rewrite !F2Q_finite, Pos2Z.inj_add, inject_Z_plus, Ha, Hb, !inject_Z_mult.
      rewrite <- !pow2_Z by lia.
      replace (pow2 e1) with (pow2 ((e1 - Z.min e1 ez) + ez))
        by (f_equal; unfold ez; lia).
      replace (pow2 e2) with (pow2 ((e2 - Z.min e2 ez) + ez))
        by (f_equal; unfold ez; lia).
      rewrite !pow2_add. ring. }
    apply (approximates_eq _ _ _ Hx). apply binary_round_error.
    rewrite Hx. exact Hbig.
Qed.

(** *** Division of floats, conversion of numerals *)

Lemma fdiv_error (f1 : float) (m2 : positive) (e2 : Z) :
  nonneg_finite f1 ->
  2 * (u_rel * (F2Q f1 / F2Q (S754_finite false m2 e2)) + eta) < pow2 900 ->
  approximates (F2Q f1 / F2Q (S754_finite false m2 e2))
               (fdiv f1 (S754_finite false m2 e2)).
Proof.
  intros H1 Hbig.
  assert (H2 : ~ F2Q (S754_finite false m2 e2) == 0).
  { rewrite F2Q_finite. pose proof (inject_Z_pos m2). pose proof (pow2_pos e2).
    intros E. assert (0 < inject_Z (Zpos m2) * pow2 e2)
      by (apply Qmult_lt_0_compat; assumption). lra. }
  destruct f1 as [[]|[]| |[] m1 e1]; try contradiction.
  - apply (approximates_eq (F2Q (S754_zero false))).
    + cbn [F2Q]. unfold Qdiv. ring.
    + apply approximates_exact. exact I.
  - assert (Hx : inject_Z (Zpos m1) * pow2 e1 / (inject_Z (Zpos m2) * pow2 e2)
                 == F2Q (S754_finite false m1 e1) / F2Q (S754_finite false m2 e2))
      by (rewrite !F2Q_finite; reflexivity).
    apply (approximates_eq _ _ _ Hx). apply SFdiv_error.
    rewrite Hx. exact Hbig.
Qed.

Lemma float_of_ratio_error (n : Z) (d : positive) :
  (0 <= n)%Z ->
  2 * (u_rel * (n # d) + eta) < pow2 900 ->
  approximates (n # d) (float_of_ratio n d).
Proof.
  intros Hn Hbig. destruct n as [|p|p]; [| |lia].
  - apply (approximates_eq (F2Q (S754_zero false))); [reflexivity|].
    apply approximates_exact. exact I.
  - assert (Hx : inject_Z (Zpos p) * pow2 0 / (inject_Z (Zpos d) * pow2 0) == Zpos p # d).
    { change (pow2 0) with 1. rewrite !Qmult_1_r. rewrite (Qmake_Qdiv (Zpos p) d).
      reflexivity. }
    apply (approximates_eq _ _ _ Hx). apply SFdiv_error.
    rewrite Hx. exact Hbig.
Qed.

(** *** The conversion formula *)

Lemma decimal_in_range (runs : list Z) (c : char) (d : Z) :
  decimal_in runs c = Some d -> (0 <= d <= 9)%Z.
Proof.
  induction runs as [|r runs IH]; simpl; [discriminate|].
  destruct ((r <=? c)%Z && (c <=? r + 9)%Z) eqn:E; [|exact IH].
  apply andb_prop in E as [E1 E2]. apply Z.leb_le in E1, E2.
  intros H. injection H as <-. lia.
Qed.

Lemma digits_value_nonneg (x : str) (acc : Z) :
  (0 <= acc)%Z -> (0 <= digits_value acc x)%Z.
Proof.
  revert acc. unfold digits_value.
  induction x as [|c x IH]; intros acc Hacc; cbn [fold_left]; [exact Hacc|].
  apply IH. destruct (decimal c) as [d|] eqn:E; [|lia].
  apply decimal_in_range in E. lia.
Qed.

Lemma eta_small : eta <= 1 # 1000000000000000000000000000000.
Proof. vm_compute. discriminate. Qed.

Lemma pow2_900_big : 4 <= pow2 900.
Proof. change 4 with (pow2 2). apply pow2_le. lia. Qed.

Lemma small_enough (x : Q) :
  0 <= x -> x <= 1000000000 -> 2 * (u_rel * x + eta) < pow2 900.
Proof.
  intros H0 H1. pose proof eta_small. pose proof pow2_900_big. unfold u_rel. lra.
Qed.

Lemma float_of_int_60 : float_of_int 60 = S754_finite false 8444249301319680 (-47).
Proof. vm_compute. reflexivity. Qed.

Lemma float_of_int_3600 : float_of_int 3600 = S754_finite false 7916483719987200 (-41).
Proof. vm_compute. reflexivity. Qed.

Lemma F2Q_60 : F2Q (S754_finite false 8444249301319680 (-47)) == 60.
Proof. vm_compute. reflexivity. Qed.

Lemma F2Q_3600 : F2Q (S754_finite false 7916483719987200 (-41)) == 3600.
Proof. vm_compute. reflexivity. Qed.

Lemma F2Q_fneg (f : float) : F2Q (fneg f) == - F2Q f.
Proof. destruct f as [s|s| |[] m e]; cbn [fneg SFopp F2Q negb]; ring. Qed.

(** degrees + minutes/60 + seconds/3600 in floats, against the exact sum. *)
Lemma dms_sum_error (D M Sn : Z) (Sd : positive) :
  (0 <= D <= 100000000)%Z -> (0 <= M <= 100000000)%Z ->
  (0 <= Sn <= 100000000 * Zpos Sd)%Z ->
  nonneg_finite
    (fadd (fadd (float_of_ratio D 1) (fdiv (float_of_ratio M 1) (float_of_int 60)))
          (fdiv (float_of_ratio Sn Sd) (float_of_int 3600))) /\
  Qabs (F2Q (fadd (fadd (float_of_ratio D 1)
                        (fdiv (float_of_ratio M 1) (float_of_int 60)))
                  (fdiv (float_of_ratio Sn Sd) (float_of_int 3600)))
        - (inject_Z D + inject_Z M / 60 + (Sn # Sd) / 3600)) <= tolerance.
Proof.
  intros HD HM HS. unfold tolerance.
  rewrite float_of_int_60, float_of_int_3600.
  assert (QD : 0 <= inject_Z D <= 100000000).
  { split; [change 0 with (inject_Z 0) | change 100000000 with (inject_Z 100000000)];
      rewrite <- Zle_Qle; lia. }
  assert (QM : 0 <= inject_Z M <= 100000000).
  { split; [change 0 with (inject_Z 0) | change 100000000 with (inject_Z 100000000)];
      rewrite <- Zle_Qle; lia. }
  assert (QS : 0 <= Sn # Sd <= 100000000).
  { split; unfold Qle; cbn [Qnum Qden]; lia. }
  pose proof eta_small as Heta. pose proof eta_pos as Heta0.
  destruct (float_of_ratio_error D 1 ltac:(lia)) as [FD ED].
  { apply small_enough; change (D # 1) with (inject_Z D); lra. }
  change (D # 1) with (inject_Z D) in ED.
  destruct (float_of_ratio_error M 1 ltac:(lia)) as [FM EM].
  { apply small_enough; change (M # 1) with (inject_Z M); lra. }
  change (M # 1) with (inject_Z M) in EM.
  destruct (float_of_ratio_error Sn Sd ltac:(lia)) as [FS ES].
  { apply small_enough; lra. }
  remember (float_of_ratio D 1) as fD eqn:XD. clear XD.
  remember (float_of_ratio M 1) as fM eqn:XM. clear XM.
  remember (float_of_ratio Sn Sd) as fS eqn:XS. clear XS.
  remember (inject_Z D) as qD eqn:XqD. clear XqD.
  remember (inject_Z M) as qM eqn:XqM. clear XqM.
  remember (Sn # Sd) as qS eqn:XqS. clear XqS.
  apply Qabs_Qle_condition in ED. apply Qabs_Qle_condition in EM.
  apply Qabs_Qle_condition in ES. unfold u_rel in ED, EM, ES.
  pose proof (nonneg_finite_F2Q _ FD) as PD. pose proof (nonneg_finite_F2Q _ FM) as PM.
  pose proof (nonneg_finite_F2Q _ FS) as PS.
  remember (F2Q fD) as vD eqn:XvD. remember (F2Q fM) as vM eqn:XvM.
  remember (F2Q fS) as vS eqn:XvS.
  assert (EM60' : vM / 60 == vM * (1 # 60)) by (unfold Qdiv; reflexivity).
  assert (ES3600' : vS / 3600 == vS * (1 # 3600)) by (unfold Qdiv; reflexivity).
  destruct (fdiv_error fM 8444249301319680 (-47) FM) as [FM60 EM60].
  { apply small_enough; rewrite F2Q_60, <- XvM, EM60'; lra. }
  destruct (fdiv_error fS 7916483719987200 (-41) FS) as [FS3600 ES3600].
  { apply small_enough; rewrite F2Q_3600, <- XvS, ES3600'; lra. }
  rewrite F2Q_60, <- XvM, EM60' in EM60. rewrite F2Q_3600, <- XvS, ES3600' in ES3600.
  remember (fdiv fM (S754_finite false 8444249301319680 (-47))) as fM60 eqn:XM60.
  remember (fdiv fS (S754_finite false 7916483719987200 (-41))) as fS3600 eqn:XS3600.
  clear XM60 XS3600.
  apply Qabs_Qle_condition in EM60. apply Qabs_Qle_condition in ES3600.
  unfold u_rel in EM60, ES3600.
  pose proof (nonneg_finite_F2Q _ FM60) as PM60.
  pose proof (nonneg_finite_F2Q _ FS3600) as PS3600.
  remember (F2Q fM60) as vM60 eqn:XvM60. remember (F2Q fS3600) as vS3600 eqn:XvS3600.
  destruct (fadd_error fD fM60 FD FM60) as [F1 E1].
  { apply small_enough; rewrite <- XvD, <- XvM60; lra. }
  rewrite <- XvD, <- XvM60 in E1.
  remember (fadd fD fM60) as f1 eqn:X1. clear X1.
  apply Qabs_Qle_condition in E1. unfold u_rel in E1.
  pose proof (nonneg_finite_F2Q _ F1) as P1.
  remember (F2Q f1) as v1 eqn:Xv1.
  destruct (fadd_error f1 fS3600 F1 FS3600) as [F2 E2].
  { apply small_enough; rewrite <- Xv1, <- XvS3600; lra. }
  rewrite <- Xv1, <- XvS3600 in E2.
  apply Qabs_Qle_condition in E2. unfold u_rel in E2.
  split; [exact F2|].
  remember (F2Q (fadd f1 fS3600)) as v2 eqn:Xv2.
  clear - QD QM QS Heta Heta0 ED EM ES PD PM PS EM60 ES3600 PM60 PS3600 E1 P1 E2.
  apply Qabs_Qle_condition.
  assert (G1 : qM / 60 == qM * (1 # 60)) by (unfold Qdiv; reflexivity).
  assert (G2 : qS / 3600 == qS * (1 # 3600)) by (unfold Qdiv; reflexivity).
  rewrite G1, G2. clear G1 G2.
  remember eta as e eqn:Xe. clear Xe.
  lra.
Qed.

Lemma dms_float_error (d : dms_text) :
  within_limit d = true ->
  nonneg_finite (dms_float d) /\
  Qabs (F2Q (dms_float d) - decimal_degrees d) <= tolerance.
Proof.
  unfold within_limit, magnitude_limit. rewrite !andb_true_iff, !Z.leb_le.
  intros [[HD HM] HS].
  assert (HD0 : (0 <= degrees_of d)%Z) by (apply digits_value_nonneg; lia).
  assert (HM0 : (0 <= minutes_of d)%Z) by (apply digits_value_nonneg; lia).
  assert (HS0 : (0 <= seconds_num d)%Z).
  { unfold seconds_num. destruct (dt_fraction d);
      repeat apply digits_value_nonneg; lia. }
  apply dms_sum_error; lia.
Qed.

End Accuracy.

(** ** The strict pattern against the space-separated pattern, group by group *)

Lemma set_enum (cs : list char) (c : char) :
  atom_match true (ASet cs) c = true ->
  In c (fold_set cs ++ map (fun x => x - 32) (fold_set cs)).
Proof.
  unfold atom_match. intros H. apply mem_char_In in H. unfold sre_lower in H.
  apply in_or_app. destruct ((65 <=? c) && (c <=? 90)).
  - right. apply in_map_iff. exists (c + 32). split; [lia | exact H].
  - left. exact H.
Qed.

(** [apart H]: the class test of the goal fails on [c] because it fails on
    every member of the class that [H] puts [c] in. *)
Ltac apart H :=
  let H' := fresh in
  pose proof H as H';
  first [ apply decimal_enum in H' | apply space_enum in H' | apply set_enum in H' ];
  match type of H' with
  | In ?c ?l =>
      match goal with
      | |- ?b = true =>
          let P := eval pattern c in b in
          match P with
          | ?f _ => apply (class_check f l c); [vm_compute; reflexivity | exact H']
          end
      end
  end.

Lemma star_match_success {A} (a : atom) (s : str) (k : str -> str -> option A) (v : A) :
  (forall t c r, atom_match true a c = true -> k t (c :: r) = None) ->
  star_match true a s k = Some v ->
  exists t rest, s = t ++ rest /\ forallb (atom_match true a) t = true
                 /\ stops a rest = true /\ k t rest = Some v.
Proof.
  revert k. induction s as [|c s IH]; intros k Hk H; simpl in H.
  - exists [], []. auto.
  - destruct (atom_match true a c) eqn:Hc.
    + destruct (star_match true a s (fun taken rest => k (c :: taken) rest)) eqn:E.
      * injection H as ->.
        destruct (IH (fun taken rest => k (c :: taken) rest)) as (t & rest & -> & Ht & Hs & Hv);
          [intros; apply Hk; assumption | exact E |].
        exists (c :: t), rest. simpl. rewrite Hc, Ht. auto.
      * rewrite (Hk [] c s Hc) in H. discriminate.
    + exists [], (c :: s). simpl. rewrite Hc. auto.
Qed.

Lemma rmatch_plus_success {A} (a : atom) (s : str) g
    (k : str -> str -> groups -> option A) (v : A) :
  (forall t c r, atom_match true a c = true -> k t (c :: r) g = None) ->
  rmatch true (RPlus a) s g k = Some v ->
  exists t rest, s = t ++ rest /\ t <> [] /\ forallb (atom_match true a) t = true
                 /\ stops a rest = true /\ k t rest g = Some v.
Proof.
  intros Hk H. simpl in H. destruct s as [|c s]; [discriminate|].
  destruct (atom_match true a c) eqn:Hc; [|discriminate].
  apply star_match_success in H as (t & rest & -> & Ht & Hs & Hv);
    [|intros; apply Hk; assumption].
  exists (c :: t), rest. simpl. rewrite Hc, Ht. repeat split; auto. discriminate.
Qed.

Lemma rmatch_plus_miss {A} (a : atom) (s : str) g (k : str -> str -> groups -> option A) :
  stops a s = true -> rmatch true (RPlus a) s g k = None.
Proof.
  intros Hs. destruct s as [|c s]; simpl; [reflexivity|].
  simpl in Hs. apply negb_true_iff in Hs. rewrite Hs. reflexivity.
Qed.

Lemma rmatch_opt_none {A} (r : regex) (s : str) g (k : str -> str -> groups -> option A) :
  rmatch true r s g k = None -> k [] s g = None -> rmatch true (ROpt r) s g k = None.
Proof. intros H Hk. simpl. rewrite H. exact Hk. Qed.

Lemma blocked_stops (a : atom) (T : regex) (s : str) g v :
  blocked a T -> not_empty T -> rmatch true T s g found = Some v -> stops a s = true.
Proof.
  unfold blocked, not_empty, found. intros Hb Hn H. destruct s as [|c s]; [reflexivity|]. simpl.
  destruct (atom_match true a c) eqn:Hc; [|reflexivity].
  rewrite (Hb c s g Hc) in H. discriminate.
Qed.

Lemma transfers_last (i : nat) (a a' : atom) :
  (forall c, atom_match true a c = true -> atom_match true a' c = true) ->
  transfers (RGroup i (RAtom a)) (RGroup i (RAtom a')).
Proof.
  unfold transfers, found. intros Hsub s g v H. simpl in *. destruct s as [|c s]; [discriminate|].
  destruct (atom_match true a c) eqn:Hc; [|discriminate].
  rewrite (Hsub c Hc). exact H.
Qed.

Lemma transfers_atom (a : atom) (T T' : regex) :
  transfers T T' -> transfers (RAtom a +++ T)%re (RAtom a +++ T')%re.
Proof.
  unfold transfers, found. intros HT s g v H. rewrite rmatch_seq in *. simpl in *.
  destruct s as [|c s]; [discriminate|].
  destruct (atom_match true a c); [|discriminate]. apply HT, H.
Qed.

Lemma transfers_group_atom (i : nat) (a a' : atom) (T T' : regex) :
  (forall c, atom_match true a c = true -> atom_match true a' c = true) ->
  transfers T T' ->
  transfers (RGroup i (RAtom a) +++ T)%re (RGroup i (RAtom a') +++ T')%re.
Proof.
  unfold transfers, found. intros Hsub HT s g v H. rewrite rmatch_seq, rmatch_group in *. simpl in *.
  destruct s as [|c s]; [discriminate|].
  destruct (atom_match true a c) eqn:Hc; [|discriminate].
  rewrite (Hsub c Hc). apply HT, H.
Qed.

Lemma transfers_digits (i : nat) (T T' : regex) :
  blocked ADigit T -> transfers T T' ->
  transfers (RGroup i digits +++ T)%re (RGroup i digits +++ T')%re.
Proof.
  unfold transfers, blocked, found. intros Hb HT s g v H.
  rewrite rmatch_seq, rmatch_group in *. cbv beta in *.
  apply rmatch_plus_success in H as (t & rest & -> & Hne & Ht & Hs & Hv).
  - apply rmatch_plus_run; try assumption. apply HT, Hv.
  - intros t c r Hc. apply Hb, Hc.
Qed.

Lemma transfers_spaces (T T' : regex) :
  blocked ASpace T -> transfers T T' ->
  transfers (RPlus ASpace +++ T)%re (RPlus ASpace +++ T')%re.
Proof.
  unfold transfers, blocked, found. intros Hb HT s g v H.
  rewrite rmatch_seq in *. cbv beta in *.
  apply rmatch_plus_success in H as (t & rest & -> & Hne & Ht & Hs & Hv).
  - apply rmatch_plus_run; try assumption. apply HT, Hv.
  - intros t c r Hc. apply Hb, Hc.
Qed.

Lemma transfers_blanks (T T' : regex) :
  blocked ASpace T -> not_empty T -> transfers T T' ->
  transfers T (blanks +++ T')%re.
Proof.
  intros Hb Hn HT s g v H. pose proof (blocked_stops _ _ _ _ _ Hb Hn H) as Hs.
  unfold transfers, found in *. rewrite rmatch_seq. cbv beta.
  apply (rmatch_blanks_run [] s); [reflexivity | exact Hs | apply HT, H].
Qed.

Lemma transfers_opt_atom (a : atom) (T T' : regex) :
  blocked a T -> not_empty T -> transfers T T' ->
  transfers (ROpt (RAtom a) +++ T)%re (ROpt (RAtom a) +++ T')%re.
Proof.
  unfold transfers, blocked, not_empty, found. intros Hb Hn HT s g v H.
  rewrite rmatch_seq in *. cbv beta in *. cbn [rmatch] in H.
  destruct s as [|c s].
  - apply rmatch_opt_miss; [reflexivity|]. apply HT, H.
  - destruct (atom_match true a c) eqn:Hc.
    + destruct (rmatch true T s g _) eqn:E.
      * injection H as ->. apply rmatch_opt_hit, rmatch_atom_hit; [exact Hc|].
        apply HT, E.
      * rewrite (Hb c s g Hc) in H. discriminate.
    + apply rmatch_opt_miss.
      * apply rmatch_atom_miss. simpl. rewrite Hc. reflexivity.
      * apply HT, H.
Qed.

Lemma transfers_seconds (i : nat) (T T' : regex) :
  blocked ADigit T -> blocked (ASet [c_dot]) T -> not_empty T -> transfers T T' ->
  transfers (RGroup i digits +++ T)%re (RGroup i seconds +++ T')%re.
Proof.
  intros Hb Hdot Hn HT s g v H.
  assert (Hstop : forall rest g0, rmatch true T rest g0 found = Some v ->
                                  stops (ASet [c_dot]) rest = true)
    by (intros rest g0; apply blocked_stops; assumption).
  unfold transfers, blocked, found in *.
  rewrite rmatch_seq, rmatch_group in *. cbv beta in *.
  apply rmatch_plus_success in H as (t & rest & -> & Hne & Ht & Hs & Hv).
  - unfold seconds. rewrite rmatch_seq.
    apply rmatch_plus_run; try assumption.
    apply rmatch_opt_miss.
    + rewrite rmatch_seq. apply rmatch_atom_miss. exact (Hstop _ _ Hv).
    + rewrite app_nil_r. apply HT, Hv.
  - intros t c r Hc. apply Hb, Hc.
Qed.

Ltac blocked_step Hc :=
  match goal with
  | |- rmatch _ (RSeq _ _) _ _ _ = None => rewrite rmatch_seq
  | |- rmatch _ (RGroup _ _) _ _ _ = None => rewrite rmatch_group
  | |- rmatch _ (ROpt _) _ _ _ = None => apply rmatch_opt_none; [|cbv beta]
  | |- rmatch _ _ _ _ _ = None =>
      first [apply rmatch_atom_miss | apply rmatch_plus_miss]; cbn [stops]; apart Hc
  end.

Ltac solve_blocked :=
  let c := fresh "c" in
  let Hc := fresh "Hc" in
  unfold blocked, found; intros c ? ? Hc; repeat blocked_step Hc.

Ltac solve_not_empty := unfold not_empty, found; intros ?; reflexivity.

(** Where the strict pattern matches, the space-separated pattern matches
    with the same groups. *)
Lemma simplified_transfers_to_space : transfers simplified_pattern pattern_space.
Proof.
  unfold simplified_pattern, pattern_space.
  apply transfers_digits; [solve_blocked|].
  apply transfers_atom.
  apply transfers_blanks; [solve_blocked | solve_not_empty |].
  apply transfers_digits; [solve_blocked|].
  apply transfers_atom.
  apply transfers_blanks; [solve_blocked | solve_not_empty |].
  apply transfers_seconds; [solve_blocked | solve_blocked | solve_not_empty |].
  apply transfers_opt_atom; [solve_blocked | solve_not_empty |].
  apply transfers_blanks; [solve_blocked | solve_not_empty |].
  apply transfers_group_atom; [exact NS_is_NSEW|].
  apply transfers_spaces; [solve_blocked|].
  apply transfers_digits; [solve_blocked|].
  apply transfers_atom.
  apply transfers_blanks; [solve_blocked | solve_not_empty |].
  apply transfers_digits; [solve_blocked|].
  apply transfers_atom.
  apply transfers_blanks; [solve_blocked | solve_not_empty |].
  apply transfers_seconds; [solve_blocked | solve_blocked | solve_not_empty |].
  apply transfers_opt_atom; [solve_blocked | solve_not_empty |].
  apply transfers_blanks; [solve_blocked | solve_not_empty |].
  apply transfers_last. exact EW_is_NSEW.
Qed.

Lemma simplified_same_groups (s : str) (m : groups) :
  match_here true simplified_pattern s = Some m ->
  match_here true pattern_space s = Some m.
Proof. apply simplified_transfers_to_space. Qed.

(** ** The groups of a match and their conversion *)

Lemma star_match_some {A} (ic : bool) (a : atom) (s : str)
    (k : str -> str -> option A) (v : A) :
  star_match ic a s k = Some v ->
  exists t rest, s = t ++ rest /\ forallb (atom_match ic a) t = true
                 /\ k t rest = Some v.
Proof.
  revert k. induction s as [|c s IH]; intros k H; simpl in H.
  - exists [], []. auto.
  - destruct (atom_match ic a c) eqn:Hc.
    + destruct (star_match ic a s (fun taken rest => k (c :: taken) rest)) eqn:E.
      * injection H as ->. apply IH in E as (t & rest & -> & Ht & Hk).
        exists (c :: t), rest. simpl. rewrite Hc, Ht. auto.
      * exists [], (c :: s). auto.
    + exists [], (c :: s). auto.
Qed.

Lemma rmatch_captures {A} (ic : bool) (r : regex) :
  forall (s : str) (g : groups) (k : str -> str -> groups -> option A) (v : A),
    rmatch ic r s g k = Some v ->
    exists t rest g', s = t ++ rest /\ captures ic r t g g' /\ k t rest g' = Some v.
Proof.
  induction r as [a|a|a|r IH|r1 IH1 r2 IH2|i r IH]; intros s g k v H; simpl in H.
  - destruct s as [|c s]; [discriminate|].
    destruct (atom_match ic a c) eqn:Hc; [|discriminate].
    exists [c], s, g. simpl. eauto 6.
  - apply star_match_some in H as (t & rest & -> & Ht & Hk).
    exists t, rest, g. simpl. auto.
  - destruct s as [|c s]; [discriminate|].
    destruct (atom_match ic a c) eqn:Hc; [|discriminate].
    apply star_match_some in H as (t & rest & -> & Ht & Hk).
    exists (c :: t), rest, g. simpl. rewrite Hc, Ht.
    repeat split; auto. discriminate.
  - destruct (rmatch ic r s g k) eqn:E.
    + injection H as ->. apply IH in E as (t & rest & g' & -> & Hc & Hk).
      exists t, rest, g'. simpl. auto.
    + exists [], s, g. simpl. auto.
  - apply IH1 in H as (t1 & mid & g1 & -> & H1 & H).
    apply IH2 in H as (t2 & rest & g2 & -> & H2 & H).
    exists (t1 ++ t2), rest, g2. rewrite <- app_assoc. simpl. eauto 10.
  - apply IH in H as (t & rest & g' & -> & Hc & Hk).
    exists t, rest, ((i, t) :: g'). simpl. eauto.
Qed.

Lemma match_here_captures (ic : bool) (r : regex) (s : str) (m : groups) :
  match_here ic r s = Some m ->
  exists t rest, s = t ++ rest /\ captures ic r t [] m.
Proof.
  unfold match_here. intros H.
  apply rmatch_captures in H as (t & rest & g' & -> & Hc & Hk).
  injection Hk as ->. eauto.
Qed.

Lemma search_some (ic : bool) (r : regex) (s : str) (m : groups) :
  search ic r s = Some m ->
  exists pre suf, s = pre ++ suf /\ match_here ic r suf = Some m.
Proof.
  induction s as [|c s IH]; simpl.
  - destruct (match_here ic r []) eqn:E; [|discriminate].
    intros H. injection H as ->. exists [], []. auto.
  - destruct (match_here ic r (c :: s)) eqn:E.
    + intros H. injection H as ->. exists [], (c :: s). auto.
    + intros H. apply IH in H as (pre & suf & -> & H). exists (c :: pre), suf. auto.
Qed.

Lemma captures_no_group (ic : bool) (r : regex) :
  no_group r = true -> forall t g g', captures ic r t g g' -> g' = g.
Proof.
  induction r as [a|a|a|r IH|r1 IH1 r2 IH2|i r IH]; simpl; intros Hn t g g' H.
  - apply H.
  - apply H.
  - apply H.
  - destruct H as [[_ H]|H]; [exact H | eapply IH; eauto].
  - apply andb_prop in Hn as [Hn1 Hn2].
    destruct H as (t1 & t2 & g1 & _ & H1 & H2).
    apply IH1 in H1; [|exact Hn1]. apply IH2 in H2; [|exact Hn2]. congruence.
  - discriminate.
Qed.

Lemma captures_digits (t : str) (g g' : groups) :
  captures true digits t g g' -> is_numeral t = true /\ g' = g.
Proof.
  simpl. intros (Hne & Hd & ->). split; [|reflexivity].
  destruct t as [|c t]; [congruence|exact Hd].
Qed.

Lemma dot_only (c : char) : atom_match true (ASet [c_dot]) c = true -> c = c_dot.
Proof.
  unfold atom_match, mem_char, sre_lower, c_dot.
  replace (fold_set [46]) with [46] by (vm_compute; reflexivity).
  destruct ((65 <=? c) && (c <=? 90)) eqn:E; simpl;
    rewrite orb_false_r, Z.eqb_eq; change (sre_lower 46) with 46;
    intros H; [|exact H].
  apply andb_prop in E as [E1 E2]. apply Z.leb_le in E1, E2. lia.
Qed.

Lemma captures_seconds (t : str) (g g' : groups) :
  captures true seconds t g g' -> seconds_text t /\ g' = g.
Proof.
  unfold seconds. cbn [captures].
  intros (x & y & g1 & -> & Hx & Hy). apply captures_digits in Hx as [Hx ->].
  destruct Hy as [[-> ->]|(p & f & g2 & -> & ((c & -> & Hc) & ->) & Hf)].
  - split; [|reflexivity]. exists x. rewrite app_nil_r. auto.
  - apply captures_digits in Hf as [Hf ->]. apply dot_only in Hc as ->.
    split; [|reflexivity]. exists x. split; [exact Hx|]. right. exists f. auto.
Qed.

Lemma captures_letter (a : atom) (t : str) (g g' : groups) :
  captures true (RAtom a) t g g' -> (exists h, t = [h]) /\ g' = g.
Proof. simpl. intros ((h & -> & _) & ->). eauto. Qed.

Ltac break_captures :=
  repeat match goal with
  | H : exists _, _ |- _ => destruct H
  | H : _ /\ _ |- _ => destruct H
  | H : _ \/ _ |- _ => destruct H
  | H : captures _ (RSeq _ _) _ _ _ |- _ => cbn [captures] in H
  | H : captures _ (RGroup _ _) _ _ _ |- _ => cbn [captures] in H
  | H : captures _ digits _ _ _ |- _ => apply captures_digits in H
  | H : captures _ seconds _ _ _ |- _ => apply captures_seconds in H
  | H : captures _ (RAtom _) _ _ _ |- _ => apply captures_letter in H
  | H : captures _ _ _ _ _ |- _ => apply captures_no_group in H; [|reflexivity]
  end.

Lemma numeral_seconds_text (x : str) : is_numeral x = true -> seconds_text x.
Proof. intros H. exists x. auto. Qed.

Lemma captures_dms_groups (p : regex) (t : str) (m : groups) :
  In p [pattern_comma; pattern_space; simplified_pattern] ->
  captures true p t [] m -> dms_groups m.
Proof.
  intros [<-|[<-|[<-|[]]]]; intros H.
  - unfold pattern_comma in H. break_captures; subst;
      unfold dms_groups; do 8 eexists; (split; [reflexivity|]);
      repeat split; assumption.
  - unfold pattern_space in H. break_captures; subst;
      unfold dms_groups; do 8 eexists; (split; [reflexivity|]);
      repeat split; assumption.
  - unfold simplified_pattern in H. break_captures; subst;
      unfold dms_groups; do 8 eexists; (split; [reflexivity|]);
      repeat split; try assumption; apply numeral_seconds_text; assumption.
Qed.

Lemma py_float_seconds (s : str) : seconds_text s -> exists f, py_float s = Ok f.
Proof.
  intros (x & Hx & [->|(f & Hf & ->)]).
  - rewrite py_float_numeral by exact Hx. eauto.
  - rewrite py_float_fraction by assumption. eauto.
Qed.

Lemma dms_groups_convert (m : groups) :
  dms_groups m -> exists lat lon, to_decimal_degrees m = Ok (Some lat, Some lon).
Proof.
  intros (d1 & m1 & s1 & h1 & d2 & m2 & s2 & h2 & -> & Hd1 & Hm1 & Hs1 & Hd2 & Hm2 & Hs2).
  apply py_float_seconds in Hs1 as (f1 & Hs1), Hs2 as (f2 & Hs2).
  unfold to_decimal_degrees, float_group, upper_group. cbn [group Nat.eqb].
  repeat (first [rewrite py_float_numeral by assumption | rewrite Hs1 | rewrite Hs2];
          cbn [bind]).
  eauto.
Qed.

Lemma search_converts (p : regex) (s : str) (m : groups) :
  In p [pattern_comma; pattern_space; simplified_pattern] ->
  search true p s = Some m ->
  exists lat lon, to_decimal_degrees m = Ok (Some lat, Some lon).
Proof.
  intros Hp H. apply search_some in H as (pre & suf & _ & H).
  apply match_here_captures in H as (t & rest & _ & H).
  eapply dms_groups_convert, captures_dms_groups; eauto.
Qed.

Lemma try_patterns_converts (s : str) :
  try_patterns patterns s = Ok None
  \/ exists lat lon, try_patterns patterns s = Ok (Some (Some lat, Some lon)).
Proof.
  unfold patterns. cbn [try_patterns].
  destruct (search true pattern_comma s) as [m|] eqn:E1.
  - right. apply search_converts in E1 as (lat & lon & ->); [|simpl; auto].
    cbn [bind]. eauto.
  - destruct (search true pattern_space s) as [m|] eqn:E2.
    + right. apply search_converts in E2 as (lat & lon & ->); [|simpl; auto].
      cbn [bind]. eauto.
    + left. reflexivity.
Qed.

(** ** The sign of the float operations *)

Lemma binary_round_aux_nonneg (mx ex : Z) (lx : location) :
  0 <= mx -> nonneg (binary_round_aux prec emax false mx ex lx) = true.
Proof.
  intros Hmx. unfold binary_round_aux.
  destruct (shr_fexp_spec mx ex lx Hmx) as [He1 Hm1].
  destruct (shr_fexp prec emax mx ex lx) as [mrs1 e1]. cbn [fst snd] in He1, Hm1.
  pose proof (round_nearest_even_bounds (shr_m mrs1) (loc_of_shr_record mrs1)) as Hm2.
  assert (Hm1pos : 0 <= shr_m mrs1)
    by (rewrite Hm1; apply Z.div_pos; [exact Hmx | apply Z.pow_pos_nonneg; lia]).

  set (m2 := round_nearest_even (shr_m mrs1) (loc_of_shr_record mrs1)) in *.
  assert (Hm2pos : 0 <= m2) by lia.
  destruct (shr_fexp_spec m2 e1 loc_Exact Hm2pos) as [He3 Hm3].
  destruct (shr_fexp prec emax m2 e1 loc_Exact) as [mrs3 e3]. cbn [fst snd] in He3, Hm3.
  assert (Hm3pos : 0 <= shr_m mrs3)
    by (rewrite Hm3; apply Z.div_pos; [exact Hm2pos | apply Z.pow_pos_nonneg; lia]).
  destruct (shr_m mrs3) as [|p|p]; [reflexivity | | lia].
  destruct (e3 <=? emax - prec); reflexivity.
Qed.

Lemma SFdiv_nonneg (m1 : positive) (e1 : Z) (m2 : positive) (e2 : Z) :
  nonneg (SFdiv prec emax (S754_finite false m1 e1) (S754_finite false m2 e2)) = true.
Proof.
  unfold SFdiv, SFdiv_core_binary. cbn [xorb].
  set (e' := Z.min _ _). set (s := (e1 - e2 - e')%Z).
  assert (Hs : 0 <= s) by (unfold s, e'; lia).
  set (m' := match s with
             | 0 => Zpos m1
             | Zpos _ => Z.shiftl (Zpos m1) s
             | Zneg _ => 0
             end).
  assert (Hm' : m' = Zpos m1 * 2 ^ s).
  { unfold m'. destruct s as [|p|p] eqn:Es; [simpl; lia | | lia].
    rewrite Z.shiftl_mul_pow2 by lia. reflexivity. }
  pose proof (Z_div_mod m' (Zpos m2) ltac:(lia)) as Hdiv.
  destruct (Z.div_eucl m' (Zpos m2)) as [q r]. destruct Hdiv as [Hq Hr].
  assert (Hq0 : 0 <= q) by nia.
  apply binary_round_aux_nonneg, Hq0.
Qed.

Lemma float_of_ratio_nonneg (n : Z) (d : positive) : nonneg (float_of_ratio n d) = true.
Proof. destruct n; [reflexivity | apply SFdiv_nonneg | reflexivity]. Qed.

Lemma fdiv_nonneg (f : float) (m2 : positive) (e2 : Z) :
  nonneg f = true -> nonneg (fdiv f (S754_finite false m2 e2)) = true.
Proof.
  destruct f as [[]|[]| |[] m1 e1]; try discriminate; intros _;
    [reflexivity | reflexivity | apply SFdiv_nonneg].
Qed.

Lemma fadd_nonneg (f1 f2 : float) :
  nonneg f1 = true -> nonneg f2 = true -> nonneg (fadd f1 f2) = true.
Proof.
  destruct f1 as [[]|[]| |[] m1 e1]; try discriminate;
    destruct f2 as [[]|[]| |[] m2 e2]; try discriminate; intros _ _; try reflexivity.
  unfold fadd, SFadd. cbn [cond_Zopp].
  set (a := fst (shl_align m1 e1 (Z.min e1 e2))).
  set (b := fst (shl_align m2 e2 (Z.min e1 e2))).
  change (Zpos a + Zpos b) with (Zpos (a + b)). cbn [binary_normalize].
  unfold binary_round.
  destruct (shl_align (a + b) (Z.min e1 e2) _) as [mz ez].
  apply binary_round_aux_nonneg. lia.
Qed.


Lemma dms_float_nonneg (d : dms_text) : nonneg (dms_float d) = true.
Proof.
  unfold dms_float. rewrite float_of_int_60, float_of_int_3600.
  repeat first [apply fadd_nonneg | apply fdiv_nonneg | apply float_of_ratio_nonneg].
Qed.

(** ** The outcomes of a call *)

Lemma append_text_nil (w : world) : append_text [] w = w.
Proof. destruct w. unfold append_text. cbn. rewrite app_nil_r. reflexivity. Qed.

Lemma append_text_app (a b : str) (w : world) :
  append_text b (append_text a w) = append_text (a ++ b) w.
Proof. unfold append_text. cbn. rewrite app_assoc. reflexivity. Qed.

Lemma print_prints (w : world) (text : str) :
  prints w text = true -> print text w = (Ok tt, printed text w).
Proof.
  unfold prints, print, write, printed.
  destruct (refuses w text); [discriminate|]. cbn [refuses append_text].
  destruct (refuses w [10]); [discriminate|]. intros _.
  rewrite append_text_app. reflexivity.
Qed.

Lemma print_refuses (text : str) (w : world) :
  refuses (snd (print text w)) = refuses w.
Proof.
  unfold print, write. destruct (refuses w text); [reflexivity|].
  cbn [refuses append_text]. destruct (refuses w [10]); reflexivity.
Qed.

Lemma print_raised (text : str) (w : world) (e : exn) (w' : world) :
  print text w = (Raised e, w') -> prints w text = false.
Proof.
  unfold print, write, prints. destruct (refuses w text); [reflexivity|].
  cbn [refuses append_text]. destruct (refuses w [10]); [reflexivity | discriminate].
Qed.

Lemma handler_cases (s : str) (e : exn) (w : world) :
  fst (handler s e w) = Return (None, None) \/ exists e', fst (handler s e w) = Escapes e'.
Proof.
  unfold handler. destruct (print _ w) as [[?|e'] w']; cbn [fst]; eauto.
Qed.

Lemma no_match_cases (s : str) (w : world) :
  fst (no_match s w) = Return (None, None) \/ exists e, fst (no_match s w) = Escapes e.
Proof.
  unfold no_match. destruct (print _ w) as [[?|e] w']; [left; reflexivity|].
  apply handler_cases.
Qed.

Lemma no_match_prints (s : str) (w : world) :
  prints w (no_match_text s) = true ->
  no_match s w = (Return (None, None), printed (no_match_text s) w).
Proof. intros H. unfold no_match. rewrite print_prints by exact H. reflexivity. Qed.

Lemma no_match_refuses (s : str) (w : world) :
  refuses (snd (no_match s w)) = refuses w.
Proof.
  unfold no_match. pose proof (print_refuses (no_match_text s) w) as H.
  destruct (print (no_match_text s) w) as [[?|e] w']; cbn [snd] in *; [exact H|].
  unfold handler.
  pose proof (print_refuses (u "Error processing coordinates: " ++ s ++ u " - " ++ exn_text e) w')
    as H'.
  destruct (print _ w') as [[?|e'] w'']; cbn [snd] in *; congruence.
Qed.

(** The call on a text: the loop decides; its conversion never fails. *)
Lemma parse_coordinates_text (s : str) (w : world) :
  parse_coordinates (PyStr s) w =
  match s with
  | [] => (Return (None, None), w)
  | _ :: _ =>
      match try_patterns patterns (strip s) with
      | Ok (Some v) => (Return v, w)
      | _ => no_match s w
      end
  end.
Proof.
  rewrite parse_coordinates_reduced_eq. unfold parse_coordinates_reduced.
  destruct s as [|c s]; [reflexivity|].
  cbn [truthy isinstance_str negb orb]. unfold try_body_reduced.
  destruct (try_patterns_converts (strip (c :: s))) as [->|(lat & lon & ->)];
    [|reflexivity].
  unfold no_match, no_match_text.
  destruct (print _ w) as [[?|e] w']; reflexivity.
Qed.

Lemma parse_coordinates_not_text (v : pyval) (w : world) :
  isinstance_str v = false -> parse_coordinates v w = (Return (None, None), w).
Proof.
  intros H. unfold parse_coordinates. rewrite H, orb_true_r. reflexivity.
Qed.

Lemma parse_coordinates_refuses (v : pyval) (w : world) :
  refuses (snd (parse_coordinates v w)) = refuses w.
Proof.
  destruct v as [|b|n|f|s]; try (rewrite parse_coordinates_not_text by reflexivity; reflexivity).
  rewrite parse_coordinates_text. destruct s as [|c s]; [reflexivity|].
  destruct (try_patterns patterns (strip (c :: s))) as [[v|]|e];
    [reflexivity | apply no_match_refuses | apply no_match_refuses].
Qed.

Lemma result_of_text (s : str) :
  result_of (PyStr s) =
  match try_patterns patterns (strip s) with
  | Ok (Some v) => Return v
  | _ => Return (None, None)
  end.
Proof.
  unfold result_of. rewrite parse_coordinates_text.
  destruct s as [|c s]; [reflexivity|].
  destruct (try_patterns patterns (strip (c :: s))) as [[v|]|e]; reflexivity.
Qed.

Lemma result_of_paired (v : pyval) :
  result_of v = Return (None, None)
  \/ exists lat lon, result_of v = Return (Some lat, Some lon).
Proof.
  destruct v as [|b|n|f|s];
    try (left; unfold result_of; rewrite parse_coordinates_not_text; reflexivity).
  rewrite result_of_text.
  destruct (try_patterns_converts (strip s)) as [->|(lat & lon & ->)];
    [left; reflexivity | right; eauto].
Qed.

(** On every output the call has the outcome it has when printing succeeds,
    or that outcome is the absent pair and an exception of [print] leaves the
    call. *)
Lemma parse_coordinates_value (v : pyval) (w : world) :
  fst (parse_coordinates v w) = result_of v
  \/ (result_of v = Return (None, None)
      /\ exists e, fst (parse_coordinates v w) = Escapes e).
Proof.
  destruct v as [|b|n|f|s];
    try (left; unfold result_of; rewrite !parse_coordinates_not_text; reflexivity).
  rewrite result_of_text, parse_coordinates_text.
  destruct s as [|c s]; [left; reflexivity|].
  destruct (try_patterns patterns (strip (c :: s))) as [[v|]|e]; [left; reflexivity | |];
    (destruct (no_match_cases (c :: s) w) as [->|E]; [left; reflexivity | right; auto]).
Qed.

Lemma parse_coordinates_agrees (v : pyval) (w : world) :
  agrees (fst (parse_coordinates v w)) (result_of v).
Proof.
  destruct (parse_coordinates_value v w) as [->|(E & e & ->)].
  - destruct (result_of_paired v) as [->|(lat & lon & ->)]; reflexivity.
  - rewrite E. exact I.
Qed.

Lemma agrees_result (v v' : pyval) (w w' : world) :
  result_of v = result_of v' ->
  agrees (fst (parse_coordinates v w)) (fst (parse_coordinates v' w')).
Proof.
  intros E.
  destruct (parse_coordinates_value v w) as [->|(E1 & e1 & ->)];
    destruct (parse_coordinates_value v' w') as [->|(E2 & e2 & ->)].
  - rewrite E. destruct (result_of_paired v') as [->|(lat & lon & ->)]; reflexivity.
  - rewrite E, E2. exact I.
  - rewrite <- E, E1. exact I.
  - exact I.
Qed.

(** Texts that are alike character by character parse to the same value. *)
Lemma alike_parse (s s' : str) :
  Forall2 alike s s' -> result_of (PyStr s) = result_of (PyStr s').
Proof.
  intros Hs. rewrite !result_of_text.
  pose proof (alike_try_patterns s s' Hs) as H.
  destruct (try_patterns patterns (strip s)) as [[v|]|e],
           (try_patterns patterns (strip s')) as [[v'|]|e'];
    cbn [res_rel] in H; try contradiction; try discriminate; try reflexivity.
  injection H as ->. reflexivity.
Qed.

(** *** What a call reads and what it changes

    A call reads of the standard output only which texts it takes, and
    changes of it only the text written. *)
Lemma print_reads (text : str) (w w' : world) :
  (forall t, refuses w t = refuses w' t) ->
  fst (print text w) = fst (print text w')
  /\ forall t, refuses (snd (print text w)) t = refuses (snd (print text w')) t.
Proof.
  intros H. unfold print, write. rewrite <- (H text).
  destruct (refuses w text); [split; [reflexivity | exact H]|].
  cbn [refuses append_text]. rewrite <- (H [10]).
  destruct (refuses w [10]); split; first [reflexivity | exact H].
Qed.

Lemma handler_reads (s : str) (e : exn) (w w' : world) :
  (forall t, refuses w t = refuses w' t) ->
  fst (handler s e w) = fst (handler s e w').
Proof.
  intros H. unfold handler.
  destruct (print_reads (u "Error processing coordinates: " ++ s ++ u " - " ++ exn_text e)
              w w' H) as [E _].
  destruct (print _ w) as [[?|e1] w1], (print _ w') as [[?|e2] w2]; cbn [fst] in *;
    congruence.
Qed.

Lemma no_match_reads (s : str) (w w' : world) :
  (forall t, refuses w t = refuses w' t) ->
  fst (no_match s w) = fst (no_match s w').
Proof.
  intros H. unfold no_match.
  destruct (print_reads (no_match_text s) w w' H) as [E R].
  destruct (print (no_match_text s) w) as [[?|e1] w1],
           (print (no_match_text s) w') as [[?|e2] w2]; cbn [fst snd] in *;
    try discriminate; [reflexivity|].
  injection E as <-. apply handler_reads, R.
Qed.

Lemma parse_coordinates_reads (v : pyval) (w w' : world) :
  (forall t, refuses w t = refuses w' t) ->
  fst (parse_coordinates v w) = fst (parse_coordinates v w').
Proof.
  intros H. destruct v as [|b|n|f|s];
    try (rewrite !parse_coordinates_not_text by reflexivity; reflexivity).
  rewrite !parse_coordinates_text. destruct s as [|c s]; [reflexivity|].
  destruct (try_patterns patterns (strip (c :: s))) as [[v|]|e];
    [reflexivity | apply no_match_reads, H | apply no_match_reads, H].
Qed.

Lemma after_calls_refuses (inputs : list pyval) :
  forall w, refuses (after_calls inputs w) = refuses w.
Proof.
  induction inputs as [|v inputs IH]; intros w; [reflexivity|].
  unfold after_calls in *. cbn [fold_left]. rewrite IH.
  apply parse_coordinates_refuses.
Qed.

Lemma print_appends (text : str) (w : world) :
  exists t, snd (print text w) = append_text t w.
Proof.
  unfold print, write. destruct (refuses w text).
  - exists []. rewrite append_text_nil. reflexivity.
  - cbn [refuses append_text]. destruct (refuses w [10]); cbn [snd].
    + exists text. reflexivity.
    + exists (text ++ [10]). apply append_text_app.
Qed.

Lemma parse_coordinates_appends (v : pyval) (w : world) :
  exists t, snd (parse_coordinates v w) = append_text t w.
Proof.
  assert (N : exists t, w = append_text t w)
    by (exists []; rewrite append_text_nil; reflexivity).
  destruct v as [|b|n|f|s];
    try (rewrite parse_coordinates_not_text by reflexivity; exact N).
  rewrite parse_coordinates_text. destruct s as [|c s]; [exact N|].
  assert (K : exists t, snd (no_match (c :: s) w) = append_text t w).
  { unfold no_match. destruct (print_appends (no_match_text (c :: s)) w) as (t & E).
    destruct (print (no_match_text (c :: s)) w) as [[?|e] w1]; cbn [snd] in *;
      [eauto|]. subst w1. unfold handler.
    destruct (print_appends
                (u "Error processing coordinates: " ++ (c :: s) ++ u " - " ++ exn_text e)
                (append_text t w)) as (t' & E').
    destruct (print _ (append_text t w)) as [[?|e'] w2]; cbn [snd] in *; subst w2;
      exists (t ++ t'); apply append_text_app. }
  destruct (try_patterns patterns (strip (c :: s))) as [[v|]|e]; [exact N | exact K | exact K].
Qed.
(** ** The claims about single inputs and about every input *)

(** C1 (the code departs from it): on the special-case text the function
    returns what the comma-separated pattern computes, 33.776666... and
    -118.283333..., because that pattern matches first; the hard-mapped pair
    (33.77, -118.283333) of line 52 is not returned. *)
Theorem special_case_not_hard_mapped :
  search true pattern_comma (strip special_case) <> None /\
  (forall w,
     parse_coordinates (PyStr special_case) w =
     (Return (Some (S754_finite false 4753643231681795 (-47)),
              Some (S754_finite true 8323449623814690 (-46))), w)) /\
  result_of (PyStr special_case) <>
    Return (Some (float_of_ratio 3377 100),
            Some (fneg (float_of_ratio 118283333 1000000))) /\
  (33776666 # 1000000 <= F2Q (S754_finite false 4753643231681795 (-47))
     < 33776667 # 1000000)%Q.
Proof.
  split; [vm_compute; discriminate|].
  split; [intros w; vm_compute; reflexivity|].
  split; [vm_compute; discriminate|].
  split; [vm_compute; discriminate | vm_compute; reflexivity].
Qed.

Lemma parse_coordinates_escape (v : pyval) (w : world) (e : exn) :
  fst (parse_coordinates v w) = Escapes e ->
  exists s e0 w1,
    v = PyStr s
    /\ print (no_match_text s) w = (Raised e0, w1)
    /\ fst (print (u "Error processing coordinates: " ++ s ++ u " - " ++ exn_text e0) w1)
       = Raised e.
Proof.
  destruct v as [|b|n|f|s];
    try (rewrite parse_coordinates_not_text by reflexivity; discriminate).
  rewrite parse_coordinates_text. destruct s as [|c s]; [discriminate|].
  assert (K : fst (no_match (c :: s) w) = Escapes e ->
              exists s0 e0 w1,
                PyStr (c :: s) = PyStr s0
                /\ print (no_match_text s0) w = (Raised e0, w1)
                /\ fst (print (u "Error processing coordinates: " ++ s0 ++ u " - "
                               ++ exn_text e0) w1) = Raised e).
  { unfold no_match, handler.
    destruct (print (no_match_text (c :: s)) w) as [[?|e0] w1] eqn:P; [discriminate|].
    destruct (print _ w1) as [[?|e'] w2] eqn:P'; cbn [fst]; [discriminate|].
    intros H. injection H as ->. exists (c :: s), e0, w1.
    rewrite P'. auto. }
  destruct (try_patterns patterns (strip (c :: s))) as [[v|]|e1];
    [discriminate | exact K | exact K].
Qed.

Lemma parse_coordinates_returns (v : pyval) (w : world) :
  (forall s, v = PyStr s -> prints w (no_match_text s) = true) ->
  exists r, fst (parse_coordinates v w) = Return r.
Proof.
  intros H. destruct (fst (parse_coordinates v w)) as [r|e] eqn:E; [eauto|].
  apply parse_coordinates_escape in E as (s & e0 & w1 & -> & P & _).
  apply print_raised in P. rewrite H in P by reflexivity. discriminate.
Qed.

(** C3 (as amended): for [None], the empty text and every value that is not
    text the call returns the absent pair and prints nothing. On a standard
    output that takes the could-not-parse text the call returns, whatever
    the input, and for text that is not empty and matches no grammar it
    returns the absent pair after printing that text. An exception leaves
    the call only when the [print] of the could-not-parse text raised and
    the [print] of the handler raised as well; it is the handler's. *)
Theorem parse_coordinates_total :
  (forall v w, v = PyNone \/ v = PyStr [] \/ isinstance_str v = false ->
     parse_coordinates v w = (Return (None, None), w)) /\
  (forall v w, (forall s, v = PyStr s -> prints w (no_match_text s) = true) ->
     exists r, fst (parse_coordinates v w) = Return r) /\
  (forall s w, s <> [] -> matches_no_grammar (strip s) = true ->
     prints w (no_match_text s) = true ->
     parse_coordinates (PyStr s) w =
       (Return (None, None), printed (no_match_text s) w)) /\
  (forall v w e, fst (parse_coordinates v w) = Escapes e ->
     exists s e0 w1,
       v = PyStr s
       /\ print (no_match_text s) w = (Raised e0, w1)
       /\ fst (print (u "Error processing coordinates: " ++ s ++ u " - " ++ exn_text e0) w1)
          = Raised e).
Proof.
  split.
  { intros v w [-> | [-> | H]]; try reflexivity.
    apply parse_coordinates_not_text, H. }
  split; [exact parse_coordinates_returns|].
  split; [|exact parse_coordinates_escape].
  intros s w Hs Hno Hp. unfold matches_no_grammar in Hno.
  destruct (search true pattern_comma (strip s)) eqn:E1; [discriminate|].
  destruct (search true pattern_space (strip s)) eqn:E2; [discriminate|].
  rewrite parse_coordinates_text. destruct s as [|c s]; [congruence|].
  unfold patterns, try_patterns. rewrite E1, E2.
  apply no_match_prints, Hp.
Qed.

Lemma parse_coordinates_total_witness :
  parse_coordinates (PyStr sample_garbage) utf8_output =
    (Return (None, None), printed (no_match_text sample_garbage) utf8_output).
Proof.
  apply (proj1 (proj2 (proj2 parse_coordinates_total)) sample_garbage utf8_output).
  - discriminate.
  - vm_compute. reflexivity.
  - vm_compute. reflexivity.
Defined.

(** C3 as stated fails: on a standard output encoded as UTF-8 the text that
    holds the lone surrogate U+D800 cannot be printed, neither by line 78 nor
    by the handler, and the [UnicodeEncodeError] of the handler's [print]
    leaves the call. *)
Lemma parse_coordinates_raises :
  isinstance_str (PyStr [0xD800]) = true /\
  matches_no_grammar (strip [0xD800]) = true /\
  fst (parse_coordinates (PyStr [0xD800]) utf8_output) =
    Escapes (UnicodeEncodeError
               (u "'utf-8' codec can't encode character '" ++ [92] ++
                u "ud800' in position 30: surrogates not allowed")) /\
  ~ exists r, fst (parse_coordinates (PyStr [0xD800]) utf8_output) = Return r.
Proof.
  assert (E : fst (parse_coordinates (PyStr [0xD800]) utf8_output) =
              Escapes (UnicodeEncodeError
                (u "'utf-8' codec can't encode character '" ++ [92] ++
                 u "ud800' in position 30: surrogates not allowed")))
    by (vm_compute; reflexivity).
  split; [reflexivity|]. split; [vm_compute; reflexivity|]. split; [exact E|].
  intros (r & H). rewrite E in H. discriminate.
Qed.

(** C4: for every input the returned pair has both components present or
    both absent; one present and one absent never occurs. *)
Theorem parse_coordinates_paired (v : pyval) (w : world) :
  both_or_neither (fst (parse_coordinates v w)).
Proof.
  destruct (parse_coordinates_value v w) as [->|(_ & e & ->)]; [|exact I].
  destruct (result_of_paired v) as [->|(lat & lon & ->)]; exact I.
Qed.

(** C5: for every input and output the function does exactly what the parser
    reduced to the comma-separated and the space-separated pattern does: the
    special-case branch and the strict branch never decide the result, since
    a text that contains the special-case text is found by the comma pattern,
    and wherever the strict pattern matches, the space-separated pattern
    matches the same stretch of text with the same captured groups. *)
Theorem parse_coordinates_is_reduced :
  (forall v w, parse_coordinates v w = parse_coordinates_reduced v w) /\
  (forall s, contains special_case s = true -> search true pattern_comma s <> None) /\
  (forall s rest, accepts true simplified_pattern s rest ->
                  accepts true pattern_space s rest) /\
  (forall s m, match_here true simplified_pattern s = Some m ->
               match_here true pattern_space s = Some m) /\
  (forall s, search true simplified_pattern s <> None ->
             search true pattern_space s <> None).
Proof.
  split; [exact parse_coordinates_reduced_eq|].
  split; [exact contains_special_case_found|].
  split; [exact simplified_accepted_by_space|].
  split; [exact simplified_same_groups | exact simplified_found_by_space].
Qed.

Lemma parse_coordinates_is_reduced_witness :
  search true pattern_comma (u "see " ++ special_case) <> None.
Proof.
  apply (proj1 (proj2 parse_coordinates_is_reduced)). vm_compute. reflexivity.
Defined.

(** C6: changing the case of hemisphere letters, at any positions of any
    text, leaves the returned value unchanged: on any two outputs the two
    calls return the same value (or the value is the absent pair and a
    [print] raised), and the outcomes are equal when printing succeeds. The
    upper-case and lower-case sample texts return the same pair, and
    lower-case [s] and [w] negate. *)
Theorem hemisphere_case_insensitive :
  (forall mask s w w',
     agrees (fst (parse_coordinates (PyStr (substitute opposite_case mask s)) w'))
            (fst (parse_coordinates (PyStr s) w))) /\
  (forall mask s,
     result_of (PyStr (substitute opposite_case mask s)) = result_of (PyStr s)) /\
  result_of (PyStr sample_space_lower) = result_of (PyStr sample_space_upper) /\
  result_of (PyStr sample_space_lower) =
    Return (Some (S754_finite false 5748930930581322 (-47)),
            Some (S754_finite true 5916662651078137 (-46))) /\
  result_of (PyStr sample_south_west_lower) =
    Return (Some (S754_finite true 5748930930581322 (-47)),
            Some (S754_finite true 5916662651078137 (-46))).
Proof.
  assert (K : forall mask s,
             result_of (PyStr (substitute opposite_case mask s)) = result_of (PyStr s)).
  { intros mask s. symmetry. apply alike_parse, substitute_alike.
    exact opposite_case_alike. }
  split; [intros mask s w w'; apply agrees_result, K|].
  split; [exact K|].
  repeat split; vm_compute; reflexivity.
Qed.


(** C8: the space-separated sample text is not a comma-separated pair, is
    parsed by the space-separated pattern, and returns 40.848611... and
    -84.080833..., the longitude negated for W. *)
Theorem space_separated_sample :
  search true pattern_comma (strip sample_space_upper) = None /\
  search true pattern_space (strip sample_space_upper) <> None /\
  (forall w,
     parse_coordinates (PyStr sample_space_upper) w =
     (Return (Some (S754_finite false 5748930930581322 (-47)),
              Some (S754_finite true 5916662651078137 (-46))), w)) /\
  (40848611 # 1000000 <= F2Q (S754_finite false 5748930930581322 (-47))
     < 40848612 # 1000000)%Q /\
  (- (84080834 # 1000000) < F2Q (S754_finite true 5916662651078137 (-46))
     <= - (84080833 # 1000000))%Q.
Proof.
  split; [vm_compute; reflexivity|].
  split; [vm_compute; discriminate|].
  split; [intros w; vm_compute; reflexivity|].
  split; (split; [vm_compute | vm_compute]; first [reflexivity | discriminate]).
Qed.



Lemma signed_float_error (negative : char) (d : dms_text) :
  within_limit d = true ->
  (Qabs (F2Q (signed_float negative d) - sign_of negative d * decimal_degrees d)
     <= tolerance)%Q.
Proof.
  intros Hd. destruct (dms_float_error d Hd) as [_ H].
  unfold signed_float, sign_of. destruct (upper_char (dt_hemisphere d) =? negative).
  - rewrite F2Q_fneg.
    setoid_replace (- F2Q (dms_float d) - -1 * decimal_degrees d)%Q
      with (- (F2Q (dms_float d) - decimal_degrees d))%Q by ring.
    rewrite Qabs_opp. exact H.
  - setoid_replace (F2Q (dms_float d) - 1 * decimal_degrees d)%Q
      with (F2Q (dms_float d) - decimal_degrees d)%Q by ring.
    exact H.
Qed.

(** The tolerance holds for every well-formed comma-separated pair whose
    degrees, minutes and seconds are at most 10^8. *)
Lemma dms_pair_within_limit (a : dms_text) (gap : str) (b : dms_text) :
  well_formed a = true -> all_blank gap = true -> well_formed b = true ->
  within_limit a = true -> within_limit b = true ->
  meets_formula a gap b.
Proof.
  intros Ha Hgap Hb La Lb.
  exists (signed_float 83 a), (signed_float 87 b). split.
  - unfold result_of. rewrite parse_comma_pair by assumption. reflexivity.
  - split; apply signed_float_error; assumption.
Qed.

(** A group whose value is at most 180 degrees is within the limit. *)
Lemma in_range_within_limit (d : dms_text) :
  (decimal_degrees d <= 180)%Q -> within_limit d = true.
Proof.
  intros H.
  assert (HD0 : (0 <= degrees_of d)%Z) by (apply digits_value_nonneg; lia).
  assert (HM0 : (0 <= minutes_of d)%Z) by (apply digits_value_nonneg; lia).
  assert (HS0 : (0 <= seconds_num d)%Z).
  { unfold seconds_num. destruct (dt_fraction d);
      repeat apply digits_value_nonneg; lia. }
  unfold decimal_degrees, seconds_of in H.
  assert (QD : (0 <= inject_Z (degrees_of d))%Q)
    by (change 0%Q with (inject_Z 0); rewrite <- Zle_Qle; exact HD0).
  assert (QM : (0 <= inject_Z (minutes_of d))%Q)
    by (change 0%Q with (inject_Z 0); rewrite <- Zle_Qle; exact HM0).
  assert (QS : (0 <= seconds_num d # seconds_den d)%Q)
    by (unfold Qle; cbn [Qnum Qden]; lia).
  remember (inject_Z (degrees_of d)) as qd eqn:Ed.
  remember (inject_Z (minutes_of d)) as qm eqn:Em.
  remember (seconds_num d # seconds_den d) as qs eqn:Es.
  change (qm / 60)%Q with (qm * (1 # 60))%Q in H.
  change (qs / 3600)%Q with (qs * (1 # 3600))%Q in H.
  assert (BD : (qd <= 180)%Q) by lra.
  assert (BM : (qm <= 10800)%Q) by lra.
  assert (BS : (qs <= 648000)%Q) by lra.
  subst qd qm qs.
  change 180%Q with (inject_Z 180) in BD. rewrite <- Zle_Qle in BD.
  change 10800%Q with (inject_Z 10800) in BM. rewrite <- Zle_Qle in BM.
  unfold Qle in BS. cbn [Qnum Qden] in BS.
  unfold within_limit, magnitude_limit.
  rewrite !andb_true_iff, !Z.leb_le. lia.
Qed.

(** C2: for every well-formed comma-separated pair within the geographic
    range, a latitude of at most 90 degrees and a longitude of at most 180
    degrees, the call returns two numbers that are each within 1e-6 of
    sign * (degrees + minutes/60 + seconds/3600), the sign being -1 for a
    first letter S or a second letter W and +1 otherwise. *)
Theorem dms_pair_within_tolerance (a : dms_text) (gap : str) (b : dms_text) :
  well_formed a = true -> all_blank gap = true -> well_formed b = true ->
  (decimal_degrees a <= 90)%Q -> (decimal_degrees b <= 180)%Q ->
  meets_formula a gap b.
Proof.
  intros Ha Hgap Hb Ra Rb.
  apply dms_pair_within_limit; try assumption; apply in_range_within_limit;
    [lra | exact Rb].
Qed.

Lemma dms_pair_within_tolerance_witness :
  meets_formula sample_richmond_north [32] sample_richmond_west.
Proof.
  apply dms_pair_within_tolerance;
    first [vm_compute; reflexivity | vm_compute; discriminate].
Defined.

(** Far outside that range the tolerance is lost to rounding: a well-formed
    pair with 100000000000000001 degrees is returned as 1e17, one whole
    degree away from the formula. *)
Lemma huge_degrees_miss_the_formula :
  well_formed sample_huge_north = true /\ all_blank [32] = true /\
  well_formed sample_zero_east = true /\
  ~ meets_formula sample_huge_north [32] sample_zero_east.
Proof.
  repeat (split; [vm_compute; reflexivity|]).
  intros (lat & lon & Hr & Hlat & _).
  assert (E : result_of (PyStr (comma_pair sample_huge_north [32] sample_zero_east))
              = Return (Some (S754_finite false 6250000000000000 4),
                        Some (S754_zero false)))
    by (vm_compute; reflexivity).
  rewrite E in Hr. injection Hr as <- <-.
  revert Hlat. vm_compute. intros H. apply H. reflexivity.
Qed.

(** The sign that [to_decimal_degrees] gives a well-formed group, by the
    letter as it is written: 83 and 115 are [S] and [s], 87 and 119 are [W]
    and [w]. *)
Lemma signed_float_south (d : dms_text) :
  well_formed d = true ->
  signed_float 83 d =
  if mem_char (dt_hemisphere d) [83; 115] then SFopp (dms_float d) else dms_float d.
Proof.
  intros Hd. unfold well_formed in Hd. rewrite !andb_true_iff in Hd.
  destruct Hd as [_ H]. apply mem_char_In in H. unfold signed_float, fneg.
  unfold hemisphere_letters in H. cbn [In] in H.
  repeat (destruct H as [<-|H]; [reflexivity|]). destruct H.
Qed.

Lemma signed_float_west (d : dms_text) :
  well_formed d = true ->
  signed_float 87 d =
  if mem_char (dt_hemisphere d) [87; 119] then SFopp (dms_float d) else dms_float d.
Proof.
  intros Hd. unfold well_formed in Hd. rewrite !andb_true_iff in Hd.
  destruct Hd as [_ H]. apply mem_char_In in H. unfold signed_float, fneg.
  unfold hemisphere_letters in H. cbn [In] in H.
  repeat (destruct H as [<-|H]; [reflexivity|]). destruct H.
Qed.

(** C10: in both grammars each group takes any of the letters N, S, E, W in
    either case, and the sign follows the letter alone. The magnitude
    [dms_float] of a group is never negative; the first value is its
    negation ([SFopp]) exactly when the first letter is [S] or [s] (83, 115)
    and the second exactly when the second letter is [W] or [w] (87, 119).
    With E on the first group and N on the second the call succeeds and both
    values are positive; so it does with W on the first and S on the second;
    with [s] on the first and [w] on the second both are negative. *)
Theorem hemisphere_letter_alone_decides_sign :
  (forall a gap b w,
     well_formed a = true -> all_blank gap = true -> well_formed b = true ->
     parse_coordinates (PyStr (comma_pair a gap b)) w =
     (Return
        (Some (if mem_char (dt_hemisphere a) [83; 115]
               then SFopp (dms_float a) else dms_float a),
         Some (if mem_char (dt_hemisphere b) [87; 119]
               then SFopp (dms_float b) else dms_float b)), w)) /\
  (forall a gap b w,
     well_formed a = true -> all_blank gap = true -> gap <> [] ->
     well_formed b = true ->
     parse_coordinates (PyStr (space_pair a gap b)) w =
     (Return
        (Some (if mem_char (dt_hemisphere a) [83; 115]
               then SFopp (dms_float a) else dms_float a),
         Some (if mem_char (dt_hemisphere b) [87; 119]
               then SFopp (dms_float b) else dms_float b)), w)) /\
  (forall d, nonneg (dms_float d) = true) /\
  sample_east_north = comma_pair sample_london_east [32] sample_london_north /\
  (forall w,
     parse_coordinates (PyStr sample_east_north) w =
     (Return (Some (S754_finite false 7248997087715292 (-47)),
              Some (S754_finite false 4593671619917906 (-55))), w)) /\
  (forall w,
     parse_coordinates
       (PyStr (comma_pair (dms_sample "51" "30" "26" 87) [32]
                          (dms_sample "0" "7" "39" 83))) w =
     (Return (Some (S754_finite false 7248997087715292 (-47)),
              Some (S754_finite false 4593671619917906 (-55))), w)) /\
  (forall w,
     parse_coordinates
       (PyStr (comma_pair (dms_sample "51" "30" "26" 115) [32]
                          (dms_sample "0" "7" "39" 119))) w =
     (Return (Some (S754_finite true 7248997087715292 (-47)),
              Some (S754_finite true 4593671619917906 (-55))), w)).
Proof.
  split.
  { intros a gap b w Ha Hgap Hb. rewrite parse_comma_pair by assumption.
    rewrite (signed_float_south a Ha), (signed_float_west b Hb). reflexivity. }
  split.
  { intros a gap b w Ha Hgap Hne Hb. rewrite parse_space_pair by assumption.
    rewrite (signed_float_south a Ha), (signed_float_west b Hb). reflexivity. }
  split; [exact dms_float_nonneg|].
  split; [vm_compute; reflexivity|].
  repeat split; intros w; vm_compute; reflexivity.
Qed.

Lemma hemisphere_letter_alone_decides_sign_witness :
  parse_coordinates
    (PyStr (comma_pair (dms_sample "51" "30" "26" 115) [32]
                       (dms_sample "0" "7" "39" 87))) open_output =
  (Return
     (Some (SFopp (dms_float (dms_sample "51" "30" "26" 115))),
      Some (SFopp (dms_float (dms_sample "0" "7" "39" 87)))), open_output).
Proof.
  apply (proj1 hemisphere_letter_alone_decides_sign
           (dms_sample "51" "30" "26" 115) [32] (dms_sample "0" "7" "39" 87)
           open_output);
    vm_compute; reflexivity.
Defined.

(** * Further properties

    Properties of [parse_coordinates] on every input, of the column lookup
    and the coordinate loop of [process_data_file], and of the script of the
    page. *)

(** X1: what a call can do, whatever the argument and the output. It
    returns a pair of two floats and writes nothing; or it returns the absent
    pair and writes nothing; or the argument is a text, and the
    could-not-parse text, which ends with the argument exactly as it was
    passed, is printed by one call of [print] and the absent pair returned;
    or that [print] raised and the handler runs on its exception. The
    conversion of the captured groups never fails: the handler runs only
    after a [print] that raised, and then it prints its own text and returns
    the absent pair, or its own [print] raises and that exception leaves the
    call. *)
Theorem parse_coordinates_outcomes (v : pyval) (w : world) :
  (exists lat lon, parse_coordinates v w = (Return (Some lat, Some lon), w))
  \/ parse_coordinates v w = (Return (None, None), w)
  \/ (exists s,
        v = PyStr s
        /\ ((exists w', print (no_match_text s) w = (Ok tt, w')
                        /\ parse_coordinates v w = (Return (None, None), w'))
            \/ (exists e w', print (no_match_text s) w = (Raised e, w')
                             /\ parse_coordinates v w = handler s e w'))).
Proof.
  destruct v as [|b|n|f|s];
    try (right; left; apply parse_coordinates_not_text; reflexivity).
  rewrite parse_coordinates_text. destruct s as [|c s]; [right; left; reflexivity|].
  destruct (try_patterns_converts (strip (c :: s))) as [->|(lat & lon & ->)];
    [|left; eauto].
  right. right. exists (c :: s). split; [reflexivity|]. unfold no_match.
  destruct (print (no_match_text (c :: s)) w) as [[[]|e] w']; [left | right]; eauto.
Qed.

(** ** Text around the pair *)

Lemma lstrip_app_blank (b s : str) : all_blank b = true -> lstrip (b ++ s) = lstrip s.
Proof.
  induction b as [|c b IH]; simpl; [reflexivity|].
  intros H. apply andb_prop in H as [Hc Hb]. rewrite Hc. auto.
Qed.

Lemma lstrip_all_blank (b : str) : all_blank b = true -> lstrip b = [].
Proof.
  intros H. rewrite <- (app_nil_r b). rewrite lstrip_app_blank by exact H. reflexivity.
Qed.

Lemma lstrip_app_keep (a b : str) :
  all_blank a = false -> lstrip (a ++ b) = lstrip a ++ b.
Proof.
  induction a as [|c a IH]; simpl; [discriminate|].
  destruct (is_space c); simpl; [exact IH | reflexivity].
Qed.

Lemma lstrip_split (s : str) : exists b, all_blank b = true /\ s = b ++ lstrip s.
Proof.
  induction s as [|c s (b & Hb & IH)]; simpl.
  - exists []. auto.
  - destruct (is_space c) eqn:Hc.
    + exists (c :: b). simpl. rewrite Hc, Hb. split; [reflexivity|]. f_equal. exact IH.
    + exists []. auto.
Qed.

Lemma all_blank_rev (b : str) : all_blank (rev b) = all_blank b.
Proof.
  unfold all_blank. induction b as [|c b IH]; simpl; [reflexivity|].
  rewrite forallb_app, IH. simpl. rewrite andb_true_r. apply andb_comm.
Qed.

Lemma rstrip_split (s : str) : exists b, all_blank b = true /\ s = rstrip s ++ b.
Proof.
  destruct (lstrip_split (rev s)) as (b & Hb & E).
  exists (rev b). rewrite all_blank_rev. split; [exact Hb|].
  unfold rstrip. rewrite <- rev_app_distr, <- E, rev_involutive. reflexivity.
Qed.

Lemma rstrip_app_blank (s b : str) : all_blank b = true -> rstrip (s ++ b) = rstrip s.
Proof.
  intros H. unfold rstrip. rewrite rev_app_distr, lstrip_app_blank; [reflexivity|].
  rewrite all_blank_rev. exact H.
Qed.

Lemma rstrip_prefix (x s : str) :
  exists x', (forall P, forallb P x = true -> forallb P x' = true)
             /\ rstrip (x ++ s) = x' ++ rstrip s.
Proof.
  destruct (all_blank (rev s)) eqn:Hs.
  - exists (rstrip x). split.
    + intros P HP. destruct (rstrip_split x) as (b & _ & E).
      rewrite E, forallb_app in HP. apply andb_prop in HP. apply HP.
    + unfold rstrip. rewrite rev_app_distr, lstrip_app_blank by exact Hs.
      rewrite (lstrip_all_blank (rev s)) by exact Hs. simpl. rewrite app_nil_r. reflexivity.
  - exists x. split; [auto|].
    unfold rstrip. rewrite rev_app_distr, lstrip_app_keep by exact Hs.
    rewrite rev_app_distr, rev_involutive. reflexivity.
Qed.

Lemma strip_app_blank (s post : str) : all_blank post = true -> strip (s ++ post) = strip s.
Proof.
  intros H. change (rstrip (lstrip (s ++ post)) = rstrip (lstrip s)).
  destruct (all_blank s) eqn:Hs.
  - rewrite lstrip_app_blank by exact Hs.
    rewrite !lstrip_all_blank by assumption. reflexivity.
  - rewrite lstrip_app_keep by exact Hs. apply rstrip_app_blank, H.
Qed.

Lemma blank_not_decimal (c : char) : is_space c = true -> negb (is_decimal c) = true.
Proof. intros H. by_enum H. Qed.

Lemma blank_digit_free (b : str) : all_blank b = true -> digit_free b = true.
Proof.
  unfold all_blank, digit_free. induction b as [|c b IH]; simpl; [reflexivity|].
  intros H. apply andb_prop in H as [Hc Hb].
  rewrite (blank_not_decimal c Hc), IH by exact Hb. reflexivity.
Qed.

Lemma search_skip (p : regex) (c : char) (t : str) :
  In p patterns -> is_decimal c = false -> search true p (c :: t) = search true p t.
Proof.
  intros Hp Hc. cbn [search].
  assert (E : match_here true p (c :: t) = None).
  { unfold match_here.
    destruct Hp as [<-|[<-|[]]];
      [unfold pattern_comma | unfold pattern_space];
      rewrite rmatch_seq, rmatch_group; apply rmatch_plus_miss;
      simpl; rewrite Hc; reflexivity. }
  rewrite E. reflexivity.
Qed.

Lemma try_patterns_skip (x t : str) :
  digit_free x = true -> try_patterns patterns (x ++ t) = try_patterns patterns t.
Proof.
  unfold digit_free. induction x as [|c x IH]; intros H; [reflexivity|].
  cbn [forallb] in H. apply andb_prop in H as [Hc Hx]. apply negb_true_iff in Hc.
  rewrite <- (IH Hx). cbn [app]. unfold patterns. cbn [try_patterns].
  rewrite !search_skip by (simpl; auto). reflexivity.
Qed.

Lemma try_patterns_strip (z : str) :
  try_patterns patterns (strip z) = try_patterns patterns (rstrip z).
Proof.
  change (strip z) with (rstrip (lstrip z)).
  destruct (lstrip_split z) as (b & Hb & E).
  destruct (rstrip_prefix b (lstrip z)) as (b' & Hb' & E').
  rewrite E at 2. rewrite E'. symmetry. apply try_patterns_skip.
  apply Hb', blank_digit_free, Hb.
Qed.

(** X2: text in front of [s] that holds no decimal digit (a label, a sign,
    blanks) and blanks after [s] do not change the value the call returns. In
    particular a minus sign in front of the degrees is ignored. *)
Theorem surrounding_text_ignored (pre s post : str) :
  digit_free pre = true -> all_blank post = true ->
  result_of (PyStr (pre ++ s ++ post)) = result_of (PyStr s).
Proof.
  intros Hpre Hpost. rewrite !result_of_text.
  rewrite app_assoc, strip_app_blank by exact Hpost.
  rewrite !try_patterns_strip.
  destruct (rstrip_prefix pre s) as (x & Hx & ->).
  rewrite try_patterns_skip; [reflexivity|]. apply Hx, Hpre.
Qed.

Lemma surrounding_text_ignored_witness :
  result_of (PyStr (u "Plant at -" ++ sample_space_upper ++ u "  ")) =
  result_of (PyStr sample_space_upper).
Proof. apply surrounding_text_ignored; reflexivity. Defined.

(** ** A pair inside a longer text *)

Lemma captures_accepts (ic : bool) (r : regex) :
  forall t g g' rest, captures ic r t g g' -> accepts ic r (t ++ rest) rest.
Proof.
  induction r as [a|a|a|r IH|r1 IH1 r2 IH2|i r IH]; simpl; intros t g g' rest H.
  - destruct H as ((c & -> & Hc) & _). exists c. auto.
  - destruct H as (Ht & _). exists t. auto.
  - destruct H as (Hne & Ht & _). destruct t as [|c t]; [congruence|].
    simpl in Ht. apply andb_prop in Ht as [Hc Ht]. exists c, t. auto.
  - destruct H as [[-> _]|H]; [left; reflexivity | right; eapply IH, H].
  - destruct H as (t1 & t2 & g1 & -> & H1 & H2).
    exists (t2 ++ rest). rewrite <- app_assoc. split; [eapply IH1, H1 | eapply IH2, H2].
  - destruct H as (g1 & H & _). eapply IH, H.
Qed.

Lemma captures_first (ic : bool) (r : regex) (a : atom) :
  first_atom r = Some a ->
  forall t g g', captures ic r t g g' ->
  exists c t', t = c :: t' /\ atom_match ic a c = true.
Proof.
  induction r as [b|b|b|r IH|r1 IH1 r2 IH2|i r IH]; simpl; intros Ha t g g' H;
    try discriminate.
  - injection Ha as ->. destruct H as ((c & -> & Hc) & _). eauto.
  - injection Ha as ->. destruct H as (Hne & Ht & _).
    destruct t as [|c t]; [congruence|]. simpl in Ht. apply andb_prop in Ht as [Hc _]. eauto.
  - destruct H as (t1 & t2 & g1 & -> & H1 & _).
    destruct (IH1 Ha _ _ _ H1) as (c & t' & -> & Hc). exists c, (t' ++ t2). auto.
  - destruct H as (g1 & H & _). eapply IH; eauto.
Qed.

Lemma captures_last (ic : bool) (r : regex) (a : atom) :
  last_atom r = Some a ->
  forall t g g', captures ic r t g g' ->
  exists front h, t = front ++ [h] /\ atom_match ic a h = true.
Proof.
  induction r as [b|b|b|r IH|r1 IH1 r2 IH2|i r IH]; simpl; intros Ha t g g' H;
    try discriminate.
  - injection Ha as ->. destruct H as ((c & -> & Hc) & _). exists [], c. auto.
  - injection Ha as ->. destruct H as (Hne & Ht & _).
    destruct (exists_last Hne) as (front & h & ->).
    rewrite forallb_app in Ht. apply andb_prop in Ht as [_ Hh]. simpl in Hh.
    rewrite andb_true_r in Hh. eauto.
  - destruct H as (t1 & t2 & g1 & -> & _ & H2).
    destruct (IH2 Ha _ _ _ H2) as (front & h & -> & Hh).
    exists (t1 ++ front), h. rewrite app_assoc. auto.
  - destruct H as (g1 & H & _). eapply IH; eauto.
Qed.

Lemma lstrip_keeps (x : str) (c : char) (r : str) :
  is_space c = false -> exists x', lstrip (x ++ c :: r) = x' ++ c :: r.
Proof.
  intros Hc. induction x as [|d x (x' & IH)]; simpl.
  - rewrite Hc. exists []. reflexivity.
  - destruct (is_space d); [eauto|]. exists (d :: x). reflexivity.
Qed.

Lemma rstrip_keeps (z : str) (h : char) (y : str) :
  is_space h = false -> exists y', rstrip (z ++ h :: y) = z ++ h :: y'.
Proof.
  intros Hh. unfold rstrip. rewrite rev_app_distr. cbn [rev]. rewrite <- !app_assoc.
  cbn [app]. destruct (lstrip_keeps (rev y) h (rev z) Hh) as (x' & ->).
  exists (rev x'). rewrite rev_app_distr. cbn [rev]. rewrite rev_involutive, <- app_assoc.
  reflexivity.
Qed.

Lemma strip_split (s : str) : exists b1 b2, s = b1 ++ strip s ++ b2.
Proof.
  destruct (lstrip_split s) as (b1 & _ & E1).
  destruct (rstrip_split (lstrip s)) as (b2 & _ & E2).
  exists b1, b2. change (strip s) with (rstrip (lstrip s)). rewrite <- E2. exact E1.
Qed.

Lemma strip_keeps (x t y : str) (c : char) (t0 front : str) (h : char) :
  t = c :: t0 -> t = front ++ [h] -> is_space c = false -> is_space h = false ->
  exists x' y', strip (x ++ t ++ y) = x' ++ t ++ y'.
Proof.
  intros Ec Eh Hc Hh. change (strip (x ++ t ++ y)) with (rstrip (lstrip (x ++ t ++ y))).
  destruct (lstrip_keeps x c (t0 ++ y) Hc) as (x' & E).
  assert (E' : lstrip (x ++ t ++ y) = x' ++ t ++ y) by (rewrite Ec; exact E).
  rewrite E', Eh.
  replace (x' ++ (front ++ [h]) ++ y) with ((x' ++ front) ++ h :: y)
    by (rewrite <- !app_assoc; reflexivity).
  destruct (rstrip_keeps (x' ++ front) h y Hh) as (y' & ->).
  exists x', y'. rewrite <- !app_assoc. reflexivity.
Qed.

Lemma decimal_not_blank (c : char) : is_decimal c = true -> is_space c = false.
Proof. intros H. apply negb_true_iff. by_enum H. Qed.

Lemma hemisphere_not_blank (h : char) :
  atom_match true NSEW h = true -> is_space h = false.
Proof. intros H. apply negb_true_iff. by_enum H. Qed.

Lemma search_in_context (p : regex) (z pre post : str) :
  In p patterns -> search true p (strip z) <> None ->
  search true p (strip (pre ++ z ++ post)) <> None.
Proof.
  intros Hp H. destruct (search true p (strip z)) as [m|] eqn:E; [clear H|congruence].
  apply search_some in E as (pre0 & suf & Ez & E).
  apply match_here_captures in E as (t & rest & -> & Hc).
  assert (Hf : first_atom p = Some ADigit) by (destruct Hp as [<-|[<-|[]]]; reflexivity).
  assert (Hl : last_atom p = Some NSEW) by (destruct Hp as [<-|[<-|[]]]; reflexivity).
  destruct (captures_first _ _ _ Hf _ _ _ Hc) as (c & t0 & Ec & Hd).
  destruct (captures_last _ _ _ Hl _ _ _ Hc) as (front & h & Eh & Hh).
  destruct (strip_split z) as (b1 & b2 & Es). rewrite Ez in Es.
  replace (pre ++ z ++ post)
    with ((pre ++ b1 ++ pre0) ++ t ++ (rest ++ b2 ++ post))
    by (rewrite Es, <- !app_assoc; reflexivity).
  destruct (strip_keeps (pre ++ b1 ++ pre0) t (rest ++ b2 ++ post) c t0 front h Ec Eh)
    as (x' & y' & ->);
    [apply decimal_not_blank, Hd | apply hemisphere_not_blank, Hh |].
  apply search_found. exists x', (t ++ y'). split; [reflexivity|].
  apply match_here_accepts. exists y'. eapply captures_accepts, Hc.
Qed.

Lemma parses_result (s : str) :
  parses (strip s) <->
  exists lat lon, result_of (PyStr s) = Return (Some lat, Some lon).
Proof.
  rewrite result_of_text. unfold parses, patterns. cbn [try_patterns]. split.
  - intros (p & Hp & H).
    destruct (search true pattern_comma (strip s)) as [m|] eqn:E1.
    + apply search_converts in E1 as (lat & lon & ->); [|simpl; auto].
      cbn [bind]. eauto.
    + destruct (search true pattern_space (strip s)) as [m|] eqn:E2.
      * apply search_converts in E2 as (lat & lon & ->); [|simpl; auto].
        cbn [bind]. eauto.
      * destruct Hp as [<-|[<-|[]]]; congruence.
  - intros (lat & lon & H).
    destruct (search true pattern_comma (strip s)) as [m|] eqn:E1.
    + exists pattern_comma. split; [simpl; auto | congruence].
    + destruct (search true pattern_space (strip s)) as [m|] eqn:E2.
      * exists pattern_space. split; [simpl; auto | congruence].
      * discriminate.
Qed.

(** X3: when a text yields a pair of floats, so does every text that
    contains it: nothing put before or after it makes the call return the
    absent pair (the pair returned may be that of another match). *)
Theorem pair_found_in_any_context (pre s post : str) :
  (exists lat lon, result_of (PyStr s) = Return (Some lat, Some lon)) ->
  exists lat lon, result_of (PyStr (pre ++ s ++ post)) = Return (Some lat, Some lon).
Proof.
  intros H. apply parses_result in H as (p & Hp & H).
  apply parses_result. exists p. split; [exact Hp|].
  apply search_in_context; assumption.
Qed.

Lemma pair_found_in_any_context_witness :
  (exists lat lon, result_of (PyStr sample_space_upper) = Return (Some lat, Some lon))
  /\ exists lat lon,
       result_of (PyStr (u "about 12" ++ sample_space_upper ++ u "34 north"))
       = Return (Some lat, Some lon).
Proof.
  assert (H : exists lat lon,
             result_of (PyStr sample_space_upper) = Return (Some lat, Some lon))
    by (vm_compute; eauto).
  split; [exact H|]. apply pair_found_in_any_context. exact H.
Defined.

(** ** [process_data_file]: the key columns *)

Lemma str_eqb_eq (a b : str) : str_eqb a b = true <-> a = b.
Proof.
  revert b. induction a as [|x a IH]; intros [|y b]; simpl; split;
    try discriminate; try reflexivity.
  - intros H. apply andb_prop in H as [Hx Ha]. apply Z.eqb_eq in Hx.
    apply IH in Ha. congruence.
  - intros H. injection H as -> ->. rewrite Z.eqb_refl. apply IH. reflexivity.
Qed.

Lemma mem_str_In (x : str) (xs : list str) : mem_str x xs = true <-> In x xs.
Proof.
  unfold mem_str. rewrite existsb_exists. split.
  - intros (y & Hy & E). apply str_eqb_eq in E. subst y. exact Hy.
  - intros H. exists x. split; [exact H|]. apply str_eqb_eq. reflexivity.
Qed.

Lemma synonyms_disjoint (r r' : role) (x : str) :
  r <> r' -> mem_str x (synonyms r) = true -> mem_str x (synonyms r') = false.
Proof.
  intros Hr H. apply mem_str_In in H.
  destruct r, r'; try congruence; simpl in H;
    repeat (destruct H as [<-|H]; [vm_compute; reflexivity|]); destruct H.
Qed.

Section ColumnsFacts.

Variable py_lower : str -> str.

Lemma find_column_some (names : list str) (columns : list pyval) (s : str) :
  find_column py_lower names columns = Ok (Some s) <->
  exists pre post,
    columns = map PyStr pre ++ PyStr s :: post
    /\ forallb (misses py_lower names) pre = true
    /\ mem_str (py_lower s) names = true.
Proof.
  split.
  - induction columns as [|col columns IH]; simpl; [discriminate|].
    destruct col as [|b|n|f|x]; try discriminate.
    destruct (mem_str (py_lower x) names) eqn:E.
    + intros H. injection H as ->. exists [], columns. auto.
    + intros H. apply IH in H as (pre & post & -> & Hpre & Hs).
      exists (x :: pre), post. simpl. unfold misses at 1. rewrite E. auto.
  - intros (pre & post & -> & Hpre & Hs).
    induction pre as [|x pre IH]; simpl.
    + rewrite Hs. reflexivity.
    + simpl in Hpre. apply andb_prop in Hpre as [Hx Hpre].
      unfold misses in Hx. apply negb_true_iff in Hx. rewrite Hx. auto.
Qed.

Lemma find_column_none (names : list str) (columns : list pyval) :
  find_column py_lower names columns = Ok None <->
  exists pre, columns = map PyStr pre /\ forallb (misses py_lower names) pre = true.
Proof.
  split.
  - induction columns as [|col columns IH]; simpl.
    + intros _. exists []. auto.
    + destruct col as [|b|n|f|x]; try discriminate.
      destruct (mem_str (py_lower x) names) eqn:E; [discriminate|].
      intros H. apply IH in H as (pre & -> & Hpre).
      exists (x :: pre). simpl. unfold misses at 1. rewrite E. auto.
  - intros (pre & -> & Hpre).
    induction pre as [|x pre IH]; simpl; [reflexivity|].
    simpl in Hpre. apply andb_prop in Hpre as [Hx Hpre].
    unfold misses in Hx. apply negb_true_iff in Hx. rewrite Hx. auto.
Qed.

Lemma find_column_raised (names : list str) (columns : list pyval) (e : exn) :
  find_column py_lower names columns = Raised e <->
  exists pre col post,
    columns = map PyStr pre ++ col :: post
    /\ forallb (misses py_lower names) pre = true
    /\ isinstance_str col = false /\ e = no_lower col.
Proof.
  split.
  - induction columns as [|col columns IH]; simpl; [discriminate|].
    destruct col as [|b|n|f|x];
      try (intros H; injection H as <-;
           eexists [], _, columns; repeat split; reflexivity).
    destruct (mem_str (py_lower x) names) eqn:E; [discriminate|].
    intros H. apply IH in H as (pre & col & post & -> & Hpre & Hc & He).
    exists (x :: pre), col, post. simpl. unfold misses at 1. rewrite E. auto.
  - intros (pre & col & post & -> & Hpre & Hc & ->).
    induction pre as [|x pre IH]; simpl.
    + destruct col; try reflexivity. discriminate.
    + simpl in Hpre. apply andb_prop in Hpre as [Hx Hpre].
      unfold misses in Hx. apply negb_true_iff in Hx. rewrite Hx. auto.
Qed.

Lemma find_key_columns_found (columns : list pyval) (k : key_columns) :
  find_key_columns py_lower columns = Ok k ->
  forall r, find_column py_lower (synonyms r) columns = Ok (column_of k r).
Proof.
  unfold find_key_columns. intros H.
  repeat match type of H with
  | bind ?c _ = _ => destruct c eqn:?; cbn [bind] in H; [|discriminate]
  end.
  injection H as <-. intros []; simpl; assumption.
Qed.

(** X4: the column chosen for a list of names is the first label, in the
    order of the columns, whose lower-case form is one of the names; the
    order of the names plays no part, and every label before it is a text
    that misses. The result is [None] exactly when every label is a text
    that misses. *)
Theorem find_column_first_match (names : list str) (columns : list pyval) :
  (forall s,
     find_column py_lower names columns = Ok (Some s) <->
     exists pre post,
       columns = map PyStr pre ++ PyStr s :: post
       /\ forallb (misses py_lower names) pre = true
       /\ mem_str (py_lower s) names = true)
  /\ (find_column py_lower names columns = Ok None <->
      exists pre,
        columns = map PyStr pre
        /\ forallb (misses py_lower names) pre = true).
Proof.
  split; [intros s; apply find_column_some | apply find_column_none].
Qed.

(** X5: the lookup of a column raises exactly when a label that is not a
    text comes before every label that matches: the labels in front of it
    are texts that miss. A table whose header holds a number thus fails for
    each list of names that no earlier label satisfies. *)
Theorem find_column_label_not_text (names : list str) (columns : list pyval) :
  (exists e, find_column py_lower names columns = Raised e) <->
  exists pre col post,
    columns = map PyStr pre ++ col :: post
    /\ forallb (misses py_lower names) pre = true
    /\ isinstance_str col = false.
Proof.
  split.
  - intros (e & H). apply find_column_raised in H as (pre & col & post & H).
    exists pre, col, post. intuition.
  - intros (pre & col & post & H). exists (no_lower col).
    apply find_column_raised. exists pre, col, post. intuition.
Qed.

(** X6: no column is chosen for two roles: the labels found for two
    different roles are different. *)
Theorem key_columns_distinct (columns : list pyval) (k : key_columns)
    (r r' : role) (s s' : str) :
  find_key_columns py_lower columns = Ok k -> r <> r' ->
  column_of k r = Some s -> column_of k r' = Some s' -> s <> s'.
Proof.
  intros Hk Hr Hs Hs' E. subst s'.
  pose proof (find_key_columns_found _ _ Hk r) as F.
  pose proof (find_key_columns_found _ _ Hk r') as F'.
  rewrite Hs in F. rewrite Hs' in F'.
  apply find_column_some in F as (_ & _ & _ & _ & F).
  apply find_column_some in F' as (_ & _ & _ & _ & F').
  rewrite (synonyms_disjoint r r' _ Hr F) in F'. discriminate.
Qed.

End ColumnsFacts.

Lemma key_columns_distinct_witness : u "Owner" <> u "Location".
Proof.
  apply (key_columns_distinct ascii_lower
           [PyStr (u "Owner"); PyStr (u "Location")]
           {| company_col := Some (u "Owner"); coords_col := Some (u "Location");
              planttype_col := None; address_col := None; city_col := None;
              state_col := None; country_col := None; gassource_col := None;
              capacity_col := None |}
           Company Coordinates);
    [reflexivity | discriminate | reflexivity | reflexivity].
Defined.

(** ** [process_data_file]: the coordinate lists *)

Lemma cell_pair_returned (cell : pyval) (w : world) (r : coords) :
  notna cell = true -> fst (parse_coordinates cell w) = Return r -> cell_pair cell = r.
Proof.
  intros N H. unfold cell_pair. rewrite N.
  destruct (parse_coordinates_value cell w) as [E|(_ & e & E)]; rewrite E in H;
    [rewrite H; reflexivity | discriminate].
Qed.

(** When the loop ends, the lists hold the pair of each cell, row by row. *)
Lemma coordinate_loop_lists (c : char) (label : str) (cells : list pyval) :
  forall (lats lons : list (option float)) (w : world)
         (lats' lons' : list (option float)) (w' : world),
    coordinate_loop (Some (c :: label)) cells lats lons w = (Ok (lats', lons'), w') ->
    lats' = lats ++ map (fun x => fst (cell_pair x)) cells
    /\ lons' = lons ++ map (fun x => snd (cell_pair x)) cells.
Proof.
  induction cells as [|cell cells IH]; intros lats lons w lats' lons' w' H.
  - cbn in H. injection H as <- <- _. rewrite !app_nil_r. auto.
  - cbn [coordinate_loop present truthy andb] in H. cbn [map].
    destruct (notna cell) eqn:N.
    + destruct (parse_coordinates cell w) as [[[lat lon]|e] w1] eqn:P; [|discriminate].
      apply IH in H as [-> ->].
      rewrite (cell_pair_returned cell w (lat, lon) N) by (rewrite P; reflexivity).
      cbn [fst snd]. rewrite <- !app_assoc. auto.
    + apply IH in H as [-> ->].
      assert (E : cell_pair cell = (None, None))
        by (unfold cell_pair; rewrite N; reflexivity).
      rewrite E. cbn [fst snd]. rewrite <- !app_assoc. auto.
Qed.

Lemma cell_pair_paired (x : pyval) :
  fst (cell_pair x) = None <-> snd (cell_pair x) = None.
Proof.
  unfold cell_pair. destruct (notna x); [|tauto].
  destruct (result_of_paired x) as [->|(lat & lon & ->)]; simpl; [tauto|].
  split; discriminate.
Qed.

Lemma cell_pair_some (x : pyval) :
  (exists lat, fst (cell_pair x) = Some lat) <->
  exists s, x = PyStr s /\ parses (strip s).
Proof.
  split.
  - intros (lat & H). unfold cell_pair in H.
    destruct (notna x); [|discriminate].
    destruct x as [|b|n|f|s];
      try (unfold result_of in H; rewrite parse_coordinates_not_text in H by reflexivity;
           discriminate).
    exists s. split; [reflexivity|]. apply parses_result.
    destruct (result_of_paired (PyStr s)) as [E|E]; [|exact E].
    rewrite E in H. discriminate.
  - intros (s & -> & H). apply parses_result in H as (lat & lon & H).
    exists lat. unfold cell_pair. cbn [notna]. rewrite H. reflexivity.
Qed.

(** One cell on an output that takes its could-not-parse text. *)
Lemma parse_cell_prints (cell : pyval) (w : world) :
  (forall s, In s (unparsed [cell]) -> prints w (no_match_text s) = true) ->
  exists r,
    parse_coordinates cell w =
    (Return r, append_text (flat_map (fun s => no_match_text s ++ [10]) (unparsed [cell])) w).
Proof.
  unfold unparsed. cbn [flat_map]. rewrite app_nil_r.
  destruct cell as [|b|n|f|s];
    try (intros _; rewrite parse_coordinates_not_text by reflexivity;
         cbn [flat_map]; rewrite append_text_nil; eauto).
  destruct s as [|c s].
  - intros _. rewrite parse_coordinates_text. cbn [flat_map].
    rewrite append_text_nil. eauto.
  - rewrite result_of_text, parse_coordinates_text.
    destruct (try_patterns_converts (strip (c :: s))) as [->|(lat & lon & ->)].
    + intros H. rewrite no_match_prints by (apply H; left; reflexivity).
      cbn [flat_map]. rewrite app_nil_r. unfold printed. eauto.
    + intros _. cbn [flat_map]. rewrite append_text_nil. eauto.
Qed.

Lemma unparsed_cons (cell : pyval) (cells : list pyval) :
  unparsed (cell :: cells) = unparsed [cell] ++ unparsed cells.
Proof. unfold unparsed. cbn [flat_map]. rewrite app_nil_r. reflexivity. Qed.

Lemma unparsed_na (cell : pyval) : notna cell = false -> unparsed [cell] = [].
Proof. destruct cell as [| | |[]|]; try discriminate; reflexivity. Qed.

(** The loop on an output that takes the could-not-parse text of its
    cells. *)
Lemma coordinate_loop_prints (c : char) (label : str) (cells : list pyval) :
  forall (lats lons : list (option float)) (w : world),
    (forall s, In s (unparsed cells) -> prints w (no_match_text s) = true) ->
    exists lats' lons',
      coordinate_loop (Some (c :: label)) cells lats lons w =
      (Ok (lats', lons'),
       append_text (flat_map (fun s => no_match_text s ++ [10]) (unparsed cells)) w).
Proof.
  induction cells as [|cell cells IH]; intros lats lons w H.
  - cbn. rewrite append_text_nil. eauto.
  - rewrite unparsed_cons in *. rewrite flat_map_app, <- append_text_app.
    cbn [coordinate_loop present truthy andb].
    destruct (notna cell) eqn:N.
    + destruct (parse_cell_prints cell w) as ([lat lon] & ->);
        [intros s Hs; apply H, in_or_app; auto|].
      apply IH. intros s Hs. exact (H s (in_or_app _ _ _ (or_intror Hs))).
    + rewrite (unparsed_na cell N). cbn [flat_map]. rewrite append_text_nil.
      apply IH. intros s Hs. apply H. rewrite (unparsed_na cell N). exact Hs.
Qed.

(** The loop does not catch: a cell whose call raises ends it with that
    exception, here a lone surrogate on an output encoded as UTF-8, after a
    row that was parsed. *)
Lemma coordinate_loop_raises :
  fst (coordinate_loop (Some (u "Location"))
         [PyStr sample_space_upper; PyStr [0xD800]; PyStr sample_garbage] [] []
         utf8_output)
  = Raised (UnicodeEncodeError
              (u "'utf-8' codec can't encode character '" ++ [92] ++
               u "ud800' in position 30: surrogates not allowed")).
Proof. vm_compute. reflexivity. Qed.

(** X7: when the loop over the coordinates column ends without an
    exception, each of the two lists has one entry for each row, and a row
    has no latitude exactly when it has no longitude. *)
Theorem coordinate_lists_aligned (c : char) (label : str) (cells : list pyval)
    (w : world) (lats lons : list (option float)) (w' : world) :
  coordinate_loop (Some (c :: label)) cells [] [] w = (Ok (lats, lons), w') ->
  List.length lats = List.length cells
  /\ List.length lons = List.length cells
  /\ forall i, nth_error lats i = Some None <-> nth_error lons i = Some None.
Proof.
  intros H. apply coordinate_loop_lists in H as [-> ->]. cbn [app].
  rewrite !length_map. repeat split; rewrite !nth_error_map;
    destruct (nth_error cells i) as [x|]; simpl; try discriminate;
    intros H; injection H as H; f_equal; apply cell_pair_paired, H.
Qed.

Lemma coordinate_lists_aligned_witness :
  List.length [fst (cell_pair (PyStr sample_space_upper)); None; None]
  = List.length sample_cells
  /\ List.length [snd (cell_pair (PyStr sample_space_upper)); None; None]
     = List.length sample_cells
  /\ forall i,
       nth_error [fst (cell_pair (PyStr sample_space_upper)); None; None] i = Some None
       <-> nth_error [snd (cell_pair (PyStr sample_space_upper)); None; None] i = Some None.
Proof.
  apply (coordinate_lists_aligned 76 (u "ocation") sample_cells utf8_output _ _
           (snd (coordinate_loop (Some (u "Location")) sample_cells [] [] utf8_output))).
  vm_compute. reflexivity.
Defined.

(** X8: when the loop ends without an exception, a row has a latitude
    exactly when its cell is a text in which one of the two patterns matches;
    missing cells, numbers, booleans and all other text give [None]. *)
Theorem coordinates_only_from_parsed_text (c : char) (label : str)
    (cells : list pyval) (w : world) (lats lons : list (option float)) (w' : world) :
  coordinate_loop (Some (c :: label)) cells [] [] w = (Ok (lats, lons), w') ->
  forall i,
    (exists lat, nth_error lats i = Some (Some lat)) <->
    (exists s, nth_error cells i = Some (PyStr s) /\ parses (strip s)).
Proof.
  intros H i. apply coordinate_loop_lists in H as [-> _]. cbn [app].
  rewrite nth_error_map.
  destruct (nth_error cells i) as [x|]; simpl.
  - split.
    + intros (lat & H). injection H as H.
      destruct (proj1 (cell_pair_some x)) as (s & -> & Hs); eauto.
    + intros (s & H & Hs). injection H as ->.
      destruct (proj2 (cell_pair_some (PyStr s))) as (lat & ->); eauto.
  - split; [intros (lat & H) | intros (s & H & _)]; discriminate.
Qed.

Lemma coordinates_only_from_parsed_text_witness :
  (exists lat,
     nth_error [fst (cell_pair (PyStr sample_space_upper)); None; None] 0 = Some (Some lat))
  <-> (exists s, nth_error sample_cells 0 = Some (PyStr s) /\ parses (strip s)).
Proof.
  apply (coordinates_only_from_parsed_text 76 (u "ocation") sample_cells utf8_output _
           [snd (cell_pair (PyStr sample_space_upper)); None; None]
           (snd (coordinate_loop (Some (u "Location")) sample_cells [] [] utf8_output))).
  vm_compute. reflexivity.
Defined.

(** X9: on a standard output that takes the could-not-parse text of every
    cell that is a non-empty text without a pair, the loop ends without an
    exception and has written exactly these texts, each followed by a line
    feed, in the order of the rows. *)
Theorem coordinate_loop_diagnostics (c : char) (label : str) (cells : list pyval)
    (w : world) :
  (forall s, In s (unparsed cells) -> prints w (no_match_text s) = true) ->
  exists lats lons,
    coordinate_loop (Some (c :: label)) cells [] [] w =
    (Ok (lats, lons),
     append_text (flat_map (fun s => no_match_text s ++ [10]) (unparsed cells)) w).
Proof. apply coordinate_loop_prints. Qed.

Lemma coordinate_loop_diagnostics_witness :
  exists lats lons,
    coordinate_loop (Some (u "Location")) sample_cells [] [] utf8_output =
    (Ok (lats, lons),
     append_text (flat_map (fun s => no_match_text s ++ [10]) (unparsed sample_cells))
                 utf8_output).
Proof.
  apply (coordinate_loop_diagnostics 76 (u "ocation") sample_cells utf8_output).
  intros s H. vm_compute in H. destruct H as [<-|[]]. vm_compute. reflexivity.
Defined.

(** ** The script of the page *)

Lemma or_empty_id (s : str) : or_empty s = s.
Proof. destruct s; reflexivity. Qed.

Lemma with_icon_total (ms : list marker) :
  (List.length (with_icon Sulfur ms) + List.length (with_icon Metallurgical ms)
   + List.length (with_icon Regeneration ms) + List.length (with_icon OtherKind ms))%nat
  = List.length ms.
Proof.
  unfold with_icon. induction ms as [|m ms IH]; [reflexivity|].
  cbn [filter]. destruct (icon m); cbn [plant_kind_eqb List.length]; lia.
Qed.

Section PageFacts.

Variable toLowerCase : str -> str.

Lemma keeps_cases (ui : controls) (st : stats) (p : producer) :
  keeps toLowerCase ui st p = (false, st)
  \/ (no_position p = false
      /\ exists m c,
           createMarker toLowerCase p = Some m
           /\ usable (position m) = true
           /\ keeps toLowerCase ui st p = (true, count_in st (icon m) c)).
Proof.
  unfold keeps, createMarker. fold (no_position p). rewrite !or_empty_id.
  destruct (no_position p) eqn:Hp; [left; reflexivity|].
  assert (Hu : usable (latitude p, longitude p) = true).
  { unfold no_position in Hp. unfold usable. cbn [fst snd].
    destruct (js_not (latitude p)); [discriminate|].
    destruct (js_not (longitude p)); [discriminate|]. reflexivity. }
  set (pt := toLowerCase (plantType p)). set (cl := toLowerCase (country p)).
  destruct (includes pt (u "sulfur"));
    [|destruct (includes pt (u "metallurgical"));
      [|destruct (includes pt (u "regeneration") || includes pt (u "regenerat"))]];
    (destruct (includes cl (u "usa") || includes cl (u "united states"));
      [|destruct (includes cl (u "canada")); [|destruct (includes cl (u "mexico"))]]);
    cbv zeta;
    match goal with
    | |- context [if ?b then (true, _) else (false, _)] =>
        destruct b; [right; split; [reflexivity|]; do 2 eexists;
                     split; [reflexivity|]; split; [exact Hu | reflexivity]
                    | left; reflexivity]
    end.
Qed.

Lemma filter_producers_counts (ui : controls) (data : list producer) :
  forall st out st',
    filter_producers toLowerCase ui data st = (out, st') ->
    (forall k, types st' k
               = (types st k + List.length (with_icon k (markers_of toLowerCase out)))%nat)
    /\ countries_total st' = (countries_total st + List.length out)%nat
    /\ List.length (markers_of toLowerCase out) = List.length out
    /\ Forall (fun p => no_position p = false) out
    /\ Forall (fun m => usable (position m) = true) (markers_of toLowerCase out).
Proof.
  induction data as [|p data IH]; intros st out st' H; cbn [filter_producers] in H.
  - injection H as <- <-. cbn. repeat split; auto.
  - destruct (keeps_cases ui st p) as [E|(Hp & m & c & Hm & Hu & E)];
      rewrite E in H;
      destruct (filter_producers toLowerCase ui data) as [out1 st2] eqn:F;
      injection H as <- <-.
    + apply (IH _ _ _ F).
    + destruct (IH _ _ _ F) as (Ht & Hc & Hl & Hf & Hg).
      unfold markers_of in *. cbn [flat_map]. rewrite Hm.
      cbn [app List.length with_icon filter]. fold (with_icon).
      repeat split.
      * intros k. rewrite Ht. cbn [count_in types].
        unfold with_icon. cbn [filter].
        destruct (plant_kind_eqb (icon m) k); cbn [List.length]; lia.
      * rewrite Hc. unfold countries_total. cbn [count_in countries].
        destruct c; cbn [country_kind_eqb]; lia.
      * rewrite Hl. reflexivity.
      * constructor; assumption.
      * constructor; assumption.
Qed.

Lemma addAllMarkers_counts (ui : controls) (data : list producer) :
  let r := addAllMarkers toLowerCase ui data in
  (forall k, types (shown_stats r) k = List.length (with_icon k (layers r)))
  /\ countries_total (shown_stats r) = List.length (plant_list r)
  /\ List.length (layers r) = List.length (plant_list r)
  /\ Forall (fun p => no_position p = false) (plant_list r)
  /\ Forall (fun m => usable (position m) = true) (layers r).
Proof.
  unfold addAllMarkers.
  destruct (filter_producers toLowerCase ui data no_stats) as [out st] eqn:F.
  apply filter_producers_counts in F as (Ht & Hc & Hl & Hf & Hg).
  cbn [layers shown_stats plant_list]. fold (markers_of toLowerCase out).
  repeat split; assumption.
Qed.

(** X11: after [addAllMarkers] the [Total] of the plant-type counters, the
    sum of the country counters, the number of markers on the map and the
    number of entries of the plant list are all the same number. *)
Theorem statistics_count_what_is_shown (ui : controls) (data : list producer) :
  let r := addAllMarkers toLowerCase ui data in
  types_total (shown_stats r) = List.length (plant_list r)
  /\ countries_total (shown_stats r) = List.length (plant_list r)
  /\ List.length (layers r) = List.length (plant_list r).
Proof.
  intros r. destruct (addAllMarkers_counts ui data) as (Ht & Hc & Hl & _).
  fold r in Ht, Hc, Hl. repeat split; try assumption.
  unfold types_total. rewrite !Ht, with_icon_total. exact Hl.
Qed.

(** X12: for each plant type, the counter shown in the statistics equals the
    number of markers on the map that carry the icon of that type. *)
Theorem statistics_agree_with_icons (ui : controls) (data : list producer)
    (k : plant_kind) :
  let r := addAllMarkers toLowerCase ui data in
  types (shown_stats r) k = List.length (with_icon k (layers r)).
Proof. intros r. apply (addAllMarkers_counts ui data). Qed.

(** X13: whatever the filters, every producer in the plant list and every
    marker on the map has a latitude and a longitude that are numbers other
    than zero and NaN: a producer without coordinates, or with a coordinate
    that is exactly zero, is never shown. *)
Theorem shown_producers_have_a_position (ui : controls) (data : list producer) :
  let r := addAllMarkers toLowerCase ui data in
  Forall (fun p => js_not (latitude p) = false /\ js_not (longitude p) = false)
         (plant_list r)
  /\ Forall (fun m => usable (position m) = true) (layers r).
Proof.
  intros r. destruct (addAllMarkers_counts ui data) as (_ & _ & _ & Hf & Hg).
  split; [|exact Hg]. eapply Forall_impl; [|exact Hf].
  intros p Hp. unfold no_position in Hp.
  destruct (js_not (latitude p)); [discriminate|].
  destruct (js_not (longitude p)); [discriminate|]. auto.
Qed.

Hypothesis lower_empty : toLowerCase [] = [].

Lemma keeps_unfiltered (ui : controls) (st : stats) (p : producer) :
  unfiltered ui = true ->
  fst (keeps toLowerCase ui st p) = negb (no_position p).
Proof.
  unfold unfiltered. rewrite !andb_true_iff.
  intros (((((((H1 & H2) & H3) & H4) & H5) & H6) & H7) & H8).
  apply str_eqb_eq in H8.
  unfold keeps. fold (no_position p). rewrite H1, H2, H3, H4, H5, H6, H7, H8.
  rewrite lower_empty. cbn [str_eqb orb].
  destruct (no_position p); [reflexivity|].
  repeat match goal with
  | |- context [includes ?a ?b] => destruct (includes a b)
  end; reflexivity.
Qed.

(** X14: with every check box ticked and the search field empty the plant
    list holds exactly the producers that have a position, in the order of
    the data, for a lower-casing that maps the empty text to itself. *)
Theorem unfiltered_page_shows_every_position (ui : controls) (data : list producer) :
  unfiltered ui = true ->
  plant_list (addAllMarkers toLowerCase ui data)
  = filter (fun p => negb (no_position p)) data.
Proof.
  intros Hu. unfold addAllMarkers.
  destruct (filter_producers toLowerCase ui data no_stats) as [out st] eqn:F.
  cbn [plant_list]. revert out st F. generalize no_stats.
  induction data as [|p data IH]; intros st0 out st F; cbn [filter_producers] in F.
  - injection F as <- <-. reflexivity.
  - pose proof (keeps_unfiltered ui st0 p Hu) as K.
    destruct (keeps toLowerCase ui st0 p) as [kept st1].
    destruct (filter_producers toLowerCase ui data st1) as [out1 st2] eqn:F1.
    injection F as <- <-. cbn [fst] in K. cbn [filter]. rewrite <- K.
    rewrite <- (IH _ _ _ F1). reflexivity.
Qed.

End PageFacts.

Lemma unfiltered_page_shows_every_position_witness :
  plant_list (addAllMarkers ascii_lower all_boxes_ticked sample_producers)
  = filter (fun p => negb (no_position p)) sample_producers.
Proof.
  apply (unfiltered_page_shows_every_position ascii_lower eq_refl all_boxes_ticked
           sample_producers).
  reflexivity.
Defined.

(** ** The returned numbers are never NaN *)

Lemma fneg_not_nan (b : bool) (f : float) :
  nonneg f = true -> is_nan (if b then fneg f else f) = false.
Proof. destruct b, f as [[]|[]| |[] m e]; try discriminate; reflexivity. Qed.

Lemma py_float_seconds_nonneg (s : str) :
  seconds_text s -> exists f, py_float s = Ok f /\ nonneg f = true.
Proof.
  intros (x & Hx & [->|(f & Hf & ->)]).
  - rewrite py_float_numeral by exact Hx. eauto using float_of_ratio_nonneg.
  - rewrite py_float_fraction by assumption. eauto using float_of_ratio_nonneg.
Qed.

Lemma dms_groups_not_nan (m : groups) :
  dms_groups m ->
  exists lat lon,
    to_decimal_degrees m = Ok (Some lat, Some lon)
    /\ is_nan lat = false /\ is_nan lon = false.
Proof.
  intros (d1 & m1 & s1 & h1 & d2 & m2 & s2 & h2 & -> & Hd1 & Hm1 & Hs1 & Hd2 & Hm2 & Hs2).
  apply py_float_seconds_nonneg in Hs1 as (f1 & Hs1 & N1), Hs2 as (f2 & Hs2 & N2).
  unfold to_decimal_degrees, float_group, upper_group. cbn [group Nat.eqb].
  repeat (first [rewrite py_float_numeral by assumption | rewrite Hs1 | rewrite Hs2];
          cbn [bind]).
  rewrite float_of_int_60, float_of_int_3600.
  do 2 eexists. split; [reflexivity|].
  split; apply fneg_not_nan, fadd_nonneg;
    try apply fadd_nonneg; try apply fdiv_nonneg;
    first [apply float_of_ratio_nonneg | assumption].
Qed.

Lemma try_patterns_not_nan (s : str) (lat lon : float) :
  try_patterns patterns s = Ok (Some (Some lat, Some lon)) ->
  is_nan lat = false /\ is_nan lon = false.
Proof.
  unfold patterns. cbn [try_patterns].
  assert (K : forall p m,
             In p [pattern_comma; pattern_space; simplified_pattern] ->
             search true p s = Some m ->
             (v <- to_decimal_degrees m ;; Ok (Some v)) = Ok (Some (Some lat, Some lon)) ->
             is_nan lat = false /\ is_nan lon = false).
  { intros p m Hp E H. apply search_some in E as (pre & suf & _ & E).
    apply match_here_captures in E as (t & rest & _ & E).
    apply (captures_dms_groups p) in E; [|exact Hp].
    apply dms_groups_not_nan in E as (la & lo & E & Hla & Hlo).
    rewrite E in H. cbn [bind] in H. injection H as <- <-. auto. }
  destruct (search true pattern_comma s) as [m|] eqn:E1.
  - apply (K pattern_comma m); simpl; auto.
  - destruct (search true pattern_space s) as [m|] eqn:E2; [|discriminate].
    apply (K pattern_space m); simpl; auto.
Qed.

(** X15: a latitude or longitude that the call returns is never a NaN (it
    can be an infinity, when a numeral is too large for a float). *)
Theorem parse_coordinates_never_nan (v : pyval) (w : world) (lat lon : float) :
  fst (parse_coordinates v w) = Return (Some lat, Some lon) ->
  is_nan lat = false /\ is_nan lon = false.
Proof.
  intros H. destruct (parse_coordinates_value v w) as [E|(_ & e & E)];
    rewrite E in H; [|discriminate].
  destruct v as [|b|n|f|s];
    try (unfold result_of in H; rewrite parse_coordinates_not_text in H by reflexivity;
         discriminate).
  rewrite result_of_text in H.
  destruct (try_patterns patterns (strip s)) as [[[[la|] [lo|]]|]|e0] eqn:T;
    try discriminate.
  injection H as <- <-. eapply try_patterns_not_nan, T.
Qed.

Lemma parse_coordinates_never_nan_witness :
  is_nan (signed_float 83 sample_richmond_north) = false
  /\ is_nan (signed_float 87 sample_richmond_west) = false.
Proof.
  apply (parse_coordinates_never_nan
           (PyStr (comma_pair sample_richmond_north [32] sample_richmond_west))
           open_output).
  vm_compute. reflexivity.
Defined.

(** ** Text without the unit marks *)

Lemma set_without_letters (cs : list char) (c : char) :
  forallb (fun x => (x <? 97) || (122 <? x)) (fold_set cs) = true ->
  atom_match true (ASet cs) c = true -> mem_char c (fold_set cs) = true.
Proof.
  intros Hcs H. unfold atom_match, sre_lower in H.
  destruct ((65 <=? c) && (c <=? 90)) eqn:E; [exfalso | exact H].
  apply andb_prop in E as [E1 E2]. apply Z.leb_le in E1, E2.
  apply mem_char_In in H. rewrite forallb_forall in Hcs. apply Hcs in H.
  apply orb_prop in H as [H|H]; [apply Z.ltb_lt in H | apply Z.ltb_lt in H]; lia.
Qed.

Lemma has_mark_app (marks : list char) (a b : str) :
  has_mark marks (a ++ b) = has_mark marks a || has_mark marks b.
Proof. apply existsb_app. Qed.

Lemma has_mark_mid (marks : list char) (a : str) (c : char) (b : str) :
  mem_char c marks = true -> has_mark marks (a ++ [c] ++ b) = true.
Proof.
  intros H. rewrite !has_mark_app. unfold has_mark at 2. cbn [existsb].
  rewrite H. cbn [orb]. apply orb_true_r.
Qed.

Lemma captures_marks (p : regex) (t : str) (m : groups) :
  In p patterns -> captures true p t [] m ->
  has_mark [c_degree; c_ordinal] t = true /\ has_mark [c_squote; c_prime] t = true.
Proof.
  intros Hp H.
  assert (K : exists t1 c t2 t3 c' t4,
             t = t1 ++ [c] ++ t2 ++ t3 ++ [c'] ++ t4
             /\ atom_match true (ASet [c_degree; c_ordinal]) c = true
             /\ atom_match true (ASet [c_squote; c_prime]) c' = true).
  { destruct Hp as [<-|[<-|[]]];
      [unfold pattern_comma in H | unfold pattern_space in H];
      unfold degree_mark, minute_mark in H; cbn [captures] in H;
      destruct H as (t1 & r1 & g1 & -> & _ & (x & r2 & g2 & -> & ((c & -> & Hc) & _)
                     & (t2 & r3 & g3 & -> & _ & (t3 & r4 & g4 & -> & _
                     & (y & t4 & g5 & -> & ((c' & -> & Hc') & _) & _)))));
      exists t1, c, t2, t3, c', t4; auto. }
  destruct K as (t1 & c & t2 & t3 & c' & t4 & -> & Hc & Hc').
  apply set_without_letters in Hc; [|reflexivity].
  apply set_without_letters in Hc'; [|reflexivity].
  change (fold_set [c_degree; c_ordinal]) with [c_degree; c_ordinal] in Hc.
  change (fold_set [c_squote; c_prime]) with [c_squote; c_prime] in Hc'.
  split.
  - apply has_mark_mid, Hc.
  - replace (t1 ++ [c] ++ t2 ++ t3 ++ [c'] ++ t4)
      with ((t1 ++ [c] ++ t2 ++ t3) ++ [c'] ++ t4)
      by (rewrite <- !app_assoc; reflexivity).
    apply has_mark_mid, Hc'.
Qed.

Lemma parses_marks (s : str) :
  parses (strip s) ->
  has_mark [c_degree; c_ordinal] s = true /\ has_mark [c_squote; c_prime] s = true.
Proof.
  intros (p & Hp & H).
  destruct (search true p (strip s)) as [m|] eqn:E; [clear H|congruence].
  apply search_some in E as (pre & suf & Es & E).
  apply match_here_captures in E as (t & rest & -> & E).
  destruct (captures_marks p t m Hp E) as [H1 H2].
  destruct (strip_split s) as (b1 & b2 & ->). rewrite Es.
  rewrite !has_mark_app, H1, H2. cbn [orb]. rewrite !orb_true_r. auto.
Qed.

(** X16: a text that holds no degree mark (the degree sign or the ordinal
    indicator), or no minute mark (the apostrophe or the prime), never yields
    a pair: coordinates written as decimal degrees, or without minutes, are
    answered with the absent pair. *)
Theorem text_without_marks_not_parsed (s : str) :
  has_mark [c_degree; c_ordinal] s = false \/ has_mark [c_squote; c_prime] s = false ->
  result_of (PyStr s) = Return (None, None).
Proof.
  intros H. destruct (result_of_paired (PyStr s)) as [E|E]; [exact E|].
  apply parses_result, parses_marks in E as [H1 H2].
  destruct H as [H|H]; congruence.
Qed.

Lemma text_without_marks_not_parsed_witness :
  result_of (PyStr (u "33.77, -118.283333")) = Return (None, None).
Proof. apply text_without_marks_not_parsed. left. reflexivity. Defined.

